(** * couch-migrate: a shallow embedding of [index.js]

    The migration engine of [index.js] is written in continuation-passing
    style over three outside collaborators: the CouchDB client (nano), the
    user's callbacks and the console/progress bar.  The embedding keeps the
    functions of the source, in direct style, over a small state-and-error
    monad:

    - the outside world (the store and whatever the callbacks close over)
      is an abstract state [Ext]; a store operation is a function
      [Ext -> (Err + A) * Ext], its answer being what the source's
      node-style callback receives ([cb(err)] or [cb(null, result)]);
    - the [fetchKeys] and [changes] callbacks are function values with
      the number of parameters they declare, which [wrapAsync] looks at;
      a call has an answer when the function, as [wrapAsync] prepared it,
      calls back once;
    - every computation also yields the list of the calls it made, in
      order (its trace);
    - [cb(err)] is the error result [inl err] of the monad, so an error
      skips the rest of the pipeline exactly as the source's
      [if (err) { return cb(err); }] lines do;
    - [None] is a computation that never calls its continuation: a
      callback threw where nothing catches it or never called back, or
      the page loop of [getViewInBatches], the only recursion whose
      termination depends on the outside world, has used up its fuel. *)

From stdpp Require Import base list strings numbers option pretty.

Open Scope Z_scope.
Open Scope nat_scope.

(** ** Data model *)

(** Error values.  They stand for truthy JavaScript values (an [Error]
    object, a message): the source tests them with [if (err)]. *)
Definition Err := string.

(** Document ids, the keys handed to [db.fetch]. *)
Definition DocKey := string.

(** One entry of the array answered by [db.bulk]: [{ok: true, id, rev}] or
    [{id, error, reason}]. *)
Record WriteResult := mkWriteResult {
  wr_id : string;
  wr_error : option string
}.

(** The [retryConflicts] option: absent, the literal [false], or a count
    ("how many retries", a natural number). *)
Inductive RetryConflicts :=
| RcUndefined
| RcFalse
| RcNum (n : nat).

(** [options.retryConflicts === false ? 0 : options.retryConflicts || 2] *)
Definition retries_of (rc : RetryConflicts) : nat :=
  match rc with
  | RcFalse => 0
  | RcUndefined | RcNum 0 => 2
  | RcNum n => n
  end.

(** What the scanner's batch handler did with its [nextBatch] continuation:
    it called it without an error ([Next]), or it never called it
    ([Halt]).  Calling it with an error is the error result of the monad. *)
Inductive Signal := Next | Halt.

(** ** [wrapAsync] *)

(** What one call of a JavaScript function does with the node-style
    callback [cb] found among its arguments: the answers it hands to
    [cb], in order ([cb(err)] is [inl err], [cb(null, result)] is
    [inr result]), and how the call itself ends: it throws ([inl]) or it
    returns a value ([inr]; [None] is [undefined]). *)
Record Outcome (A : Type) := mkOutcome {
  called_back : list (Err + option A);
  ended : Err + option A
}.
Arguments mkOutcome {A} _ _.
Arguments called_back {A} _.
Arguments ended {A} _.

(** A function value: [fn.length], the number of parameters it declares,
    and what a call of it does, given its arguments. *)
Record JsFn (Args A : Type) := mkJsFn {
  fn_length : nat;
  fn_call : Args → Outcome A
}.
Arguments mkJsFn {Args A} _ _.
Arguments fn_length {Args A} _.
Arguments fn_call {Args A} _ _.

(** [wrapAsync(fn, cbArg)]; [None] is a missing function.  The wrapper
    is a [function() {...}]: it declares no parameter.  Both its
    [return cb(err)] and its falling off the end return [undefined],
    [cb] being a continuation of the async library. *)
Definition wrapAsync {Args A} (fn : option (JsFn Args A)) (cbArg : nat)
  : option (JsFn Args A) :=
  match fn with
  | None => None
  | Some f =>
      if bool_decide (cbArg < fn_length f) then Some f
      else Some (mkJsFn 0 (λ args,
             let o := fn_call f args in
             match ended o with
             | inl err => mkOutcome (called_back o ++ [inl err]) (inr None)
             | inr result => mkOutcome (called_back o ++ [inr result]) (inr None)
             end))
  end.

(** A function written in the synchronous style: it never touches the
    callback. *)
Definition synchronous {Args A} (f : JsFn Args A) : Prop :=
  ∀ args, called_back (fn_call f args) = [].

Section Engine.

(** View keys, view values and document bodies are JSON the engine never
    looks into; [Ext] is the state of the outside world. *)
Context {Key Value Doc Ext : Type}.

(** A view row.  [extraKeys] is the field [getExtraKeyInfo] assigns on the
    row object; it is always assigned before it is read, so a row fresh
    from the view carries the empty list. *)
Record Row := mkRow {
  row_key : Key;
  row_id : option string;
  row_value : Value;
  extraKeys : list DocKey
}.

(** The query parameters object handed to [db.view]: the two cursor
    fields and [limit], which the scanner overwrites, and the rest. *)
Record Params := mkParams {
  p_limit : option nat;
  startkey : option Key;
  startkey_docid : option string;
  p_rest : list (string * Value)
}.

(** What [fetchKeys] gives back: nothing, one key or an array of keys. *)
Inductive KeysResult :=
| KeysNone
| KeysOne (k : DocKey)
| KeysMany (ks : list DocKey).

(** What [changes] gives back: nothing, one document or an array. *)
Inductive ChangesResult :=
| ChNone
| ChOne (d : Doc)
| ChMany (ds : list Doc).

(** The second argument of [changes]: [extraDocs[i]], which is
    [undefined] ([None]) when the index is out of range. *)
Definition DocGroup := option (list (option Doc)).

(** The steps of a run that the properties speak about, in the order they
    are made.  Most are calls that leave the engine: to the store
    ([EvView], [EvFetch], [EvBulk]), to the callbacks ([EvFetchKeys],
    [EvChanges], [EvComplete]), to the progress bar ([EvTick]) and to the
    console ([EvFailure], from [reportFailure]); a call to the store or to
    a callback records the error it answered, if any.  Two are hand-overs
    inside the engine: [EvPage] is the scanner calling its batch handler
    with a page, [EvSubBatch] is a sub-batch entering [getExtraKeyInfo]. *)
Inductive Event :=
| EvView (ddoc view : string) (p : Params) (failure : option Err)
| EvPage (rows : list Row)
| EvSubBatch (batch : list Row)
| EvFetchKeys (row : Row) (failure : option Err)
| EvFetch (keys : list DocKey) (failure : option Err)
| EvChanges (row : Row) (docs : DocGroup) (failure : option Err)
| EvBulk (docs : list Doc) (failure : option Err)
| EvTick (n : Z) (realcurrent batch : Z)
| EvFailure (row : Row) (err : Err)
| EvComplete (err : option Err).

(** An answer of the outside world. *)
Definition Answer (A : Type) := Ext → (Err + A) * Ext.

(** The nano database handle: [db.view], [db.fetch] (answering the [doc]
    fields of [body.rows]) and [db.bulk]. *)
Record Db := mkDb {
  db_view : string → string → Params → Answer (list Row);
  db_fetch : list DocKey → Answer (list (option Doc));
  db_bulk : list Doc → Answer (list WriteResult)
}.

(** A user callback that goes through [wrapAsync] ([fetchKeys],
    [changes]): the function value -- a call of it sees its arguments and
    the state of the outside world -- and what a call does to the outside
    world. *)
Record Callback (Args A : Type) := mkCallback {
  cb_fn : JsFn (Args * Ext) A;
  cb_effect : Args → Ext → Ext
}.
Arguments mkCallback {Args A} _ _.
Arguments cb_fn {Args A} _.
Arguments cb_effect {Args A} _ _ _.

(** The [options] object.  [batchSize] and [limit] are counts of rows;
    [changes] is required, the other callbacks are optional.
    [fetchKeys] and [changes] are function values: [wrapAsync] decides
    from the number of parameters they declare whether they are called
    in the synchronous or in the callback style.  [sourceFilter] is
    called directly, inside a [try]: it answers an error when it
    throws. *)
Record Options := mkOptions {
  database : Db;
  sourceDesignDoc : string;
  sourceView : string;
  sourceParams : option Params;
  options_batchSize : option nat;
  options_limit : option nat;
  options_fetchKeys : option (Callback Row KeysResult);
  options_changes : Callback (Row * DocGroup) ChangesResult;
  options_sourceFilter : option (Row → Answer bool);
  options_retryConflicts : RetryConflicts
}.

(** The mutable state: the outside world, the shared [sourceParams]
    object, the closure variable [limit] and [progressTokens]. *)
Record World := mkWorld {
  ext : Ext;
  query : Params;
  limit : option Z;
  realcurrent : Z;
  batchno : Z
}.

Definition set_ext (s : Ext) (w : World) : World :=
  mkWorld s (query w) (limit w) (realcurrent w) (batchno w).
Definition set_query (p : Params) (w : World) : World :=
  mkWorld (ext w) p (limit w) (realcurrent w) (batchno w).
Definition set_limit (l : option Z) (w : World) : World :=
  mkWorld (ext w) (query w) l (realcurrent w) (batchno w).
Definition set_realcurrent (n : Z) (w : World) : World :=
  mkWorld (ext w) (query w) (limit w) n (batchno w).
Definition set_batchno (n : Z) (w : World) : World :=
  mkWorld (ext w) (query w) (limit w) (realcurrent w) n.

(** ** The monad *)

(** A finished computation: its result, the state it leaves and the
    events it produced.  [None] is a computation that has not finished. *)
Definition M (A : Type) := World → option ((Err + A) * World * list Event).

Definition ret {A} (a : A) : M A := λ w, Some (inr a, w, []).
Definition diverge {A} : M A := λ _, None.
Definition bind {A B} (m : M A) (k : A → M B) : M B :=
  λ w, match m w with
       | None => None
       | Some (inl e, w1, d1) => Some (inl e, w1, d1)
       | Some (inr a, w1, d1) =>
           match k a w1 with
           | None => None
           | Some (r, w2, d2) => Some (r, w2, d1 ++ d2)
           end
       end.

Notation "'let*' x ':=' m 'in' k" := (bind m (λ x, k))
  (at level 10, x name, m at level 100, k at level 200).
Notation "m '>>' k" := (bind m (λ _, k))
  (at level 100, k at level 200, right associativity).

Definition update (f : World → World) : M unit := λ w, Some (inr tt, f w, []).
Definition log (e : Event) : M unit := λ w, Some (inr tt, w, [e]).

Definition failure_of {A} (r : Err + A) : option Err :=
  match r with inl e => Some e | inr _ => None end.

(** A call to the store or to a callback: the world moves, the call is
    traced with its failure, the answer is the result. *)
Definition call {A} (f : Answer A) (ev : option Err → Event) : M A :=
  λ w, let r := f (ext w) in
       Some (r.1, set_ext r.2 w, [ev (failure_of r.1)]).

(** A call [fn(args..., cb)] of a function that [wrapAsync] has prepared,
    as the async library sees it: the function calls [cb] once, with an
    error or with a result, and returns.  [undef] is what the engine
    reads the result [undefined] as.  In every other case the engine
    never gets control back and there is no answer: the function is
    missing, it throws where nothing catches it (only the wrapper of
    [wrapAsync] has a [try]), or it returns without having called [cb].
    A function that calls back more than once is outside the model and
    has no answer either. *)
Definition reply {Args A} (fn : option (JsFn (Args * Ext) A))
    (effect : Args → Ext → Ext) (undef : A) (args : Args) (s : Ext)
  : option ((Err + A) * Ext) :=
  match fn with
  | None => None
  | Some f =>
      let o := fn_call f (args, s) in
      match called_back o, ended o with
      | [inl err], inr _ => Some (inl err, effect args s)
      | [inr result], inr _ => Some (inr (default undef result), effect args s)
      | _, _ => None
      end
  end.

(** The call as a computation: its answer is the result, the call is
    traced with its failure; without an answer the computation never
    finishes. *)
Definition invoke {A} (f : Ext → option ((Err + A) * Ext)) (ev : option Err → Event)
  : M A :=
  λ w, match f (ext w) with
       | None => None
       | Some (r, s) => Some (r, set_ext s w, [ev (failure_of r)])
       end.

(** [async.mapSeries(arr, fn, cb)]: one call after the other, stopping at
    the first error. *)
Fixpoint mapSeries {A B} (fn : A → M B) (arr : list A) : M (list B) :=
  match arr with
  | [] => ret []
  | a :: rest =>
      let* b := fn a in
      let* bs := mapSeries fn rest in
      ret (b :: bs)
  end.

(** [async.timesSeries(batch.length, function(i, cb) {... batch[i] ...})]:
    the iterator runs for [i = 0 .. batch.length - 1], here from [i]
    onwards over the rows that are left. *)
Fixpoint timesSeries {B} (fn : nat → Row → M B) (i : nat) (batch : list Row)
  : M (list B) :=
  match batch with
  | [] => ret []
  | row :: rest =>
      let* b := fn i row in
      let* bs := timesSeries fn (S i) rest in
      ret (b :: bs)
  end.

(** [arr.forEach(fn)] for an effectful [fn]. *)
Fixpoint forEach {A} (fn : A → M unit) (arr : list A) : M unit :=
  match arr with
  | [] => ret tt
  | a :: rest => fn a >> forEach fn rest
  end.

(** ** [unflatten] *)

(** JavaScript addition of two numbers that may be [NaN] ([None]);
    [undefined] counts as [NaN]. *)
Definition js_add (i c : option nat) : option nat :=
  match i, c with
  | Some i, Some c => Some (i + c)
  | _, _ => None
  end.

(** [array.slice(i, i + c)]: [NaN] bounds are read as [0], so the slice
    is empty as soon as [i] or [c] is not a number. *)
Definition js_slice {A} (array : list A) (i c : option nat) : list A :=
  match i, c with
  | Some i, Some c => take c (drop i array)
  | _, _ => []
  end.

Fixpoint unflatten_from {A} (array : list A) (i : option nat)
    (counts : list (option nat)) : list (list A) :=
  match counts with
  | [] => []
  | c :: rest => js_slice array i c :: unflatten_from array (js_add i c) rest
  end.

Definition unflatten {A} (array : list A) (counts : list (option nat))
  : list (list A) :=
  unflatten_from array (Some 0) counts.

(** ** Closure variables of [module.exports] *)

Variable options : Options.

Definition db : Db := database options.

(** [options.batchSize || 20] *)
Definition batchSize : nat :=
  match options_batchSize options with
  | None | Some 0 => 20
  | Some n => n
  end.

(** [var retries = ...] *)
Definition retries : nat := retries_of (options_retryConflicts options).

(** What a call [fetchKeysFn(row, cb)] of a configured callback [f]
    answers, [fetchKeysFn] being [wrapAsync(f, 1)]; the result
    [undefined] is no key ([keysByRow[i] || []]). *)
Definition fetchKeysReply (f : Callback Row KeysResult) (row : Row)
  : Ext → option ((Err + KeysResult) * Ext) :=
  reply (wrapAsync (Some (cb_fn f)) 1) (cb_effect f) KeysNone row.

(** [wrapAsync(options.fetchKeys || function(key, cb) {cb();}, 1)].  The
    default declares two parameters, so it is left as it is: it calls
    back with [undefined], and is not a call that leaves the engine. *)
Definition fetchKeysFn (row : Row) : M KeysResult :=
  match options_fetchKeys options with
  | Some f => invoke (fetchKeysReply f row) (EvFetchKeys row)
  | None => ret KeysNone
  end.

(** What a call [changesFn(row, docs, cb)] answers, [changesFn] being
    [wrapAsync(options.changes, 2)]; the result [undefined] is no change
    ([c || []]). *)
Definition changesReply (row : Row) (docs : DocGroup)
  : Ext → option ((Err + ChangesResult) * Ext) :=
  reply (wrapAsync (Some (cb_fn (options_changes options))) 2)
        (cb_effect (options_changes options)) ChNone (row, docs).

Definition changesFn (row : Row) (docs : DocGroup) : M ChangesResult :=
  invoke (changesReply row docs) (EvChanges row docs).

Definition reportFailure (row : Row) (err : Err) : M unit :=
  log (EvFailure row err).

(** [progress.tick(n, progressTokens)] *)
Definition tick (n : Z) : M unit :=
  λ w, log (EvTick n (realcurrent w) (batchno w)) w.

(** ** [processBatch] *)

(** [_.flatten([keysByRow[i] || []])]: the empty string is falsy. *)
Definition flattenKeys (keys : KeysResult) : list DocKey :=
  match keys with
  | KeysNone => []
  | KeysOne k => if bool_decide (k = "") then [] else [k]
  | KeysMany ks => ks
  end.

(** [c || []] *)
Definition orEmpty (c : ChangesResult) : ChangesResult :=
  match c with
  | ChNone => ChMany []
  | c => c
  end.

(** One element of [_.flatten(changes)]. *)
Definition flattenChange (c : ChangesResult) : list Doc :=
  match c with
  | ChNone => []
  | ChOne d => [d]
  | ChMany ds => ds
  end.

(** One element of [_.map(changes, 'length')]: a document object has no
    [length] property. *)
Definition lengthOf (c : ChangesResult) : option nat :=
  match c with
  | ChNone => None
  | ChOne _ => None
  | ChMany ds => Some (length ds)
  end.

(** [_.find(r, {error: 'conflict'})], as a truth value. *)
Definition hasConflict (r : list WriteResult) : bool :=
  existsb (λ x, bool_decide (wr_error x = Some "conflict")) r.

(** The loop of [processErrors]:
    [for (var i = 0, r; r = results[i]; i++) if (...) newBatch.push(batch[i])].
    [results] has one group per row of [batch]. *)
Fixpoint conflicting (batch : list Row) (results : list (list WriteResult))
  : list Row :=
  match results, batch with
  | r :: results', row :: batch' =>
      if hasConflict r then row :: conflicting batch' results'
      else conflicting batch' results'
  | _, _ => []
  end.

(** The head of [processBatch]: the multi-get, skipped when no row has
    extra keys, in which case [extraDocs] stays [[]]. *)
Definition fetchExtraDocs (batch : list Row) : M (list (list (option Doc))) :=
  let extraKeys' := extraKeys <$> batch in
  let allExtraKeys := concat extraKeys' in
  if bool_decide (allExtraKeys = []) then ret []
  else
    let* docs := call (db_fetch db allExtraKeys) (EvFetch allExtraKeys) in
    ret (unflatten docs ((λ ks, Some (length ks)) <$> extraKeys')).

(** [runChanges], up to its call of [processErrors]: the result is the
    argument of that call. *)
Definition runChanges (batch : list Row) (extraDocs : list (list (option Doc)))
  : M (list (list WriteResult)) :=
  let* changes := timesSeries (λ i row, changesFn row (extraDocs !! i)) 0 batch in
  let changes := orEmpty <$> changes in
  let allChanges := concat (flattenChange <$> changes) in
  let* results := call (db_bulk db allChanges) (EvBulk allChanges) in
  ret (unflatten results (lengthOf <$> changes)).

(** [processErrors]; [again] is the recursive call of [processBatch]. *)
Definition processErrors (again : list Row → nat → M unit)
    (batch : list Row) (retry : nat) (results : list (list WriteResult))
  : M unit :=
  let newBatch := conflicting batch results in
  let success := (Z.of_nat (length batch) - Z.of_nat (length newBatch))%Z in
  update (λ w, set_realcurrent (realcurrent w + success) w) >>
  tick success >>
  if bool_decide (newBatch = []) then ret tt
  else if bool_decide (retries ≤ retry) then
    forEach (λ row, reportFailure row "Conflict") newBatch
  else again newBatch (S retry).

(** [processBatch(batch, retry, cb)].  The recursion is on the number of
    retries that are left to make; [getExtraKeyInfo] starts it with
    [retries], which is never used up (lemma [processBatch_total]). *)
Fixpoint processBatch (more : nat) (batch : list Row) (retry : nat) : M unit :=
  let* extraDocs := fetchExtraDocs batch in
  let* results := runChanges batch extraDocs in
  processErrors
    (match more with
     | 0 => λ _ _, diverge
     | S more' => processBatch more'
     end)
    batch retry results.

Definition set_extraKeys (row : Row) (keys : list DocKey) : Row :=
  mkRow (row_key row) (row_id row) (row_value row) keys.

(** [getExtraKeyInfo(batch, cb)].  The first event marks the entry of a
    sub-batch into the pipeline. *)
Definition getExtraKeyInfo (batch : list Row) : M unit :=
  log (EvSubBatch batch) >>
  let* keysByRow := mapSeries fetchKeysFn batch in
  let batch := zip_with (λ row keys, set_extraKeys row (flattenKeys keys))
                        batch keysByRow in
  processBatch retries batch 0.

(** ** The batch handler of [module.exports] *)

(** [rows.filter(function(row) { try {...} catch(err) {...} })] *)
Definition keepRow (f : Row → Answer bool) (row : Row) : M bool :=
  λ w, let r := f row (ext w) in
       match r.1 with
       | inr b => ret b (set_ext r.2 w)
       | inl err => (reportFailure row err >> ret false) (set_ext r.2 w)
       end.

Fixpoint filterRows (f : Row → Answer bool) (rows : list Row) : M (list Row) :=
  match rows with
  | [] => ret []
  | row :: rest =>
      let* keep := keepRow f row in
      let* kept := filterRows f rest in
      ret (if keep then row :: kept else kept)
  end.

(** [rows.slice(0, end)] for an integer [end]: a negative [end] counts
    from the end of the array. *)
Definition slice0 {A} (rows : list A) (e : Z) : list A :=
  if (e <? 0)%Z then take (Z.to_nat (Z.of_nat (length rows) + e)) rows
  else take (Z.to_nat e) rows.

(** [if (limit != null) { limit -= rows.length; if (limit < 0) {...} }] *)
Definition applyLimit (rows : list Row) : M (list Row) :=
  λ w, match limit w with
       | None => ret rows w
       | Some l =>
           let l' := (l - Z.of_nat (length rows))%Z in
           if (l' <? 0)%Z
           then ret (slice0 rows (Z.of_nat (length rows) + l')) (set_limit (Some 0%Z) w)
           else ret rows (set_limit (Some l') w)
       end.

(** [async.whilst(function() { return count < rows.length; }, ...)]: the
    loop over the sub-batches of a page.  [count] grows by [batchSize],
    which is not [0], so [rows.length] iterations are never used
    up (lemma [whilst_total]). *)
Fixpoint whilst (more : nat) (rows : list Row) (count : nat) : M unit :=
  if bool_decide (count < length rows) then
    match more with
    | 0 => diverge
    | S more' =>
        let batch := take batchSize (drop count rows) in
        getExtraKeyInfo batch >> whilst more' rows (count + batchSize)
    end
  else ret tt.

(** The final callback of [async.whilst]: [limit === 0 ? complete :
    nextBatch].  [complete] is called on the spot; [nextBatch] hands the
    outcome back to the scanner. *)
Definition finish (loop : M unit) : M Signal :=
  λ w, match loop w with
       | None => None
       | Some (r, w', d) =>
           if bool_decide (limit w = Some 0%Z)
           then Some (inr Halt, w', d ++ [EvComplete (failure_of r)])
           else match r with
                | inl e => Some (inl e, w', d)
                | inr _ => Some (inr Next, w', d)
                end
       end.

Definition batchHandler (rows : list Row) : M Signal :=
  update (λ w, set_batchno (batchno w + 1) w) >>
  let* rows := match options_sourceFilter options with
               | Some f => filterRows f rows
               | None => ret rows
               end in
  let* rows := applyLimit rows in
  if bool_decide (length rows = 0) then ret Next
  else
    tick 0 >>
    finish (whilst (length rows) rows 0).

(** ** [getViewInBatches] *)

(** [if (next.id)]: an absent or empty id is falsy. *)
Definition truthy_id (i : option string) : bool :=
  match i with
  | Some s => negb (bool_decide (s = ""))
  | None => false
  end.

(** [params.startkey = next.key; if (next.id) params.startkey_docid = next.id] *)
Definition advance (next : Row) (p : Params) : Params :=
  mkParams (p_limit p) (Some (row_key next))
           (if truthy_id (row_id next) then row_id next else startkey_docid p)
           (p_rest p).

Definition with_limit (n : nat) (p : Params) : Params :=
  mkParams (Some n) (startkey p) (startkey_docid p) (p_rest p).

(** The inner [nextBatch] of [getViewInBatches].  [handler] is the
    [batchHandler] argument; the event [EvPage] is its invocation. *)
Fixpoint nextBatch (fuel : nat) (d : Db) (ddoc view : string) (size : nat)
    (handler : list Row → M Signal) : M Signal :=
  match fuel with
  | 0 => diverge
  | S fuel' =>
      λ w,
      (let* rows := call (db_view d ddoc view (query w)) (EvView ddoc view (query w)) in
       log (EvPage (take size rows)) >>
       let* signal := handler (take size rows) in
       match signal with
       | Halt => ret Halt
       | Next =>
           match rows !! size with
           | Some next =>
               update (λ w, set_query (advance next (query w)) w) >>
               nextBatch fuel' d ddoc view size handler
           | None => ret Next
           end
       end) w
  end.

Definition getViewInBatches (fuel : nat) (d : Db) (ddoc view : string)
    (size : nat) (handler : list Row → M Signal) : M Signal :=
  update (λ w, set_query (with_limit (size + 1) (query w)) w) >>
  nextBatch fuel d ddoc view size handler.

(** ** [module.exports] *)

Definition emptyParams : Params := mkParams None None None [].

(** The state [module.exports] starts from, over the outside world [s]. *)
Definition initial (s : Ext) : World :=
  mkWorld s (default emptyParams (sourceParams options))
          (Z.of_nat <$> options_limit options) 0 0.

(** The whole migration from world [w]: both callbacks of
    [getViewInBatches] end in [complete]. *)
Definition run (fuel : nat) (w : World) : option (World * list Event) :=
  match getViewInBatches fuel db (sourceDesignDoc options) (sourceView options)
                         1000 batchHandler w with
  | None => None
  | Some (inl e, w', d) => Some (w', d ++ [EvComplete (Some e)])
  | Some (inr Next, w', d) => Some (w', d ++ [EvComplete None])
  | Some (inr Halt, w', d) => Some (w', d)
  end.

Definition migrate (fuel : nat) (s : Ext) : option (World * list Event) :=
  run fuel (initial s).

(** * Vocabulary of the properties *)

(** ** For: events of a computation *)

(** [emits P m]: every event [m] produces satisfies [P]. *)
Definition emits {A} (P : Event → Prop) (m : M A) : Prop :=
  ∀ w r w' d, m w = Some (r, w', d) → Forall P d.

(** ** For: one attempt of a sub-batch *)

(** The part of [processBatch] that talks to the outside: the multi-get,
    the [changes] callbacks and the bulk write.  Its result is the
    regrouped answer of the bulk write. *)
Definition attempt (batch : list Row) : M (list (list WriteResult)) :=
  let* extraDocs := fetchExtraDocs batch in
  runChanges batch extraDocs.

(** The recursive call as [processErrors] receives it. *)
Definition again (more : nat) : list Row → nat → M unit :=
  match more with
  | 0 => λ _ _, diverge
  | S more' => processBatch more'
  end.

(** [success = batch.length - newBatch.length] *)
Definition successes (batch newBatch : list Row) : Z :=
  (Z.of_nat (length batch) - Z.of_nat (length newBatch))%Z.

(** The state and the progress event after [processErrors] has counted
    [n] successes. *)
Definition settle (n : Z) (w : World) : World :=
  set_realcurrent (realcurrent w + n) w.
Definition tickOf (n : Z) (w : World) : Event :=
  EvTick n (realcurrent w + n) (batchno w).

Definition conflictFailures (rows : list Row) : list Event :=
  (λ row, EvFailure row "Conflict") <$> rows.

(** ** For: termination of the inner loops *)

(** [total m]: [m] finishes from every state. *)
Definition total {A} (m : M A) : Prop := ∀ w, is_Some (m w).

(** Every call of a callback is answered: the callback calls back, with
    an error or with a result.  A callback that [wrapAsync] wraps always
    does; one that declares the completion argument does so by the
    convention of that style. *)
Definition callbacks_answer : Prop :=
  (∀ row docs s, is_Some (changesReply row docs s)) ∧
  (∀ f row s, options_fetchKeys options = Some f → is_Some (fetchKeysReply f row s)).

(** ** For: what an attempt emits *)

Definition isFetchKeys (ev : Event) : Prop :=
  match ev with EvFetchKeys _ _ => True | _ => False end.

(** ** For: errors of the store and of the callbacks *)

(** The error a call to the store or to a callback answered. *)
Definition failed (ev : Event) : option Err :=
  match ev with
  | EvView _ _ _ f | EvFetchKeys _ f | EvFetch _ f | EvChanges _ _ f
  | EvBulk _ f => f
  | _ => None
  end.

Definition isComplete (ev : Event) : Prop :=
  match ev with EvComplete _ => True | _ => False end.

(** An event that is neither a failed call nor the call of [complete]. *)
Definition calm (ev : Event) : Prop := failed ev = None ∧ ¬ isComplete ev.

Definition quiet (d : list Event) : Prop := Forall calm d.

(** [d] ends with the first failed call, which answered [e]. *)
Definition fatal_at (e : Err) (d : list Event) : Prop :=
  ∃ d' ev, d = d' ++ [ev] ∧ quiet d' ∧ failed ev = Some e.

(** A result [inl e] is the error of the last call made, and no call
    before it failed. *)
Definition sound {A} (m : M A) : Prop :=
  ∀ w r w' d, m w = Some (r, w', d) →
    match r with
    | inr _ => quiet d
    | inl e => fatal_at e d
    end.

(** ** For: the row filter *)

Definition isFailure (ev : Event) : Prop :=
  match ev with EvFailure _ _ => True | _ => False end.

(** What the batch handler does with the page that the filter leaves:
    the budget, the early exit on an empty page, and the loop over the
    sub-batches. *)
Definition afterFilter (rows : list Row) : M Signal :=
  let* rows := applyLimit rows in
  if bool_decide (length rows = 0) then ret Next
  else
    tick 0 >>
    finish (whilst (length rows) rows 0).

(** The rows of a page that a budget lets through. *)
Definition within (budget : option Z) (rows : list Row) : list Row :=
  match budget with
  | None => rows
  | Some l => take (Z.to_nat l) rows
  end.

(** ** For: the batch handler and the scanner under errors *)

(** The trace of a migration that has called [complete]: either nothing
    failed, or the first failed call is the last call before
    [complete(error)]. *)
Definition completed (d : list Event) : Prop :=
  (∃ d0, d = d0 ++ [EvComplete None] ∧ quiet d0) ∨
  (∃ d0 e, d = d0 ++ [EvComplete (Some e)] ∧ fatal_at e d0).

Definition handler_sound (h : M Signal) : Prop :=
  ∀ w r w' d, h w = Some (r, w', d) →
    match r with
    | inr Next => quiet d
    | inr Halt => completed d
    | inl e => fatal_at e d
    end.

(** One round of the scanner that goes on to the next page: the request
    is answered without an error, the batch handler calls
    [nextBatch()], and there is a lookahead row to take the cursor
    from. *)
Definition round (d0 : Db) (ddoc view : string) (size : nat)
    (handler : list Row → M Signal) (w w3 : World) (d : list Event) : Prop :=
  ∃ rows s1 w2 d2 next,
    db_view d0 ddoc view (query w) (ext w) = (inr rows, s1) ∧
    handler (take size rows) (set_ext s1 w) = Some (inr Next, w2, d2) ∧
    rows !! size = Some next ∧
    w3 = set_query (advance next (query w2)) w2 ∧
    d = EvView ddoc view (query w) None :: EvPage (take size rows) :: d2.

(** [n] such rounds in a row, from [w] to [w'], with their events. *)
Inductive rounds (d0 : Db) (ddoc view : string) (size : nat)
    (handler : list Row → M Signal)
  : nat → World → World → list Event → Prop :=
| rounds_O w : rounds d0 ddoc view size handler 0 w w []
| rounds_S n w w1 w2 d1 d2 :
    round d0 ddoc view size handler w w1 d1 →
    rounds d0 ddoc view size handler n w1 w2 d2 →
    rounds d0 ddoc view size handler (S n) w w2 (d1 ++ d2).

(** ** For: enrichment *)

(** [unflatten(_.map(body.rows, 'doc'), _.map(extraKeys, 'length'))] *)
Definition regroupDocs (docs : list (option Doc)) (batch : list Row)
  : list (list (option Doc)) :=
  unflatten docs ((λ ks, Some (length ks)) <$> (extraKeys <$> batch)).

(** An event of a pipeline that does no enrichment: no multi-get, and
    [changes] receives [undefined] for its documents. *)
Definition unenriched (ev : Event) : Prop :=
  match ev with
  | EvFetch _ _ => False
  | EvChanges _ docs _ => docs = None
  | _ => True
  end.

Definition noKeys (batch : list Row) : Prop :=
  Forall (λ row, extraKeys row = []) batch.

(** ** For: the attempts of a sub-batch *)

(** An attempt touches the outside world only. *)
Definition ext_only {A} (m : M A) : Prop :=
  ∀ w r w' d, m w = Some (r, w', d) → w' = set_ext (ext w') w.

(** The projections of a trace the claims are about. *)
Definition ticks (d : list Event) : list Z :=
  omap (λ ev, match ev with EvTick n _ _ => Some n | _ => None end) d.
Definition failures (d : list Event) : list Row :=
  omap (λ ev, match ev with EvFailure row _ => Some row | _ => None end) d.
Definition bulks (d : list Event) : list (list Doc) :=
  omap (λ ev, match ev with EvBulk docs _ => Some docs | _ => None end) d.

Definition isOutsideCall (ev : Event) : Prop :=
  match ev with
  | EvFetch _ _ | EvChanges _ _ _ | EvBulk _ _ => True
  | _ => False
  end.

(** The history of a sub-batch: for each attempt that got its bulk answer,
    the rows it was made for and the rows that conflicted in it. *)
Fixpoint attempts (more : nat) (batch : list Row) (retry : nat) (w : World)
  : list (list Row * list Row) :=
  match attempt batch w with
  | Some (inr results, w1, _) =>
      let newBatch := conflicting batch results in
      (batch, newBatch) ::
      (if bool_decide (newBatch = []) then []
       else if bool_decide (retries ≤ retry) then []
       else match more with
            | 0 => []
            | S more' =>
                attempts more' newBatch (S retry)
                         (settle (successes batch newBatch) w1)
            end)
  | _ => []
  end.

Definition total_ticks (d : list Event) : Z := foldr Z.add 0%Z (ticks d).

(** ** For: regrouping by counts *)

(** The number of document changes of a row. *)
Definition changeCount (c : ChangesResult) : nat := length (flattenChange c).

Definition isArrayOrNone (c : ChangesResult) : Prop :=
  match c with ChOne _ => False | _ => True end.

(** The sub-batches that entered the pipeline. *)
Definition subBatches (d : list Event) : list (list Row) :=
  omap (λ ev, match ev with EvSubBatch batch => Some batch | _ => None end) d.

(** ** For: rows that conflict on every attempt *)

(** Every successful answer of the [changes] callback is a list of
    changes or nothing, not a single change that stands by itself. *)
Definition changes_are_lists : Prop :=
  ∀ row docs s c s', changesReply row docs s = Some (inr c, s') → isArrayOrNone c.

(** The store answers a bulk write with one result per document, in
    the order of the documents, and with a conflict for every document
    in [doomed]. *)
Definition always_conflict (doomed : Doc → Prop) : Prop :=
  ∀ docs s results s',
    db_bulk db docs s = (inr results, s') →
    Forall2 (λ doc r, doomed doc → wr_error r = Some "conflict") docs results.

(** Whatever documents it is given, the [changes] callback asks for a
    write of a document in [doomed] for [row]. *)
Definition always_writes (doomed : Doc → Prop) (row : Row) : Prop :=
  ∀ docs s c s', changesReply row docs s = Some (inr c, s') →
                 ∃ doc, doc ∈ flattenChange c ∧ doomed doc.

(** The number of attempts a sub-batch is given: one for the literal
    [false], three when the option is absent or the number [0], and one
    more than the option when it is a positive number. *)
Definition attemptsAllowed (rc : RetryConflicts) : nat :=
  match rc with
  | RcFalse => 1
  | RcUndefined => 3
  | RcNum 0 => 3
  | RcNum (S n) => S n + 1
  end.

(** ** For: scanning a view *)

(** The queries sent to the store and the pages handed to the batch
    handler. *)
Definition views (d : list Event) : list Params :=
  omap (λ ev, match ev with EvView _ _ p _ => Some p | _ => None end) d.
Definition pages (d : list Event) : list (list Row) :=
  omap (λ ev, match ev with EvPage rows => Some rows | _ => None end) d.

(** [⌈n / p⌉] *)
Definition ceil_div (n p : nat) : nat := (n + p - 1) / p.

(** The queries a scan of the rows [V] in pages of [size] goes through,
    from the query [p0], with the position in [V] each one stands for:
    the first query is [p0] with its limit set, and the next one is set
    from the row that follows the page. *)
Inductive cursor (p0 : Params) (V : list Row) (size : nat) : Params → nat → Prop :=
| cursor_start : cursor p0 V size (with_limit (size + 1) p0) 0
| cursor_next p i next :
    cursor p0 V size p i →
    V !! (i + size) = Some next →
    cursor p0 V size (advance next p) (i + size).

(** The store serves [V] by keyset pagination: a query of the scan is
    answered, in any state, with the rows of [V] from its position on, as
    many as the limit allows. *)
Definition serves (d : Db) (ddoc view : string) (p0 : Params) (V : list Row)
    (size : nat) : Prop :=
  ∀ p i s, cursor p0 V size p i →
           (db_view d ddoc view p s).1 = inr (take (size + 1) (drop i V)).

(** A batch handler that always calls [nextBatch()] and leaves the scan
    alone. *)
Definition passive (handler : list Row → M Signal) : Prop :=
  ∀ rows w, ∃ w' d, handler rows w = Some (inr Next, w', d) ∧
                    query w' = query w ∧ views d = [] ∧ pages d = [].

(** ** For: the row budget *)

(** A computation that leaves the query and the budget alone. *)
Definition keeps_scan {A} (m : M A) : Prop :=
  ∀ w r w' d, m w = Some (r, w', d) → query w' = query w ∧ limit w' = limit w.

(** The store and the callbacks of the pipeline never answer an error. *)
Definition answers_ok {A} (f : Answer A) : Prop := ∀ s, ∃ a, (f s).1 = inr a.

Definition replies_ok {A} (f : Ext → option ((Err + A) * Ext)) : Prop :=
  ∀ s, ∃ a s', f s = Some (inr a, s').

Definition reliable : Prop :=
  (∀ keys, answers_ok (db_fetch db keys)) ∧
  (∀ docs, answers_ok (db_bulk db docs)) ∧
  (∀ row docs, replies_ok (changesReply row docs)) ∧
  (∀ f row, options_fetchKeys options = Some f → replies_ok (fetchKeysReply f row)).

(** The events of a pipeline in which nothing fails. *)
Definition pipelineEvent (ev : Event) : Prop :=
  match ev with
  | EvFetchKeys _ None | EvFetch _ None | EvChanges _ _ None | EvBulk _ None
  | EvTick _ _ _ | EvFailure _ _ => True
  | _ => False
  end.

(** The events of a page in which nothing fails: sub-batches entering the
    pipeline and the events of the pipeline. *)
Definition pageEvent (ev : Event) : Prop :=
  match ev with
  | EvSubBatch _ => True
  | _ => pipelineEvent ev
  end.

(** A filter whose verdict does not depend on the state of the outside
    world: [keep row] says whether [sourceFilter] accepts the row (a
    filter that throws rejects it). *)
Definition filter_is (keep : Row → bool) : Prop :=
  match options_sourceFilter options with
  | None => ∀ row, keep row = true
  | Some f => ∀ row s, keep row = match (f row s).1 with
                                  | inr b => b
                                  | inl _ => false
                                  end
  end.

Definition isScan (ev : Event) : Prop :=
  match ev with EvView _ _ _ _ | EvPage _ => True | _ => False end.

(** The trace of one round of the scanner whose handler emits [d] and is
    followed by [rest]. *)
Lemma round_trace ddoc view p f page d rest :
  views d = [] → pages d = [] →
  let tr := EvView ddoc view p f :: EvPage page :: d ++ rest in
  subBatches tr = subBatches d ++ subBatches rest ∧
  views tr = p :: views rest ∧
  pages tr = page :: pages rest.
Proof.
  intros Hv Hp. cbn. unfold views, pages, subBatches in *.
  by rewrite !omap_app, Hv, Hp.
Qed.

(** The budget [l] is used up by the last of the pages [pgs], and not
    before it. *)
Definition used_up_on_last (keep : Row → bool) (l : nat) (pgs : list (list Row))
  : Prop :=
  ∃ before page, pgs = before ++ [page] ∧
    length (List.filter keep (concat before)) < l ∧
    l ≤ length (List.filter keep (concat before ++ page)).

(** ** For: the calls of a sub-batch *)

Definition isSubBatch (ev : Event) : Prop :=
  match ev with EvSubBatch _ => True | _ => False end.

(** The calls of [changes] and of [fetchKeys], with their arguments. *)
Definition changesCalls (d : list Event) : list (Row * DocGroup) :=
  omap (λ ev, match ev with
              | EvChanges row docs _ => Some (row, docs)
              | _ => None
              end) d.
Definition keyCalls (d : list Event) : list Row :=
  omap (λ ev, match ev with EvFetchKeys row _ => Some row | _ => None end) d.

(** The arguments [runChanges] calls [changes] with, row by row:
    [batch[i]] and [extraDocs[i]]. *)
Fixpoint changesArgsFrom (extraDocs : list (list (option Doc))) (i : nat)
    (batch : list Row) : list (Row * DocGroup) :=
  match batch with
  | [] => []
  | row :: rest => (row, extraDocs !! i) :: changesArgsFrom extraDocs (S i) rest
  end.
Definition changesArgs (extraDocs : list (list (option Doc))) (batch : list Row)
  : list (Row * DocGroup) :=
  changesArgsFrom extraDocs 0 batch.

(** No write of the regrouped bulk answer is a conflict. *)
Definition noConflict (results : list (list WriteResult)) : Prop :=
  Forall (Forall (λ x, wr_error x ≠ Some "conflict")) results.

(** A [changes] callback that never asks for a write: it answers nothing
    or an empty array. *)
Definition changes_nothing : Prop :=
  ∀ row docs s, ∃ c s', changesReply row docs s = Some (inr c, s') ∧
                        flattenChange c = [] ∧ isArrayOrNone c.

(** ** For: the scanner over any store *)

(** The requests and the pages of a trace, in order. *)
Definition scanEvents (d : list Event) : list Event :=
  omap (λ ev, match ev with
              | EvView _ _ _ _ | EvPage _ => Some ev
              | _ => None
              end) d.

(** Requests that were answered without an error, each one followed by
    the page that was cut from its answer. *)
Definition served (ddoc view : string) (pps : list (Params * list Row)) : list Event :=
  concat ((λ pp, [EvView ddoc view pp.1 None; EvPage pp.2]) <$> pps).

(** A batch handler that leaves the query alone and does not scan
    itself. *)
Definition keeps_query (handler : list Row → M Signal) : Prop :=
  ∀ rows w r w' d, handler rows w = Some (r, w', d) →
    query w' = query w ∧ views d = [] ∧ pages d = [].

(** * Properties *)

(** ** Reasoning about the monad *)

Lemma bind_inv {A B} (m : M A) (k : A → M B) w r w' d :
  bind m k w = Some (r, w', d) →
  (∃ e, r = inl e ∧ m w = Some (inl e, w', d)) ∨
  (∃ a w1 d1 d2, m w = Some (inr a, w1, d1) ∧
                 k a w1 = Some (r, w', d2) ∧ d = d1 ++ d2).
Proof.
  unfold bind. destruct (m w) as [[[[e|a] w1] d1]|]; [| |done].
  - intros [= <- <- <-]. left. eauto.
  - destruct (k a w1) as [[[r2 w2] d2]|] eqn:Hk; [|done].
    intros [= <- <- <-]. right. by exists a, w1, d1, d2.
Qed.

Lemma bind_ok {A B} (m : M A) (k : A → M B) w a w1 d1 :
  m w = Some (inr a, w1, d1) →
  bind m k w = match k a w1 with
               | None => None
               | Some (r, w2, d2) => Some (r, w2, d1 ++ d2)
               end.
Proof. unfold bind. by intros ->. Qed.

Lemma bind_err {A B} (m : M A) (k : A → M B) w e w1 d1 :
  m w = Some (inl e, w1, d1) → bind m k w = Some (inl e, w1, d1).
Proof. unfold bind. by intros ->. Qed.

Lemma bind_none {A B} (m : M A) (k : A → M B) w :
  bind m k w = None →
  m w = None ∨ ∃ a w1 d1, m w = Some (inr a, w1, d1) ∧ k a w1 = None.
Proof.
  unfold bind. destruct (m w) as [[[[e|a] w1] d1]|]; [done| |by left].
  destruct (k a w1) as [[[r2 w2] d2]|] eqn:Hk; [done|]. right. eauto.
Qed.

Lemma bind_assoc {A B C} (m : M A) (k : A → M B) (h : B → M C) w :
  bind (bind m k) h w = bind m (λ a, bind (k a) h) w.
Proof.
  unfold bind. destruct (m w) as [[[[e|a] w1] d1]|]; [done| |done].
  destruct (k a w1) as [[[[e|b] w2] d2]|]; [done| |done].
  destruct (h b w2) as [[[r w3] d3]|]; [|done].
  by rewrite (assoc_L (++)).
Qed.

Lemma invoke_inv {A} (f : Ext → option ((Err + A) * Ext)) ev w r w' d :
  invoke f ev w = Some (r, w', d) →
  ∃ s, f (ext w) = Some (r, s) ∧ w' = set_ext s w ∧ d = [ev (failure_of r)].
Proof.
  unfold invoke. destruct (f (ext w)) as [[r0 s]|]; [|done].
  intros [= <- <- <-]. by exists s.
Qed.

Lemma forEach_reportFailure (e : Err) (rows : list Row) w :
  forEach (λ row, reportFailure row e) rows w
  = Some (inr tt, w, (λ row, EvFailure row e) <$> rows).
Proof.
  induction rows as [|row rows IH]; [done|].
  cbn [forEach]. unfold bind at 1. cbn. by rewrite IH.
Qed.

(** ** Events of a computation *)

Lemma emits_ret {A} P (a : A) : emits P (ret a).
Proof. intros w r w' d [= <- <- <-]. constructor. Qed.

Lemma emits_update P f : emits P (update f).
Proof. intros w r w' d [= <- <- <-]. constructor. Qed.

Lemma emits_log P e : P e → emits P (log e).
Proof. intros He w r w' d [= <- <- <-]. by repeat constructor. Qed.

Lemma emits_tick P n : (∀ a b, P (EvTick n a b)) → emits P (tick n).
Proof. intros He w r w' d [= <- <- <-]. by repeat constructor. Qed.

Lemma emits_call {A} P (f : Answer A) ev : (∀ x, P (ev x)) → emits P (call f ev).
Proof. intros He w r w' d [= <- <- <-]. by repeat constructor. Qed.

Lemma emits_invoke {A} P (f : Ext → option ((Err + A) * Ext)) ev :
  (∀ x, P (ev x)) → emits P (invoke f ev).
Proof. intros HP w r w' d (s & _ & _ & ->)%invoke_inv. by repeat constructor. Qed.

Lemma emits_bind {A B} P (m : M A) (k : A → M B) :
  emits P m → (∀ a, emits P (k a)) → emits P (bind m k).
Proof.
  intros Hm Hk w r w' d [(e & -> & H)|(a & w1 & d1 & d2 & H1 & H2 & ->)]%bind_inv.
  - eauto.
  - apply Forall_app. split; [by eapply Hm|by eapply Hk].
Qed.

Lemma emits_mapSeries {A B} P (fn : A → M B) arr :
  (∀ a, emits P (fn a)) → emits P (mapSeries fn arr).
Proof.
  intros Hfn. induction arr as [|a arr IH]; cbn [mapSeries].
  - apply emits_ret.
  - apply emits_bind; [done|]. intros b.
    apply emits_bind; [done|]. intros bs. apply emits_ret.
Qed.

Lemma emits_timesSeries {B} P (fn : nat → Row → M B) i batch :
  (∀ j row, emits P (fn j row)) → emits P (timesSeries fn i batch).
Proof.
  intros Hfn. revert i. induction batch as [|a arr IH]; intros i; cbn [timesSeries].
  - apply emits_ret.
  - apply emits_bind; [done|]. intros b.
    apply emits_bind; [done|]. intros bs. apply emits_ret.
Qed.

Lemma emits_impl {A} (P Q : Event → Prop) (m : M A) :
  (∀ ev, P ev → Q ev) → emits P m → emits Q m.
Proof.
  intros HPQ Hm w r w' d H. specialize (Hm _ _ _ _ H).
  eapply List.Forall_impl; eauto.
Qed.

(** ** One attempt of a sub-batch *)

Lemma processBatch_eq more batch retry w :
  processBatch more batch retry w
  = bind (attempt batch) (processErrors (again more) batch retry) w.
Proof. destruct more; cbn [processBatch]; unfold attempt; by rewrite bind_assoc. Qed.

Lemma processErrors_eq k batch retry results w :
  processErrors k batch retry results w =
    let newBatch := conflicting batch results in
    let n := successes batch newBatch in
    if bool_decide (newBatch = []) then Some (inr tt, settle n w, [tickOf n w])
    else if bool_decide (retries ≤ retry)
    then Some (inr tt, settle n w, tickOf n w :: conflictFailures newBatch)
    else match k newBatch (S retry) (settle n w) with
         | None => None
         | Some (r, w2, d2) => Some (r, w2, tickOf n w :: d2)
         end.
Proof.
  unfold processErrors, bind, update, tick, log; cbn.
  fold (successes batch (conflicting batch results)).
  set (n := successes _ _). fold (settle n w).
  repeat case_bool_decide; try done.
  - by rewrite forEach_reportFailure.
  - by destruct (k _ _ _) as [[[??]?]|].
Qed.

Lemma conflicting_sublist batch results : conflicting batch results `sublist_of` batch.
Proof.
  revert batch. induction results as [|r results IH]; intros [|row batch]; cbn;
    try apply sublist_nil_l.
  destruct (hasConflict r); [by apply sublist_skip|by apply sublist_cons].
Qed.

Lemma conflicting_length batch results :
  length (conflicting batch results) ≤ length batch.
Proof. apply sublist_length, conflicting_sublist. Qed.

(** ** Termination of the inner loops *)

Lemma total_ret {A} (a : A) : total (ret a).
Proof. intros w. by eexists. Qed.

Lemma total_update f : total (update f).
Proof. intros w. by eexists. Qed.

Lemma total_log e : total (log e).
Proof. intros w. by eexists. Qed.

Lemma total_tick n : total (tick n).
Proof. intros w. by eexists. Qed.

Lemma total_call {A} (f : Answer A) ev : total (call f ev).
Proof. intros w. by eexists. Qed.

Lemma total_invoke {A} (f : Ext → option ((Err + A) * Ext)) ev :
  (∀ s, is_Some (f s)) → total (invoke f ev).
Proof.
  intros Hf w. unfold invoke. destruct (Hf (ext w)) as [[r s] ->]. by eexists.
Qed.

Lemma total_bind {A B} (m : M A) (k : A → M B) :
  total m → (∀ a, total (k a)) → total (bind m k).
Proof.
  intros Hm Hk w. unfold bind.
  destruct (Hm w) as [[[[e|a] w1] d1] ->]; [by eexists|].
  destruct (Hk a w1) as [[[r w2] d2] ->]. by eexists.
Qed.

Lemma total_mapSeries {A B} (fn : A → M B) arr :
  (∀ a, total (fn a)) → total (mapSeries fn arr).
Proof.
  intros Hfn. induction arr as [|a arr IH]; cbn [mapSeries]; [apply total_ret|].
  apply total_bind; [done|]. intros b.
  apply total_bind; [done|]. intros bs. apply total_ret.
Qed.

Lemma total_timesSeries {B} (fn : nat → Row → M B) i batch :
  (∀ j row, total (fn j row)) → total (timesSeries fn i batch).
Proof.
  intros Hfn. revert i.
  induction batch as [|a arr IH]; intros i; cbn [timesSeries]; [apply total_ret|].
  apply total_bind; [done|]. intros b.
  apply total_bind; [done|]. intros bs. apply total_ret.
Qed.

Lemma total_fetchExtraDocs batch : total (fetchExtraDocs batch).
Proof.
  unfold fetchExtraDocs. case_bool_decide; [apply total_ret|].
  apply total_bind; [apply total_call|]. intros docs. apply total_ret.
Qed.

Lemma total_runChanges batch extraDocs :
  callbacks_answer → total (runChanges batch extraDocs).
Proof.
  intros [Hchanges _]. unfold runChanges. apply total_bind.
  - apply total_timesSeries. intros j row. apply total_invoke, Hchanges.
  - intros changes. apply total_bind; [apply total_call|].
    intros results. apply total_ret.
Qed.

Lemma total_attempt batch : callbacks_answer → total (attempt batch).
Proof.
  intros Hcb. apply total_bind; [apply total_fetchExtraDocs|].
  intros extraDocs. by apply total_runChanges.
Qed.

(** As long as the callbacks answer, [processBatch] needs no more than
    the retries that are left. *)
Lemma processBatch_total more batch retry :
  callbacks_answer →
  retries ≤ retry + more → total (processBatch more batch retry).
Proof.
  intros Hcb.
  revert batch retry. induction more as [|more IH]; intros batch retry Hle w;
    rewrite processBatch_eq.
  all: apply total_bind; [by apply total_attempt|].
  all: intros results w1; rewrite processErrors_eq; cbn zeta.
  all: repeat case_bool_decide; try by eexists.
  - lia.
  - cbn [again]. destruct (IH (conflicting batch results) (S retry)
      ltac:(lia) (settle (successes batch (conflicting batch results)) w1))
      as [[[r w2] d2] ->]. by eexists.
Qed.

Lemma total_fetchKeysFn row : callbacks_answer → total (fetchKeysFn row).
Proof.
  intros [_ Hkeys]. unfold fetchKeysFn.
  destruct (options_fetchKeys options) as [f|] eqn:Hf; [|apply total_ret].
  apply total_invoke. intros s. by apply Hkeys.
Qed.

Lemma getExtraKeyInfo_total batch : callbacks_answer → total (getExtraKeyInfo batch).
Proof.
  intros Hcb.
  unfold getExtraKeyInfo. apply total_bind; [apply total_log|]. intros _.
  apply total_bind; [apply total_mapSeries; intros row; by apply total_fetchKeysFn|].
  intros keysByRow. apply processBatch_total; [done|lia].
Qed.

Lemma batchSize_pos : 0 < batchSize.
Proof. unfold batchSize. destruct (options_batchSize options) as [[|n]|]; lia. Qed.

(** As long as the callbacks answer, [async.whilst] needs no more
    iterations than there are rows left. *)
Lemma whilst_total more rows count :
  callbacks_answer →
  length rows ≤ count + more → total (whilst more rows count).
Proof.
  intros Hcb.
  revert count. induction more as [|more IH]; intros count Hle; cbn [whilst].
  - case_bool_decide; [lia|apply total_ret].
  - case_bool_decide; [|apply total_ret].
    apply total_bind; [by apply getExtraKeyInfo_total|]. intros _.
    apply IH. pose proof batchSize_pos. lia.
Qed.

(** ** What an attempt emits *)

Lemma emits_fetchExtraDocs (P : Event → Prop) batch :
  (concat (extraKeys <$> batch) ≠ [] →
   ∀ f, P (EvFetch (concat (extraKeys <$> batch)) f)) →
  emits P (fetchExtraDocs batch).
Proof.
  intros HP. unfold fetchExtraDocs. case_bool_decide; [apply emits_ret|].
  apply emits_bind; [apply emits_call; auto|]. intros docs. apply emits_ret.
Qed.

Lemma emits_runChanges (P : Event → Prop) batch extraDocs :
  (∀ i row f, P (EvChanges row (extraDocs !! i) f)) →
  (∀ docs f, P (EvBulk docs f)) →
  emits P (runChanges batch extraDocs).
Proof.
  intros HC HB. unfold runChanges. apply emits_bind.
  - apply emits_timesSeries. intros j row. apply emits_invoke. auto.
  - intros changes. apply emits_bind; [apply emits_call; auto|].
    intros results. apply emits_ret.
Qed.

(** The events of [processBatch] are those of its attempts, progress
    ticks and conflict failures; [I] is any property of the batch that
    its sub-sequences keep. *)
Lemma emits_processBatch (P : Event → Prop) (I : list Row → Prop) :
  (∀ b b', b' `sublist_of` b → I b → I b') →
  (∀ b, I b → emits P (attempt b)) →
  (∀ n x y, P (EvTick n x y)) →
  (∀ row, P (EvFailure row "Conflict")) →
  ∀ more batch retry, I batch → emits P (processBatch more batch retry).
Proof.
  intros Hsub Hatt Htick Hfail.
  induction more as [|more IH]; intros batch retry HI w r w' d;
    rewrite processBatch_eq.
  all: intros [(e & -> & H)|(res & w1 & d1 & d2 & H1 & H2 & ->)]%bind_inv;
    [by eapply Hatt|].
  all: apply Forall_app; split; [by eapply Hatt|].
  all: rewrite processErrors_eq in H2; cbn zeta in H2.
  all: repeat case_bool_decide; simplify_eq.
  all: try (constructor; [apply Htick|]; try constructor).
  all: try (apply Forall_fmap, Forall_true; intros; apply Hfail).
  cbn [again] in H2.
  destruct (processBatch more _ _ _) as [[[r2 w2] d3]|] eqn:Hrec; simplify_eq.
  constructor; [apply Htick|]. eapply IH; [|done].
  eapply Hsub; [apply conflicting_sublist|done].
Qed.

Lemma processBatch_no_fetchKeys more batch retry :
  emits (λ ev, ¬ isFetchKeys ev) (processBatch more batch retry).
Proof.
  apply (emits_processBatch _ (λ _, True)); [done| |cbn; tauto..|done].
  intros b _. apply emits_bind.
  - apply emits_fetchExtraDocs. cbn; tauto.
  - intros extraDocs. apply emits_runChanges; cbn; tauto.
Qed.

(** ** Errors of the store and of the callbacks *)

Local Ltac calm_event := intros; split; [reflexivity|intros []].

Lemma sound_ret {A} (a : A) : sound (ret a).
Proof. intros w r w' d [= <- <- <-]. constructor. Qed.

Lemma sound_update f : sound (update f).
Proof. intros w r w' d [= <- <- <-]. constructor. Qed.

Lemma sound_log e : calm e → sound (log e).
Proof. intros He w r w' d [= <- <- <-]. constructor; [done|constructor]. Qed.

Lemma sound_tick n : sound (tick n).
Proof.
  intros w r w' d [= <- <- <-]. constructor; [|constructor]. calm_event.
Qed.

Lemma sound_call {A} (f : Answer A) ev :
  (∀ x, failed (ev x) = x ∧ ¬ isComplete (ev x)) → sound (call f ev).
Proof.
  intros Hev w r w' d [= <- <- <-].
  destruct (Hev (failure_of (f (ext w)).1)) as [Hf Hc].
  destruct (f (ext w)).1 as [e|a]; cbn in *.
  - exists [], (ev (Some e)). split; [done|]. split; [constructor|done].
  - constructor; [by split|constructor].
Qed.

Lemma sound_invoke {A} (f : Ext → option ((Err + A) * Ext)) ev :
  (∀ x, failed (ev x) = x ∧ ¬ isComplete (ev x)) → sound (invoke f ev).
Proof.
  intros Hev w r w' d (s & _ & _ & ->)%invoke_inv.
  destruct (Hev (failure_of r)) as [Hf Hc].
  destruct r as [e|a]; cbn in *.
  - exists [], (ev (Some e)). split; [done|]. split; [constructor|done].
  - constructor; [by split|constructor].
Qed.

Lemma sound_bind {A B} (m : M A) (k : A → M B) :
  sound m → (∀ a, sound (k a)) → sound (bind m k).
Proof.
  intros Hm Hk w r w' d [(e & -> & H)|(a & w1 & d1 & d2 & H1 & H2 & ->)]%bind_inv.
  - by apply (Hm _ _ _ _ H).
  - specialize (Hm _ _ _ _ H1). specialize (Hk _ _ _ _ _ H2). cbn in Hm.
    destruct r as [e|b].
    + destruct Hk as (d' & ev & -> & Hq & Hf).
      exists (d1 ++ d'), ev. rewrite (assoc_L (++)).
      split; [done|]. split; [|done]. by apply Forall_app.
    + by apply Forall_app.
Qed.

Lemma sound_mapSeries {A B} (fn : A → M B) arr :
  (∀ a, sound (fn a)) → sound (mapSeries fn arr).
Proof.
  intros Hfn. induction arr as [|a arr IH]; cbn [mapSeries]; [apply sound_ret|].
  apply sound_bind; [done|]. intros b.
  apply sound_bind; [done|]. intros bs. apply sound_ret.
Qed.

Lemma sound_timesSeries {B} (fn : nat → Row → M B) i batch :
  (∀ j row, sound (fn j row)) → sound (timesSeries fn i batch).
Proof.
  intros Hfn. revert i.
  induction batch as [|a arr IH]; intros i; cbn [timesSeries]; [apply sound_ret|].
  apply sound_bind; [done|]. intros b.
  apply sound_bind; [done|]. intros bs. apply sound_ret.
Qed.

Lemma sound_attempt batch : sound (attempt batch).
Proof.
  apply sound_bind.
  - unfold fetchExtraDocs. case_bool_decide; [apply sound_ret|].
    apply sound_bind; [apply sound_call; calm_event|].
    intros docs. apply sound_ret.
  - intros extraDocs. unfold runChanges. apply sound_bind.
    + apply sound_timesSeries. intros j row. apply sound_invoke. calm_event.
    + intros changes. apply sound_bind; [apply sound_call; calm_event|].
      intros results. apply sound_ret.
Qed.

Lemma quiet_conflictFailures rows : quiet (conflictFailures rows).
Proof. apply Forall_fmap, Forall_true. calm_event. Qed.

Lemma calm_tickOf n w : calm (tickOf n w).
Proof. calm_event. Qed.

Lemma sound_processBatch more batch retry : sound (processBatch more batch retry).
Proof.
  revert batch retry. induction more as [|more IH]; intros batch retry w r w' d;
    rewrite processBatch_eq.
  all: revert w r w' d; apply sound_bind; [apply sound_attempt|].
  all: intros results w r w' d; rewrite processErrors_eq; cbn zeta.
  all: repeat case_bool_decide; intros Hrun; simplify_eq.
  all: try (constructor; [apply calm_tickOf|];
            first [constructor|apply quiet_conflictFailures]).
  cbn [again] in Hrun.
  destruct (processBatch more _ _ _) as [[[r2 w2] d3]|] eqn:Hrec; simplify_eq.
  apply IH in Hrec. destruct r as [e|[]].
  - destruct Hrec as (d' & ev & -> & Hq & Hf).
    exists (tickOf (successes batch (conflicting batch results)) w :: d'), ev.
    split; [done|]. split; [|done]. constructor; [apply calm_tickOf|done].
  - constructor; [apply calm_tickOf|done].
Qed.

Lemma sound_getExtraKeyInfo batch : sound (getExtraKeyInfo batch).
Proof.
  unfold getExtraKeyInfo. apply sound_bind; [apply sound_log; calm_event|].
  intros _. apply sound_bind.
  - apply sound_mapSeries. intros row. unfold fetchKeysFn.
    destruct (options_fetchKeys options); [|apply sound_ret].
    apply sound_invoke. calm_event.
  - intros keysByRow. apply sound_processBatch.
Qed.

Lemma sound_whilst more rows count : sound (whilst more rows count).
Proof.
  revert count. induction more as [|more IH]; intros count; cbn [whilst];
    case_bool_decide; try apply sound_ret; [by intros ?|].
  apply sound_bind; [apply sound_getExtraKeyInfo|]. intros _. apply IH.
Qed.

(** ** The row filter *)

Lemma keepRow_eq f row w :
  keepRow f row w =
    Some (inr (match (f row (ext w)).1 with inr b => b | inl _ => false end),
          set_ext (f row (ext w)).2 w,
          match (f row (ext w)).1 with inl e => [EvFailure row e] | inr _ => [] end).
Proof. unfold keepRow. by destruct (f row (ext w)).1. Qed.

(** The filter never fails: it keeps a sub-sequence of the page and
    emits nothing but the failures it reports. *)
Lemma filterRows_ok f rows w :
  ∃ kept w' d, filterRows f rows w = Some (inr kept, w', d) ∧
               kept `sublist_of` rows ∧ Forall isFailure d.
Proof.
  revert w. induction rows as [|row rows IH]; intros w; cbn [filterRows].
  - exists [], w, []. by repeat split.
  - unfold bind at 1. rewrite keepRow_eq.
    destruct (IH (set_ext (f row (ext w)).2 w)) as (kept & w' & d & Hrec & Hsub & Hd).
    unfold bind at 1. rewrite Hrec. cbn.
    eexists _, _, _. split; [done|]. split.
    + destruct (f row (ext w)).1 as [e|[|]];
        [by apply sublist_cons|by apply sublist_skip|by apply sublist_cons].
    + apply Forall_app. split; [|by rewrite (right_id_L [] (++))].
      destruct (f row (ext w)).1; by repeat constructor.
Qed.

Lemma filterRows_app f pre post w kept1 w1 d1 :
  filterRows f pre w = Some (inr kept1, w1, d1) →
  filterRows f (pre ++ post) w =
    match filterRows f post w1 with
    | Some (inr kept2, w2, d2) => Some (inr (kept1 ++ kept2), w2, d1 ++ d2)
    | other => other
    end.
Proof.
  revert w kept1 d1. induction pre as [|row pre IH]; intros w kept1 d1; cbn [filterRows app].
  - intros [= <- <- <-]. by destruct (filterRows f post w) as [[[[?|?]?]?]|].
  - rewrite !(bind_ok _ _ _ _ _ _ (keepRow_eq f row w)).
    destruct (filterRows_ok f pre (set_ext (f row (ext w)).2 w))
      as (kept & w' & d & Hrec & _ & _).
    rewrite !(bind_ok _ _ _ _ _ _ Hrec).
    cbn. intros [= <- <- <-]. unfold bind. rewrite (IH _ _ _ Hrec).
    destruct (filterRows_ok f post w') as (kept2 & w2 & d2 & -> & _ & _). cbn.
    rewrite !(right_id_L [] (++)), !(assoc_L (++)).
    by destruct (f row (ext w)).1 as [e|[|]].
Qed.

Lemma quiet_failures d : Forall isFailure d → quiet d.
Proof.
  apply List.Forall_impl. intros [] []. calm_event.
Qed.

(** ** The batch handler and the scanner under errors *)

Lemma fatal_at_prefix e d1 d2 : quiet d1 → fatal_at e d2 → fatal_at e (d1 ++ d2).
Proof.
  intros H1 (d' & ev & -> & Hq & Hf). exists (d1 ++ d'), ev.
  rewrite (assoc_L (++)). split; [done|]. split; [by apply Forall_app|done].
Qed.

Lemma completed_prefix d1 d2 : quiet d1 → completed d2 → completed (d1 ++ d2).
Proof.
  intros H1 [(d0 & -> & Hq)|(d0 & e & -> & Hf)]; rewrite (assoc_L (++)).
  - left. exists (d1 ++ d0). split; [done|by apply Forall_app].
  - right. exists (d1 ++ d0), e. split; [done|by apply fatal_at_prefix].
Qed.

Lemma handler_sound_bind {A} (m : M A) (k : A → M Signal) :
  sound m → (∀ a, handler_sound (k a)) → handler_sound (bind m k).
Proof.
  intros Hm Hk w r w' d [(e & -> & H)|(a & w1 & d1 & d2 & H1 & H2 & ->)]%bind_inv.
  - by apply (Hm _ _ _ _ H).
  - specialize (Hm _ _ _ _ H1). specialize (Hk _ _ _ _ _ H2). cbn in Hm.
    destruct r as [e|[|]];
      [by apply fatal_at_prefix|by apply Forall_app|by apply completed_prefix].
Qed.

Lemma sound_filterRows f rows : sound (filterRows f rows).
Proof.
  intros w r w' d H.
  destruct (filterRows_ok f rows w) as (kept & w2 & d2 & Hk & _ & Hd).
  rewrite Hk in H. simplify_eq. by apply quiet_failures.
Qed.

Lemma sound_applyLimit rows : sound (applyLimit rows).
Proof.
  intros w r w' d. unfold applyLimit.
  destruct (limit w) as [l|]; [destruct (_ <? 0)%Z|];
    intros [= <- <- <-]; constructor.
Qed.

Lemma handler_sound_finish loop : sound loop → handler_sound (finish loop).
Proof.
  intros Hloop w r w' d. unfold finish.
  destruct (loop w) as [[[r1 w1] d1]|] eqn:Hrun; [|done].
  apply Hloop in Hrun. case_bool_decide.
  - intros [= <- <- <-]. destruct r1 as [e|[]]; cbn.
    + right. by exists d1, e.
    + left. by exists d1.
  - destruct r1 as [e|[]]; by intros [= <- <- <-].
Qed.

Lemma handler_sound_batchHandler rows : handler_sound (batchHandler rows).
Proof.
  unfold batchHandler.
  apply handler_sound_bind; [apply sound_update|]. intros _.
  apply handler_sound_bind.
  { destruct (options_sourceFilter options);
      [apply sound_filterRows|apply sound_ret]. }
  intros rows1. apply handler_sound_bind; [apply sound_applyLimit|].
  intros rows2. case_bool_decide.
  - intros w r w' d [= <- <- <-]. constructor.
  - apply handler_sound_bind; [apply sound_tick|]. intros _.
    apply handler_sound_finish, sound_whilst.
Qed.

Lemma handler_sound_nextBatch fuel d0 ddoc view size handler :
  (∀ rows, handler_sound (handler rows)) →
  handler_sound (nextBatch fuel d0 ddoc view size handler).
Proof.
  intros Hh. induction fuel as [|fuel IH]; [by intros w r w' d|].
  intros w. cbn [nextBatch]. revert w.
  assert (∀ p, handler_sound
    (let* rows := call (db_view d0 ddoc view p) (EvView ddoc view p) in
     log (EvPage (take size rows)) >>
     let* signal := handler (take size rows) in
     match signal with
     | Halt => ret Halt
     | Next =>
         match rows !! size with
         | Some next =>
             update (λ w, set_query (advance next (query w)) w) >>
             nextBatch fuel d0 ddoc view size handler
         | None => ret Next
         end
     end)) as Hbody; [|intros w; apply Hbody].
  intros p. apply handler_sound_bind; [apply sound_call; calm_event|].
  intros rows. apply handler_sound_bind; [apply sound_log; calm_event|].
  intros _ w r w' d [(e & -> & H)|(a & w1 & d1 & d2 & H1 & H2 & ->)]%bind_inv.
  - by apply (Hh _ _ _ _ _ H).
  - apply Hh in H1. destruct a.
    + destruct (rows !! size) as [next|].
      * assert (handler_sound (update (λ w, set_query (advance next (query w)) w) >>
                               nextBatch fuel d0 ddoc view size handler)) as Hrest.
        { apply handler_sound_bind; [apply sound_update|done]. }
        apply Hrest in H2.
        destruct r as [e|[|]];
          [by apply fatal_at_prefix|by apply Forall_app|by apply completed_prefix].
      * injection H2 as <- <- <-. by rewrite (right_id_L [] (++)).
    + injection H2 as <- <- <-. by rewrite (right_id_L [] (++)).
Qed.

Lemma run_completed fuel w w' d : run fuel w = Some (w', d) → completed d.
Proof.
  unfold run, getViewInBatches.
  destruct (bind _ _ w) as [[[r w1] d1]|] eqn:Hrun; [|done].
  assert (handler_sound
    (update (λ w, set_query (with_limit (1000 + 1) (query w)) w) >>
     nextBatch fuel db (sourceDesignDoc options) (sourceView options) 1000
               batchHandler)) as Hs.
  { apply handler_sound_bind; [apply sound_update|]. intros _.
    apply handler_sound_nextBatch, handler_sound_batchHandler. }
  apply Hs in Hrun. destruct r as [e|[|]]; intros [= <- <-].
  - right. by exists d1, e.
  - left. by exists d1.
  - done.
Qed.

Lemma split_at_first {A} (P : A → Prop) (l1 l2 l1' l2' : list A) x x' :
  l1 ++ x :: l2 = l1' ++ x' :: l2' →
  P x → Forall (λ y, ¬ P y) l1' → Forall (λ y, ¬ P y) l2' →
  l1 = l1' ∧ x = x' ∧ l2 = l2'.
Proof.
  revert l1'. induction l1 as [|a l1 IH]; intros [|a' l1']; cbn.
  - by intros [= -> ->].
  - intros [= <- _] Hx Hl1' _. by apply Forall_cons_1 in Hl1' as [? _].
  - intros [= -> <-] Hx _ Hl2'.
    apply Forall_app in Hl2' as [_ Hl2']. by apply Forall_cons_1 in Hl2' as [? _].
  - intros [= -> Heq] Hx Hl1' Hl2'. apply Forall_cons_1 in Hl1' as [_ Hl1'].
    destruct (IH _ Heq Hx Hl1' Hl2') as (-> & -> & ->). done.
Qed.

Lemma quiet_not_failed d : quiet d → Forall (λ ev, ¬ is_Some (failed ev)) d.
Proof. apply List.Forall_impl. intros ev [-> _] [? [=]]. Qed.

Lemma batchHandler_total rows : callbacks_answer → total (batchHandler rows).
Proof.
  intros Hcb. unfold batchHandler. apply total_bind; [apply total_update|]. intros _.
  apply total_bind.
  { destruct (options_sourceFilter options) as [f|]; [|apply total_ret].
    intros w. destruct (filterRows_ok f rows w) as (kept & w' & d & -> & _).
    by eexists. }
  intros rows1. apply total_bind.
  { intros w. unfold applyLimit.
    destruct (limit w); [destruct (_ <? _)%Z|]; by eexists. }
  intros rows2. case_bool_decide; [apply total_ret|].
  apply total_bind; [apply total_tick|]. intros _ w. unfold finish.
  destruct (whilst_total (length rows2) rows2 0 Hcb ltac:(lia) w)
    as [[[r w1] d1] ->].
  case_bool_decide; [by eexists|]. destruct r; by eexists.
Qed.

(** A scan that has not ended when its fuel is used up has gone through
    as many rounds as it had fuel, and no call failed in them. *)
Lemma nextBatch_unfinished d0 ddoc view size handler :
  (∀ rows, total (handler rows)) →
  (∀ rows, handler_sound (handler rows)) →
  ∀ fuel w,
    nextBatch fuel d0 ddoc view size handler w = None →
    ∃ wn d, rounds d0 ddoc view size handler fuel w wn d ∧ quiet d.
Proof.
  intros Htotal Hsound. induction fuel as [|fuel IH]; intros w.
  { intros _. exists w, []. split; constructor. }
  cbn [nextBatch]. unfold bind at 1. unfold call at 1. cbn zeta.
  destruct (db_view d0 ddoc view (query w) (ext w)) as [[e|rows] s1] eqn:Hview;
    cbn; [done|].
  unfold bind at 1. cbn. unfold bind at 1.
  destruct (Htotal (take size rows) (set_ext s1 w)) as [[[r w2] d2] Hh].
  rewrite Hh. pose proof (Hsound _ _ _ _ _ Hh) as Hq.
  destruct r as [e|[|]]; [done| |done].
  destruct (rows !! size) as [next|] eqn:Hnext; [|done].
  unfold update. cbn.
  destruct (nextBatch fuel d0 ddoc view size handler _) as [[[r' w'] d']|] eqn:Hrec;
    [done|].
  intros _. apply IH in Hrec as (wn & d & Hrounds & Hquiet).
  exists wn, ((EvView ddoc view (query w) None :: EvPage (take size rows) :: d2) ++ d).
  split.
  - eapply rounds_S; [|exact Hrounds]. by exists rows, s1, w2, d2, next.
  - apply Forall_app. split; [|done].
    constructor; [calm_event|]. constructor; [calm_event|]. exact Hq.
Qed.

(** A scan that goes through [n] rounds is, after them, the scan from
    the state they lead to. *)
Lemma nextBatch_rounds d0 ddoc view size handler n w wn d1 m :
  rounds d0 ddoc view size handler n w wn d1 →
  nextBatch (n + m) d0 ddoc view size handler w
  = match nextBatch m d0 ddoc view size handler wn with
    | None => None
    | Some (r, w', d2) => Some (r, w', d1 ++ d2)
    end.
Proof.
  induction 1 as [w|n w w1 wn d1 d2 (rows & s1 & w2 & d & next & Hview & Hh & Hnext
                                     & -> & ->) _ IH].
  { cbn. by destruct (nextBatch m _ _ _ _ _ w) as [[[r w'] d2]|]. }
  cbn [Nat.add nextBatch].
  assert (call (db_view d0 ddoc view (query w)) (EvView ddoc view (query w)) w
          = Some (inr rows, set_ext s1 w, [EvView ddoc view (query w) None])) as Hcall.
  { unfold call. by rewrite Hview. }
  rewrite (bind_ok _ _ _ _ _ _ Hcall).
  rewrite (bind_ok _ _ _ _ _ _
             (eq_refl : log (EvPage (take size rows)) (set_ext s1 w) = Some (inr tt, _, _))).
  rewrite (bind_ok _ _ _ _ _ _ Hh), Hnext.
  rewrite (bind_ok _ _ _ _ _ _
             (eq_refl : update (λ w, set_query (advance next (query w)) w) w2
                        = Some (inr tt, _, _))).
  rewrite IH. destruct (nextBatch m _ _ _ _ _ wn) as [[[r w'] d3]|]; [|done].
  cbn. by rewrite <-!(assoc_L (++)).
Qed.

(** The round in which a call fails is the last one: the scan ends in
    it, with the failure of the request or with what the batch handler
    made of the page. *)
Lemma nextBatch_last_round d0 ddoc view size handler fuel w :
  (∀ e s1, db_view d0 ddoc view (query w) (ext w) = (inl e, s1) →
     nextBatch (S fuel) d0 ddoc view size handler w
     = Some (inl e, set_ext s1 w, [EvView ddoc view (query w) (Some e)])) ∧
  (∀ rows s1 r w2 d2,
     db_view d0 ddoc view (query w) (ext w) = (inr rows, s1) →
     handler (take size rows) (set_ext s1 w) = Some (r, w2, d2) →
     r ≠ inr Next →
     nextBatch (S fuel) d0 ddoc view size handler w
     = Some (r, w2, EvView ddoc view (query w) None :: EvPage (take size rows) :: d2)).
Proof.
  split.
  - intros e s1 Hview. cbn [nextBatch]. unfold bind at 1. unfold call.
    by rewrite Hview.
  - intros rows s1 r w2 d2 Hview Hh Hr. cbn [nextBatch].
    assert (call (db_view d0 ddoc view (query w)) (EvView ddoc view (query w)) w
            = Some (inr rows, set_ext s1 w, [EvView ddoc view (query w) None])) as Hcall.
    { unfold call. by rewrite Hview. }
    rewrite (bind_ok _ _ _ _ _ _ Hcall).
    rewrite (bind_ok _ _ _ _ _ _
               (eq_refl : log (EvPage (take size rows)) (set_ext s1 w)
                          = Some (inr tt, _, _))).
    unfold bind. rewrite Hh. destruct r as [e|[|]]; [done|done|]. cbn.
    by rewrite (right_id_L [] (++)).
Qed.

(** C6 (as amended): an error of the store ([db.view], [db.fetch],
    [db.bulk]) or an error that the [fetchKeys] or [changes] callback
    answers (thrown by a callback that [wrapAsync] wraps, or handed to
    the completion argument) aborts the migration at once and
    [complete(error)] is called.  As long as every call of a callback
    is answered:
    - in a finished run, a call that answered an error [e] is followed
      by [complete(e)] and by nothing else (no further page, sub-batch,
      store call or callback), and no call before it had failed;
    - a run that has not finished when its fuel is used up has made as
      many requests as it had fuel, each followed by a page that was
      processed to its end and by a lookahead row, and no call failed in
      it;
    - after [k] such rounds, a run with more fuel than [k] in which the
      next request fails, or in which a call fails while the next page
      is processed, finishes in that round: its trace is the trace of
      the rounds, the request and, if it was answered, the page and what
      the batch handler did, which by the first point ends with the
      failed call and [complete(error)]. *)
Theorem fatal_error_aborts_migration fuel w :
  callbacks_answer →
  let ddoc := sourceDesignDoc options in
  let view := sourceView options in
  let start := set_query (with_limit (1000 + 1) (query w)) w in
  (∀ w' d pre ev post e,
     run fuel w = Some (w', d) →
     d = pre ++ ev :: post →
     failed ev = Some e →
     post = [EvComplete (Some e)] ∧ quiet pre) ∧
  (run fuel w = None →
   ∃ wn d, rounds db ddoc view 1000 batchHandler fuel start wn d ∧ quiet d) ∧
  (∀ k wn d1,
     rounds db ddoc view 1000 batchHandler k start wn d1 → k < fuel →
     (∀ e s1,
        db_view db ddoc view (query wn) (ext wn) = (inl e, s1) →
        run fuel w
        = Some (set_ext s1 wn,
                d1 ++ [EvView ddoc view (query wn) (Some e); EvComplete (Some e)])) ∧
     (∀ rows s1,
        db_view db ddoc view (query wn) (ext wn) = (inr rows, s1) →
        ∃ r w2 d2,
          batchHandler (take 1000 rows) (set_ext s1 wn) = Some (r, w2, d2) ∧
          ∀ ev e, ev ∈ d2 → failed ev = Some e →
            run fuel w
            = Some (w2, d1 ++ EvView ddoc view (query wn) None
                           :: EvPage (take 1000 rows)
                           :: d2 ++ match r with
                                    | inl e' => [EvComplete (Some e')]
                                    | inr _ => []
                                    end))).
Proof.
  intros Hcb ddoc view start. split; [|split].
  2:{ unfold run, getViewInBatches. unfold bind at 1. unfold update at 1. cbn.
      destruct (nextBatch _ _ _ _ _ _ _) as [[[[e|[|]] w1] d1]|] eqn:Hrun; try done.
      intros _. apply nextBatch_unfinished in Hrun; [done| |].
      - intros rows. by apply batchHandler_total.
      - apply handler_sound_batchHandler. }
  2:{ intros k wn d1 Hrounds Hk.
      assert (∀ r w' d2,
        nextBatch (S (fuel - S k)) db ddoc view 1000 batchHandler wn = Some (r, w', d2) →
        getViewInBatches fuel db ddoc view 1000 batchHandler w
        = Some (r, w', d1 ++ d2)) as Hscan.
      { intros r w' d2 Hlast. unfold getViewInBatches.
        unfold bind at 1. unfold update at 1. cbn. fold start.
        replace fuel with (k + S (fuel - S k)) at 1 by lia.
        by rewrite (nextBatch_rounds _ _ _ _ _ _ _ _ _ _ Hrounds), Hlast. }
      destruct (nextBatch_last_round db ddoc view 1000 batchHandler (fuel - S k) wn)
        as [Hview Hpage].
      split.
      - intros e s1 Hv. unfold run. fold ddoc view.
        rewrite (Hscan _ _ _ (Hview _ _ Hv)). by rewrite <-(assoc_L (++)).
      - intros rows s1 Hv.
        destruct (batchHandler_total (take 1000 rows) Hcb (set_ext s1 wn))
          as [[[r w2] d2] Hh].
        exists r, w2, d2. split; [done|]. intros ev e Hin Hev.
        pose proof (handler_sound_batchHandler _ _ _ _ _ Hh) as Hsound.
        assert (r ≠ inr Next) as Hr.
        { intros ->. eapply list.Forall_forall in Hsound as [Hcalm _]; [|exact Hin].
          congruence. }
        unfold run. fold ddoc view. rewrite (Hscan _ _ _ (Hpage _ _ _ _ _ Hv Hh Hr)).
        destruct r as [e'|[|]]; [|done|].
        + by rewrite <-!(assoc_L (++)).
        + by rewrite (right_id_L [] (++)). }
  intros w' d pre ev post e Hrun -> Hev. apply run_completed in Hrun.
  destruct Hrun as [(d0 & Heq & Hq)|(d0 & e0 & Heq & d1 & ev0 & -> & Hq & Hf)].
  - exfalso. apply quiet_not_failed in Hq.
    assert (ev ∈ d0 ++ [EvComplete None]) as Hin.
    { rewrite <-Heq. apply elem_of_app. right. left. }
    apply elem_of_app in Hin as [Hin|Hin].
    + eapply list.Forall_forall in Hq; [|done]. apply Hq. by rewrite Hev.
    + apply list_elem_of_singleton in Hin as ->. done.
  - rewrite <-(assoc_L (++)) in Heq. cbn in Heq.
    apply (split_at_first (λ ev, is_Some (failed ev))) in Heq
      as (-> & -> & ->).
    + split; [|done]. congruence.
    + by rewrite Hev.
    + by apply quiet_not_failed.
    + repeat constructor. by intros [? [=]].
Qed.

(** ** Enrichment *)

Lemma bind_ret_l {A B} (a : A) (k : A → M B) w : bind (ret a) k w = k a w.
Proof. unfold bind, ret. by destruct (k a w) as [[[??]?]|]. Qed.

(** [processBatch] on a batch that has extra keys: the multi-get comes
    first, and the documents it answers are the ones regrouped for the
    [changes] callbacks. *)
Lemma processBatch_fetch more batch retry w :
  let keys := concat (extraKeys <$> batch) in
  keys ≠ [] →
  processBatch more batch retry w =
    let ans := db_fetch db keys (ext w) in
    match ans.1 with
    | inl e => Some (inl e, set_ext ans.2 w, [EvFetch keys (Some e)])
    | inr docs =>
        match bind (runChanges batch (regroupDocs docs batch))
                   (processErrors (again more) batch retry) (set_ext ans.2 w) with
        | None => None
        | Some (r, w3, d3) => Some (r, w3, EvFetch keys None :: d3)
        end
    end.
Proof.
  intros keys Hkeys. rewrite processBatch_eq. unfold attempt.
  rewrite bind_assoc. unfold fetchExtraDocs. fold keys.
  rewrite bool_decide_eq_false_2 by done.
  rewrite bind_assoc. unfold bind at 1. unfold call at 1. cbn zeta.
  destruct (db_fetch db keys (ext w)) as [[e|docs] s]; cbn; [done|].
  fold (regroupDocs docs batch).
  by destruct (bind _ _ _) as [[[??]?]|].
Qed.

(** [processBatch] on a batch without extra keys: no multi-get, and
    [extraDocs] is the empty array. *)
Lemma processBatch_no_keys more batch retry w :
  concat (extraKeys <$> batch) = [] →
  processBatch more batch retry w
  = bind (runChanges batch []) (processErrors (again more) batch retry) w.
Proof.
  intros Hkeys. rewrite processBatch_eq. unfold attempt.
  rewrite bind_assoc. unfold fetchExtraDocs.
  rewrite bool_decide_eq_true_2 by done. by rewrite bind_ret_l.
Qed.

Lemma noKeys_concat batch : noKeys batch → concat (extraKeys <$> batch) = [].
Proof.
  induction 1 as [|row batch Hrow _ IH]; [done|]. cbn. by rewrite Hrow, IH.
Qed.

Lemma emits_attempt_noKeys batch : noKeys batch → emits unenriched (attempt batch).
Proof.
  intros Hno%noKeys_concat w r w' d. unfold attempt, fetchExtraDocs.
  rewrite bool_decide_eq_true_2 by done. rewrite bind_ret_l.
  revert w r w' d. apply emits_runChanges; [|done].
  intros i row f. cbn. apply lookup_nil.
Qed.

Lemma mapSeries_fetchKeysFn_default batch w :
  options_fetchKeys options = None →
  mapSeries fetchKeysFn batch w = Some (inr ((λ _, KeysNone) <$> batch), w, []).
Proof.
  intros Hnone. induction batch as [|row batch IH]; [done|].
  cbn [mapSeries]. unfold fetchKeysFn at 1. rewrite Hnone, bind_ret_l.
  by rewrite (bind_ok _ _ _ _ _ _ IH).
Qed.

Lemma noKeys_default batch :
  noKeys (zip_with (λ row keys, set_extraKeys row (flattenKeys keys)) batch
                   ((λ _, KeysNone) <$> batch)).
Proof. induction batch as [|row batch IH]; by constructor. Qed.

(** What the code does when [fetchKeys] is not configured: as long as
    [changes] answers, a sub-batch runs to its end without any multi-get
    ([db.fetch]) call, and every call of the [changes] callback, retries
    included, receives [undefined] as its second argument (not an empty
    array: [extraDocs] stays [[]], and [extraDocs[i]] is read from
    it). *)
Lemma no_fetchKeys_changes_receive_undefined batch w :
  callbacks_answer →
  options_fetchKeys options = None →
  ∃ r w' d, getExtraKeyInfo batch w = Some (r, w', d) ∧ Forall unenriched d.
Proof.
  intros Hcb Hnone.
  destruct (getExtraKeyInfo_total batch Hcb w) as [[[r w'] d] Hrun].
  exists r, w', d. split; [done|]. revert Hrun. unfold getExtraKeyInfo.
  intros [(e & -> & H)|([] & w1 & d1 & d2 & H1 & H2 & ->)]%bind_inv; [done|].
  injection H1 as <- <-.
  rewrite (bind_ok _ _ _ _ _ _ (mapSeries_fetchKeysFn_default batch w Hnone)) in H2.
  constructor; [done|].
  destruct (processBatch _ _ _ _) as [[[r2 w2] d3]|] eqn:Hrec; simplify_eq. cbn.
  revert Hrec. apply (emits_processBatch _ noKeys); try done.
  - intros b b' Hsub Hb. apply list.Forall_forall. intros row Hrow.
    eapply list.Forall_forall in Hb; [done|]. by eapply elem_of_sublist.
  - apply emits_attempt_noKeys.
  - apply noKeys_default.
Qed.

(** C1 (as amended): when a conflict retry occurs (some row conflicted and
    [retry < retries]), [processBatch] is entered again, from its first
    line, for the conflicting rows only.  These rows keep the [extraKeys]
    of the original attempt and [fetchKeys] is not called again; but if
    they have any extra key the multi-get is performed again, for their
    keys, and the [changes] callbacks of the retry receive the documents
    this new multi-get answers. *)
Theorem retry_reenters_processBatch more batch retry w results w1 d1 :
  attempt batch w = Some (inr results, w1, d1) →
  conflicting batch results ≠ [] →
  retry < retries →
  let newBatch := conflicting batch results in
  let n := successes batch newBatch in
  let w2 := settle n w1 in
  let keys := concat (extraKeys <$> newBatch) in
  processBatch (S more) batch retry w =
    match processBatch more newBatch (S retry) w2 with
    | None => None
    | Some (r, w3, d3) => Some (r, w3, d1 ++ tickOf n w1 :: d3)
    end ∧
  newBatch `sublist_of` batch ∧
  emits (λ ev, ¬ isFetchKeys ev) (processBatch more newBatch (S retry)) ∧
  (keys ≠ [] →
   processBatch more newBatch (S retry) w2 =
     let ans := db_fetch db keys (ext w2) in
     match ans.1 with
     | inl e => Some (inl e, set_ext ans.2 w2, [EvFetch keys (Some e)])
     | inr docs =>
         match bind (runChanges newBatch (regroupDocs docs newBatch))
                    (processErrors (again more) newBatch (S retry))
                    (set_ext ans.2 w2) with
         | None => None
         | Some (r, w3, d3) => Some (r, w3, EvFetch keys None :: d3)
         end
     end).
Proof.
  intros Hatt Hconf Hretry newBatch n w2 keys. repeat split.
  - rewrite processBatch_eq, (bind_ok _ _ _ _ _ _ Hatt), processErrors_eq.
    cbn zeta. fold newBatch n w2.
    rewrite bool_decide_eq_false_2 by done.
    rewrite bool_decide_eq_false_2 by lia.
    cbn [again]. by destruct (processBatch more newBatch (S retry) w2) as [[[??]?]|].
  - apply conflicting_sublist.
  - apply processBatch_no_fetchKeys.
  - apply processBatch_fetch.
Qed.

(** ** The attempts of a sub-batch *)

Lemma ext_only_ret {A} (a : A) : ext_only (ret a).
Proof. intros w r w' d [= <- <- <-]. by destruct w. Qed.

Lemma ext_only_call {A} (f : Answer A) ev : ext_only (call f ev).
Proof. by intros w r w' d [= <- <- <-]. Qed.

Lemma ext_only_invoke {A} (f : Ext → option ((Err + A) * Ext)) ev :
  ext_only (invoke f ev).
Proof. by intros w r w' d (s & _ & -> & _)%invoke_inv. Qed.

Lemma ext_only_bind {A B} (m : M A) (k : A → M B) :
  ext_only m → (∀ a, ext_only (k a)) → ext_only (bind m k).
Proof.
  intros Hm Hk w r w' d [(e & -> & H)|(a & w1 & d1 & d2 & H1 & H2 & ->)]%bind_inv.
  - eauto.
  - rewrite (Hk _ _ _ _ _ H2), (Hm _ _ _ _ H1). done.
Qed.

Lemma ext_only_timesSeries {B} (fn : nat → Row → M B) i batch :
  (∀ j row, ext_only (fn j row)) → ext_only (timesSeries fn i batch).
Proof.
  intros Hfn. revert i.
  induction batch as [|a arr IH]; intros i; cbn [timesSeries]; [apply ext_only_ret|].
  apply ext_only_bind; [done|]. intros b.
  apply ext_only_bind; [done|]. intros bs. apply ext_only_ret.
Qed.

Lemma ext_only_attempt batch : ext_only (attempt batch).
Proof.
  apply ext_only_bind.
  - unfold fetchExtraDocs. case_bool_decide; [apply ext_only_ret|].
    apply ext_only_bind; [apply ext_only_call|]. intros docs. apply ext_only_ret.
  - intros extraDocs. unfold runChanges. apply ext_only_bind.
    + apply ext_only_timesSeries. intros j row. apply ext_only_invoke.
    + intros changes. apply ext_only_bind; [apply ext_only_call|].
      intros results. apply ext_only_ret.
Qed.

Lemma attempt_realcurrent batch w r w1 d1 :
  attempt batch w = Some (r, w1, d1) → realcurrent w1 = realcurrent w.
Proof. intros H%ext_only_attempt. by rewrite H. Qed.

Lemma omap_all_None {A B} (f : A → option B) (l : list A) :
  Forall (λ x, f x = None) l → omap f l = [].
Proof. induction 1 as [|x l Hx _ IH]; [done|]. cbn. by rewrite Hx. Qed.

Lemma emits_attempt_calls batch : emits isOutsideCall (attempt batch).
Proof.
  apply emits_bind; [by apply emits_fetchExtraDocs|].
  intros extraDocs. by apply emits_runChanges.
Qed.

Lemma attempt_ticks batch w r w1 d1 :
  attempt batch w = Some (r, w1, d1) → ticks d1 = [] ∧ failures d1 = [].
Proof.
  intros H%emits_attempt_calls.
  split; apply omap_all_None; eapply List.Forall_impl; try done; by intros [].
Qed.

Lemma failures_conflictFailures rows : failures (conflictFailures rows) = rows.
Proof. induction rows as [|row rows IH]; [done|]. cbn. by f_equal. Qed.

Lemma ticks_conflictFailures rows : ticks (conflictFailures rows) = [].
Proof. by induction rows. Qed.

Lemma bulks_conflictFailures rows : bulks (conflictFailures rows) = [].
Proof. by induction rows. Qed.

(** The ways a finished [processBatch] can have gone. *)
Lemma processBatch_cases more batch retry w r w' d :
  processBatch more batch retry w = Some (r, w', d) →
  (∃ e, r = inl e ∧ attempt batch w = Some (inl e, w', d) ∧
        attempts more batch retry w = []) ∨
  (∃ results w1 d1,
      attempt batch w = Some (inr results, w1, d1) ∧
      let newBatch := conflicting batch results in
      let n := successes batch newBatch in
      (newBatch = [] ∧ r = inr tt ∧ w' = settle n w1 ∧ d = d1 ++ [tickOf n w1] ∧
       attempts more batch retry w = [(batch, newBatch)]) ∨
      (newBatch ≠ [] ∧ retries ≤ retry ∧ r = inr tt ∧ w' = settle n w1 ∧
       d = d1 ++ tickOf n w1 :: conflictFailures newBatch ∧
       attempts more batch retry w = [(batch, newBatch)]) ∨
      (newBatch ≠ [] ∧ retry < retries ∧
       ∃ more' d3, more = S more' ∧
         processBatch more' newBatch (S retry) (settle n w1) = Some (r, w', d3) ∧
         d = d1 ++ tickOf n w1 :: d3 ∧
         attempts more batch retry w =
           (batch, newBatch) :: attempts more' newBatch (S retry) (settle n w1))).
Proof.
  rewrite processBatch_eq.
  intros [(e & -> & H)|(res & w1 & d1 & d2 & H1 & H2 & ->)]%bind_inv.
  { left. exists e. repeat split; [done|]. destruct more; cbn; by rewrite H. }
  right. exists res, w1, d1. split; [done|].
  rewrite processErrors_eq in H2. cbn zeta in *.
  repeat case_bool_decide; simplify_eq.
  - left. repeat split; try done.
    destruct more; cbn; rewrite H1; by rewrite bool_decide_eq_true_2.
  - right; left. repeat split; try done.
    destruct more; cbn; rewrite H1; rewrite bool_decide_eq_false_2 by done;
      by rewrite bool_decide_eq_true_2.
  - right; right. split; [done|]. split; [lia|].
    destruct more as [|more']; [done|]. cbn [again] in H2.
    destruct (processBatch more' _ _ _) as [[[r2 w2] d3]|] eqn:Hrec; simplify_eq.
    exists more', d3. repeat split; try done.
    cbn [attempts]. rewrite H1. cbn zeta.
    rewrite bool_decide_eq_false_2 by done.
    by rewrite bool_decide_eq_false_2 by done.
Qed.

Lemma ticks_app d1 d2 : ticks (d1 ++ d2) = ticks d1 ++ ticks d2.
Proof. apply omap_app. Qed.

Lemma failures_app d1 d2 : failures (d1 ++ d2) = failures d1 ++ failures d2.
Proof. apply omap_app. Qed.

Lemma bulks_app d1 d2 : bulks (d1 ++ d2) = bulks d1 ++ bulks d2.
Proof. apply omap_app. Qed.

(** One progress report per attempt, of the batch size minus the number
    of rows to retry; [realcurrent] grows by their sum. *)
Lemma processBatch_ticks more batch retry w r w' d :
  processBatch more batch retry w = Some (r, w', d) →
  ticks d = (λ bn, successes bn.1 bn.2) <$> attempts more batch retry w ∧
  realcurrent w' = (realcurrent w + total_ticks d)%Z.
Proof.
  revert batch retry w d.
  induction more as [|more IH]; intros batch retry w d H.
  all: apply processBatch_cases in H
    as [(e & -> & Ha & ->)|(res & w1 & d1 & Ha & Hcases)].
  all: pose proof (attempt_ticks _ _ _ _ _ Ha) as [Ht _].
  all: pose proof (attempt_realcurrent _ _ _ _ _ Ha) as Hr.
  all: unfold total_ticks.
  all: try (rewrite Ht; cbn; split; [done|lia]).
  all: cbn zeta in Hcases.
  all: destruct Hcases as [(_ & -> & -> & -> & ->)|[(_ & _ & -> & -> & -> & ->)|
         (_ & _ & more' & d3 & Hm & Hrec & -> & ->)]].
  all: rewrite ?ticks_app, ?Ht; cbn; rewrite ?ticks_conflictFailures; cbn.
  all: try (split; [done|lia]).
  injection Hm as <-. apply IH in Hrec as [Ht3 Hr3].
  unfold total_ticks in Hr3. change (omap _ d3) with (ticks d3).
  rewrite <-Ht3. split; [done|]. rewrite Hr3. cbn. lia.
Qed.

Lemma attempt_bulks batch w res w1 d1 :
  attempt batch w = Some (inr res, w1, d1) → length (bulks d1) = 1.
Proof.
  unfold attempt.
  intros [(e & [=] & _)|(x & w2 & d2 & d3 & H1 & H2 & ->)]%bind_inv.
  unfold runChanges in H2.
  apply bind_inv in H2 as [(e & [=] & _)|(chs & w3 & d4 & d5 & H3 & H4 & ->)].
  apply bind_inv in H4 as [(e & [=] & _)|(results & w4 & d6 & d7 & H5 & H6 & ->)].
  injection H5 as _ _ <-. injection H6 as _ _ <-.
  assert (bulks d2 = []) as Hd2.
  { apply omap_all_None. eapply list.Forall_impl.
    - eapply (emits_fetchExtraDocs (λ ev, bulks [ev] = [])); [done|apply H1].
    - by intros []. }
  assert (bulks d4 = []) as Hd4.
  { apply omap_all_None. eapply list.Forall_impl.
    - eapply (emits_timesSeries (λ ev, bulks [ev] = [])); [|apply H3].
      intros j row. by apply emits_invoke.
    - by intros []. }
  by rewrite !bulks_app, Hd2, Hd4.
Qed.

(** Every attempt is made for a sub-sequence of the batch, and retries a
    sub-sequence of its rows. *)
Lemma attempts_sub more batch retry w b n :
  (b, n) ∈ attempts more batch retry w →
  b `sublist_of` batch ∧ n `sublist_of` b.
Proof.
  revert batch retry w.
  induction more as [|more IH]; intros batch retry w; cbn [attempts].
  all: destruct (attempt batch w) as [[[[e|res] w1] d1]|];
    try (by intros ?%elem_of_nil); cbn zeta.
  all: repeat case_bool_decide.
  all: intros [[= -> ->]|Hin]%elem_of_cons;
    try (by apply elem_of_nil in Hin);
    try (split; [done|apply conflicting_sublist]).
  apply IH in Hin as [Hb Hn]. split; [|done].
  etrans; [done|apply conflicting_sublist].
Qed.

(** Only rows of the batch are reported as failures. *)
Lemma processBatch_failures more batch retry w r w' d :
  processBatch more batch retry w = Some (r, w', d) →
  ∀ row, row ∈ failures d → row ∈ batch.
Proof.
  revert batch retry w d.
  induction more as [|more IH]; intros batch retry w d H row.
  all: apply processBatch_cases in H
    as [(e & -> & Ha & _)|(res & w1 & d1 & Ha & Hcases)].
  all: pose proof (attempt_ticks _ _ _ _ _ Ha) as [_ Hf].
  all: try (rewrite Hf; by intros ?%elem_of_nil).
  all: cbn zeta in Hcases.
  all: destruct Hcases as [(_ & -> & -> & -> & _)|[(_ & _ & -> & -> & -> & _)|
         (_ & _ & more' & d3 & Hm & Hrec & -> & _)]].
  all: rewrite failures_app, Hf; cbn; rewrite ?failures_conflictFailures.
  all: try (by intros ?%elem_of_nil).
  all: try (intros Hin; eapply elem_of_sublist; [done|apply conflicting_sublist]).
  all: try discriminate.
  injection Hm as <-. intros Hin. change (omap _ d3) with (failures d3) in Hin.
  eapply elem_of_sublist; [by eapply IH|apply conflicting_sublist].
Qed.

Lemma conflict_then_success_gen row more batch retry w r w' d k b n :
  processBatch more batch retry w = Some (r, w', d) →
  (∀ j bj nj, j < k → attempts more batch retry w !! j = Some (bj, nj) → row ∈ nj) →
  attempts more batch retry w !! k = Some (b, n) →
  row ∈ b → row ∉ n →
  k ≤ retries - retry ∧
  (∀ j bj nj, attempts more batch retry w !! j = Some (bj, nj) →
              row ∈ bj → row ∉ nj → j = k) ∧
  row ∉ failures d.
Proof.
  revert batch retry w d k.
  induction more as [|more IH]; intros batch retry w d k Hrun Hbefore Hk Hb Hn.
  all: pose proof (processBatch_failures _ _ _ _ _ _ _ Hrun) as Hfail.
  all: apply processBatch_cases in Hrun
    as [(e & -> & Ha & Hh)|(res & w1 & d1 & Ha & Hcases)];
    [by rewrite Hh in Hk|].
  all: pose proof (attempt_ticks _ _ _ _ _ Ha) as [_ Hf].
  all: cbn zeta in Hcases.
  all: destruct Hcases as [(Hnb & -> & -> & -> & Hh)|[(Hnb & Hle & -> & -> & -> & Hh)|
         (Hnb & Hlt & more' & d3 & Hm & Hrec & -> & Hh)]];
    try discriminate; rewrite Hh in *.
  1,2,3,4: destruct k as [|k]; [|done]; injection Hk as <- <-.
  1,2,3,4: split; [lia|]; split; [(by intros [|j] ???)|].
  1,2,3,4: rewrite failures_app, Hf; cbn; rewrite ?failures_conflictFailures;
    by try apply not_elem_of_nil.
  injection Hm as <-.
  rewrite failures_app, Hf. cbn. change (omap _ d3) with (failures d3).
  destruct k as [|k].
  - injection Hk as <- <-. split; [lia|]. split.
    + intros [|j] bj nj Hj Hbj Hnj; [done|]. cbn in Hj.
      apply list_elem_of_lookup_2, attempts_sub in Hj as [Hsub _].
      destruct Hn. by eapply elem_of_sublist.
    + intros Hin. destruct Hn. eapply processBatch_failures; done.
  - cbn in Hk.
    assert (row ∈ conflicting batch res) as Hrow.
    { apply (Hbefore 0 batch); [lia|done]. }
    destruct (IH _ _ _ _ k Hrec) as (Hle & Huniq & Hnot); try done.
    { intros j bj nj Hj. apply (Hbefore (S j)). lia. }
    split; [lia|]. split; [|done].
    intros [|j] bj nj Hj Hbj Hnj.
    + injection Hj as <- <-. done.
    + f_equal. by eapply Huniq.
Qed.

(** C7: take a finished run of the retry loop for a sub-batch, and a row
    that is among the conflicting rows of attempts [1..k] and among the
    rows of attempt [k+1] without conflicting there.  Then [k] is at most
    the retry ceiling, attempt [k+1] is the only attempt that counts the
    row as a success, no failure is reported for it, every attempt
    reports its progress exactly once, with the batch size minus the
    number of rows to retry, and [realcurrent] grows by the sum. *)
Theorem conflict_then_success_counted_once row more batch w r w' d k b n :
  processBatch more batch 0 w = Some (r, w', d) →
  (∀ j bj nj, j < k → attempts more batch 0 w !! j = Some (bj, nj) → row ∈ nj) →
  attempts more batch 0 w !! k = Some (b, n) →
  row ∈ b → row ∉ n →
  k ≤ retries ∧
  (∀ j bj nj, attempts more batch 0 w !! j = Some (bj, nj) →
              row ∈ bj → row ∉ nj → j = k) ∧
  (row ∉ failures d) ∧
  ticks d = (λ bn, successes bn.1 bn.2) <$> attempts more batch 0 w ∧
  realcurrent w' = (realcurrent w + total_ticks d)%Z.
Proof.
  intros Hrun Hbefore Hk Hb Hn.
  destruct (conflict_then_success_gen row _ _ _ _ _ _ _ _ _ _ Hrun Hbefore Hk Hb Hn)
    as (Hle & Huniq & Hnot).
  destruct (processBatch_ticks _ _ _ _ _ _ _ Hrun) as [Ht Hr].
  repeat split; try done. lia.
Qed.

Lemma conflict_exhaustion_gen row more batch retry w r w' d :
  processBatch more batch retry w = Some (r, w', d) →
  retry ≤ retries →
  row ∈ batch →
  Forall (λ ev, failed ev = None) d →
  (∀ b n, (b, n) ∈ attempts more batch retry w → row ∈ b → row ∈ n) →
  r = inr tt ∧
  length (attempts more batch retry w) = S (retries - retry) ∧
  length (bulks d) = S (retries - retry) ∧
  ∃ d0 last, d = d0 ++ conflictFailures last ∧ row ∈ last ∧
             failures d0 = [] ∧ last `sublist_of` batch ∧
             realcurrent w' = (realcurrent w + successes batch last)%Z.
Proof.
  revert batch retry w d.
  induction more as [|more IH]; intros batch retry w d Hrun Hretry Hrow Hok Hall.
  all: apply processBatch_cases in Hrun
    as [(e & -> & Ha & Hh)|(res & w1 & d1 & Ha & Hcases)].
  1,3: apply sound_attempt in Ha as (d' & ev & -> & _ & Hev);
    apply Forall_app in Hok as [_ Hok]; apply Forall_cons_1 in Hok as [Hok _];
    congruence.
  all: pose proof (attempt_ticks _ _ _ _ _ Ha) as [_ Hf].
  all: pose proof (attempt_bulks _ _ _ _ _ Ha) as Hbulk.
  all: pose proof (attempt_realcurrent _ _ _ _ _ Ha) as Hreal.
  all: cbn zeta in Hcases.
  all: destruct Hcases as [(Hnb & -> & -> & -> & Hh)|[(Hnb & Hle & -> & -> & -> & Hh)|
         (Hnb & Hlt & more' & d3 & Hm & Hrec & -> & Hh)]];
    try discriminate; rewrite Hh in *.
  1,3: exfalso; specialize (Hall batch (conflicting batch res));
    rewrite Hnb in Hall; eapply not_elem_of_nil, Hall; [left|done].
  1,2: split; [done|]; split; [cbn; lia|]; split;
    [rewrite bulks_app; cbn; rewrite bulks_conflictFailures, length_app, Hbulk;
     cbn; lia|];
    exists (d1 ++ [tickOf (successes batch (conflicting batch res)) w1]),
           (conflicting batch res);
    rewrite <-(assoc_L (++)); split; [done|]; split;
    [apply (Hall batch); [left|done]|]; split;
    [by rewrite failures_app, Hf|]; split; [apply conflicting_sublist|];
    cbn; lia.
  injection Hm as <-.
  assert (row ∈ conflicting batch res) as Hrow'.
  { apply (Hall batch); [left|done]. }
  apply Forall_app in Hok as [Hok1 Hok]. apply Forall_cons_1 in Hok as [_ Hok].
  destruct (IH _ _ _ _ Hrec ltac:(lia) Hrow' Hok)
    as (-> & Hlen & Hbulks & d0 & last & -> & Hlast & Hf0 & Hsub & Hr).
  { intros b n Hin. apply Hall. by right. }
  split; [done|]. split; [cbn; lia|]. split.
  { rewrite bulks_app, length_app, Hbulk. cbn.
    change (omap _ (d0 ++ conflictFailures last))
      with (bulks (d0 ++ conflictFailures last)). lia. }
  exists (d1 ++ tickOf (successes batch (conflicting batch res)) w1 :: d0), last.
  rewrite <-(assoc_L (++)). split; [done|]. split; [done|]. split.
  { rewrite failures_app, Hf. cbn. done. }
  split; [etrans; [done|apply conflicting_sublist]|].
  rewrite Hr. cbn. unfold successes. lia.
Qed.

(** ** Regrouping by counts *)

Lemma unflatten_from_lengths {A} (array : list A) i (counts : list nat) :
  i + sum_list counts ≤ length array →
  length <$> unflatten_from array (Some i) (Some <$> counts) = counts.
Proof.
  revert i. induction counts as [|c counts IH]; intros i Hlen; [done|].
  cbn in *. rewrite length_take, length_drop. f_equal; [lia|].
  apply IH. lia.
Qed.

(** When every [changes] callback answers an array or nothing, and the
    bulk write answers one result per document, the groups handed to
    [processErrors] have the sizes of the rows' change lists. *)
Lemma unflatten_aligned_for_arrays (changes : list ChangesResult)
    (results : list WriteResult) :
  Forall isArrayOrNone changes →
  length results = length (concat (flattenChange <$> (orEmpty <$> changes))) →
  length <$> unflatten results (lengthOf <$> (orEmpty <$> changes))
  = changeCount <$> changes.
Proof.
  intros Harr Hlen.
  assert (lengthOf <$> (orEmpty <$> changes) = Some <$> (changeCount <$> changes)) as ->.
  { clear Hlen. induction Harr as [|c changes Hc _ IH]; [done|]. cbn. rewrite IH.
    destruct c; [done|destruct Hc|done]. }
  apply unflatten_from_lengths. rewrite Hlen. cbn.
  clear. induction changes as [|c changes IH]; [done|].
  cbn. rewrite length_app. destruct c; cbn in *; lia.
Qed.

(** C2, at the failing input: the first of two rows answers one document
    [d1] that is not wrapped in an array, the second the array [[d2]];
    the bulk write is given [[d1; d2]] and answers [[r1; r2]].  The
    counts are [[undefined; 1]], the index of [unflatten] becomes [NaN],
    and both groups come back empty: their lengths are [0] and [0], not
    the change counts [1] and [1].  Whatever the bulk write answered, no
    row is then found to conflict. *)
Theorem single_change_breaks_alignment (d1 d2 : Doc) (r1 r2 : WriteResult)
    (row1 row2 : Row) :
  let changes := orEmpty <$> [ChOne d1; ChMany [d2]] in
  concat (flattenChange <$> changes) = [d1; d2] ∧
  changeCount <$> changes = [1; 1] ∧
  unflatten [r1; r2] (lengthOf <$> changes) = [[]; []] ∧
  conflicting [row1; row2] (unflatten [r1; r2] (lengthOf <$> changes)) = [].
Proof. done. Qed.

(** ** Scanning a view *)

Lemma ceil_div_small n p : 0 < n → n ≤ p → ceil_div n p = 1.
Proof.
  intros Hn Hp. unfold ceil_div. symmetry.
  apply (Nat.div_unique _ _ 1 (n - 1)); lia.
Qed.

Lemma ceil_div_pos n p : 0 < n → 0 < p → 0 < ceil_div n p.
Proof.
  intros Hn Hp. unfold ceil_div.
  apply Nat.div_str_pos. lia.
Qed.

Lemma ceil_div_0 p : 0 < p → ceil_div 0 p = 0.
Proof. intros Hp. unfold ceil_div. apply Nat.div_small. lia. Qed.

Lemma ceil_div_step n p : 0 < p → p < n → ceil_div n p = S (ceil_div (n - p) p).
Proof.
  intros Hp Hn. unfold ceil_div.
  replace (n + p - 1) with ((n - p + p - 1) + 1 * p) by lia.
  rewrite Nat.div_add by lia. lia.
Qed.

Lemma cursor_limit p0 V size p i :
  cursor p0 V size p i → p_limit p = Some (size + 1).
Proof. induction 1; done. Qed.

Lemma nextBatch_scan d0 ddoc view size handler p0 V :
  0 < size →
  serves d0 ddoc view p0 V size →
  passive handler →
  ∀ fuel i w,
    cursor p0 V size (query w) i →
    i = 0 ∨ i < length V →
    max 1 (ceil_div (length V - i) size) ≤ fuel →
    ∃ w' tr,
      nextBatch fuel d0 ddoc view size handler w = Some (inr Next, w', tr) ∧
      length (views tr) = max 1 (ceil_div (length V - i) size) ∧
      Forall (λ p, p_limit p = Some (size + 1)) (views tr) ∧
      concat (pages tr) = drop i V ∧
      Forall (λ page, length page ≤ size) (pages tr) ∧
      length (pages tr) = length (views tr).
Proof.
  intros Hsize Hserves Hpassive.
  induction fuel as [|fuel IH]; intros i w Hcur Hi Hfuel; [lia|].
  cbn [nextBatch]. unfold bind at 1. unfold call at 1. cbn zeta.
  rewrite (Hserves _ _ (ext w) Hcur). cbn.
  set (w1 := set_ext _ w).
  rewrite take_take, Nat.min_l by lia.
  destruct (Hpassive (take size (drop i V)) w1) as (w2 & d2 & Hh & Hq & Hv & Hp).
  unfold bind at 1. cbn. unfold bind at 1. rewrite Hh.
  rewrite lookup_take_lt, lookup_drop by lia.
  destruct (V !! (i + size)) as [next|] eqn:Hnext.
  - pose proof (lookup_lt_Some _ _ _ Hnext) as Hlt.
    unfold update. cbn.
    set (w3 := set_query _ w2).
    destruct (IH (i + size) w3) as (w' & tr & Hrun & Hlen & Hlim & Hcat & Hpg & Hpv).
    { subst w3. cbn. rewrite Hq. by apply cursor_next. }
    { lia. }
    { rewrite (ceil_div_step (length V - i)) in Hfuel by lia.
      replace (length V - (i + size)) with (length V - i - size) by lia.
      pose proof (ceil_div_pos (length V - i - size) size). lia. }
    rewrite Hrun. eexists _, _. split; [done|].
    unfold views, pages in *. cbn.
    rewrite !omap_app, Hv, Hp. cbn.
    split; [|split; [|split; [|split]]].
    + rewrite Hlen, (ceil_div_step (length V - i)) by lia.
      replace (length V - (i + size)) with (length V - i - size) by lia.
      pose proof (ceil_div_pos (length V - i - size) size). lia.
    + constructor; [|done]. by eapply cursor_limit.
    + rewrite Hcat. rewrite <-(take_drop size (drop i V)) at 2.
      by rewrite drop_drop.
    + constructor; [|done]. rewrite length_take. lia.
    + by rewrite Hpv.
  - apply lookup_ge_None_1 in Hnext.
    eexists _, _. split; [done|].
    unfold views, pages in *. cbn.
    rewrite !omap_app, Hv, Hp. cbn.
    split; [|split; [|split; [|split]]].
    + destruct (decide (length V - i = 0)) as [->|Hne].
      * by rewrite ceil_div_0.
      * rewrite ceil_div_small; lia.
    + constructor; [|done]. by eapply cursor_limit.
    + rewrite (right_id_L [] (++)). apply take_ge. rewrite length_drop. lia.
    + constructor; [|done]. rewrite length_take. lia.
    + done.
Qed.

(** C5 (as amended): let the store serve the [N] rows [V] of a view by
    keyset pagination, and let the batch handler always call
    [nextBatch()].  With page size [P > 0] the scan ends with [cb()]
    after exactly [max 1 ⌈N/P⌉] requests (one request is made even for
    an empty view), each asking for [P + 1] rows; after each request one
    page of at most [P] rows is handed to the batch handler, and the
    pages, in order, make up [V]: every row is handed over exactly once,
    in view order. *)
Theorem scan_pages_cover_view d0 ddoc view size handler V w fuel :
  0 < size →
  serves d0 ddoc view (query w) V size →
  passive handler →
  max 1 (ceil_div (length V) size) ≤ fuel →
  ∃ w' tr,
    getViewInBatches fuel d0 ddoc view size handler w = Some (inr Next, w', tr) ∧
    length (views tr) = max 1 (ceil_div (length V) size) ∧
    Forall (λ p, p_limit p = Some (size + 1)) (views tr) ∧
    concat (pages tr) = V ∧
    Forall (λ page, length page ≤ size) (pages tr) ∧
    length (pages tr) = length (views tr).
Proof.
  intros Hsize Hserves Hpassive Hfuel. unfold getViewInBatches.
  unfold bind, update. cbn.
  set (w0 := set_query _ w).
  destruct (nextBatch_scan d0 ddoc view size handler (query w) V Hsize Hserves
              Hpassive fuel 0 w0) as (w' & tr & Hrun & Hrest).
  - subst w0. cbn. constructor.
  - by left.
  - by rewrite Nat.sub_0_r.
  - rewrite Hrun. exists w', tr. split; [done|].
    by rewrite Nat.sub_0_r, drop_0 in Hrest.
Qed.

(** ** The row budget *)

Lemma keeps_scan_ext_only {A} (m : M A) : ext_only m → keeps_scan m.
Proof. intros Hm w r w' d H. rewrite (Hm _ _ _ _ H). done. Qed.

Lemma keeps_scan_bind {A B} (m : M A) (k : A → M B) :
  keeps_scan m → (∀ a, keeps_scan (k a)) → keeps_scan (bind m k).
Proof.
  intros Hm Hk w r w' d [(e & -> & H)|(a & w1 & d1 & d2 & H1 & H2 & ->)]%bind_inv.
  - eauto.
  - destruct (Hk _ _ _ _ _ H2) as [-> ->]. eauto.
Qed.

Lemma ext_only_mapSeries {A B} (fn : A → M B) arr :
  (∀ a, ext_only (fn a)) → ext_only (mapSeries fn arr).
Proof.
  intros Hfn. induction arr as [|a arr IH]; cbn [mapSeries]; [apply ext_only_ret|].
  apply ext_only_bind; [done|]. intros b.
  apply ext_only_bind; [done|]. intros bs. apply ext_only_ret.
Qed.

Lemma keeps_scan_processBatch more batch retry :
  keeps_scan (processBatch more batch retry).
Proof.
  revert batch retry. induction more as [|more IH]; intros batch retry w r w' d H.
  all: apply processBatch_cases in H
    as [(e & -> & Ha & _)|(res & w1 & d1 & Ha & Hcases)];
    [by apply (keeps_scan_ext_only _ (ext_only_attempt batch)) in Ha|].
  all: apply (keeps_scan_ext_only _ (ext_only_attempt batch)) in Ha as [Hq Hl].
  all: cbn zeta in Hcases.
  all: destruct Hcases as [(_ & _ & -> & _)|[(_ & _ & _ & -> & _)|
         (_ & _ & more' & d3 & Hm & Hrec & _)]]; try done.
  injection Hm as <-. apply IH in Hrec as [-> ->]. done.
Qed.

Lemma keeps_scan_getExtraKeyInfo batch : keeps_scan (getExtraKeyInfo batch).
Proof.
  unfold getExtraKeyInfo. apply keeps_scan_bind; [by intros w r w' d [= <- <- <-]|].
  intros _. apply keeps_scan_bind.
  - apply keeps_scan_ext_only, ext_only_mapSeries. intros row. unfold fetchKeysFn.
    destruct (options_fetchKeys options); [apply ext_only_invoke|apply ext_only_ret].
  - intros keysByRow. apply keeps_scan_processBatch.
Qed.

Lemma emits_call_ok {A} P (f : Answer A) ev :
  answers_ok f → P (ev None) → emits P (call f ev).
Proof.
  intros Hf HP w r w' d [= <- <- <-]. destruct (Hf (ext w)) as [a ->].
  by repeat constructor.
Qed.

Lemma emits_invoke_ok {A} P (f : Ext → option ((Err + A) * Ext)) ev :
  replies_ok f → P (ev None) → emits P (invoke f ev).
Proof.
  intros Hf HP w r w' d (s & Hr & _ & ->)%invoke_inv.
  destruct (Hf (ext w)) as (a & s' & Ha). rewrite Ha in Hr. injection Hr as <- _.
  by repeat constructor.
Qed.

Lemma emits_pipeline_reliable batch :
  reliable →
  emits pipelineEvent
    (let* keysByRow := mapSeries fetchKeysFn batch in
     processBatch retries
       (zip_with (λ row keys, set_extraKeys row (flattenKeys keys)) batch keysByRow)
       0).
Proof.
  intros (Hfetch & Hbulk & Hchanges & Hkeys). apply emits_bind.
  - apply emits_mapSeries. intros row. unfold fetchKeysFn.
    destruct (options_fetchKeys options) as [f|] eqn:Hf; [|apply emits_ret].
    apply emits_invoke_ok; [by eapply Hkeys|done].
  - intros keysByRow.
    apply (emits_processBatch _ (λ _, True)); [done| |done|done|done].
    intros b _. apply emits_bind.
    + unfold fetchExtraDocs. case_bool_decide; [apply emits_ret|].
      apply emits_bind; [by apply emits_call_ok|]. intros docs. apply emits_ret.
    + intros extraDocs. unfold runChanges. apply emits_bind.
      * apply emits_timesSeries. intros j row. by apply emits_invoke_ok.
      * intros changes. apply emits_bind; [by apply emits_call_ok|].
        intros results. apply emits_ret.
Qed.

Lemma pipelineEvent_calm ev : pipelineEvent ev → calm ev.
Proof. destruct ev as [| | |? []|? []|?? []|? []| | |]; try done; calm_event. Qed.

Lemma pipelineEvent_pageEvent ev : pipelineEvent ev → pageEvent ev.
Proof. by destruct ev. Qed.

Lemma pageEvent_calm ev : pageEvent ev → calm ev.
Proof. destruct ev; try apply pipelineEvent_calm. calm_event. Qed.

Lemma pipelineEvent_subBatches d : Forall pipelineEvent d → subBatches d = [].
Proof.
  intros Hd. apply omap_all_None. eapply List.Forall_impl; [|exact Hd].
  by intros [].
Qed.

Lemma reliable_callbacks_answer : reliable → callbacks_answer.
Proof.
  intros (_ & _ & Hchanges & Hkeys). split.
  - intros row docs s. destruct (Hchanges row docs s) as (a & s' & ->). by eexists.
  - intros f row s Hf. destruct (Hkeys f row Hf s) as (a & s' & ->). by eexists.
Qed.

(** A sub-batch of a reliable pipeline runs to its end without an error. *)
Lemma getExtraKeyInfo_reliable batch w :
  reliable →
  ∃ w' d, getExtraKeyInfo batch w = Some (inr tt, w', d) ∧
          subBatches d = [batch] ∧ Forall pageEvent d ∧
          query w' = query w ∧ limit w' = limit w.
Proof.
  intros Hrel.
  destruct (getExtraKeyInfo_total batch (reliable_callbacks_answer Hrel) w)
    as [[[r w'] d] Hrun].
  pose proof (sound_getExtraKeyInfo batch _ _ _ _ Hrun) as Hsound.
  pose proof (keeps_scan_getExtraKeyInfo batch _ _ _ _ Hrun) as [Hq Hl].
  assert (∃ d2, d = EvSubBatch batch :: d2 ∧ Forall pipelineEvent d2) as (d2 & -> & Hd2).
  { revert Hrun. unfold getExtraKeyInfo.
    intros [(e & _ & [=])|([] & w1 & d1 & d2 & H1 & H2 & ->)]%bind_inv.
    injection H1 as <- <-. exists d2. split; [done|].
    by apply (emits_pipeline_reliable batch Hrel) in H2. }
  assert (Forall pageEvent (EvSubBatch batch :: d2)) as Hpage.
  { constructor; [done|]. eapply List.Forall_impl; [|exact Hd2].
    apply pipelineEvent_pageEvent. }
  destruct r as [e|[]].
  { destruct Hsound as (d' & ev & Heq & _ & Hf). rewrite Heq in Hpage.
    apply Forall_app in Hpage as [_ Hpage]. apply Forall_cons_1 in Hpage as [Hev _].
    apply pageEvent_calm in Hev as [Hev _]. congruence. }
  exists w', (EvSubBatch batch :: d2). split; [done|]. split; [|done].
  change (subBatches (EvSubBatch batch :: d2)) with (batch :: subBatches d2).
  by rewrite (pipelineEvent_subBatches d2).
Qed.

Lemma subBatches_app d1 d2 : subBatches (d1 ++ d2) = subBatches d1 ++ subBatches d2.
Proof. apply omap_app. Qed.

Lemma whilst_reliable more rows count w :
  reliable →
  length rows ≤ count + more →
  ∃ w' d, whilst more rows count w = Some (inr tt, w', d) ∧
          concat (subBatches d) = drop count rows ∧ Forall pageEvent d ∧
          query w' = query w ∧ limit w' = limit w.
Proof.
  intros Hrel. revert count w.
  induction more as [|more IH]; intros count w Hle; cbn [whilst]; case_bool_decide.
  - lia.
  - exists w, []. rewrite drop_ge by lia. by repeat split.
  - destruct (getExtraKeyInfo_reliable (take batchSize (drop count rows)) w Hrel)
      as (w1 & d1 & Hrun1 & Hsub1 & Hev1 & Hq1 & Hl1).
    pose proof batchSize_pos.
    destruct (IH (count + batchSize) w1 ltac:(lia))
      as (w' & d2 & Hrun2 & Hsub2 & Hev2 & Hq2 & Hl2).
    exists w', (d1 ++ d2). rewrite (bind_ok _ _ _ _ _ _ Hrun1), Hrun2.
    split; [done|]. split; [|split; [by apply Forall_app|split; congruence]].
    rewrite subBatches_app, Hsub1, concat_app, Hsub2. cbn.
    rewrite (right_id_L [] (++)), <-drop_drop. apply take_drop.
  - exists w, []. rewrite drop_ge by lia. by repeat split.
Qed.

Lemma filterRows_pure f keep rows w :
  (∀ row s, keep row = match (f row s).1 with inr b => b | inl _ => false end) →
  ∃ w' d, filterRows f rows w = Some (inr (List.filter keep rows), w', d) ∧
          Forall isFailure d ∧ query w' = query w ∧ limit w' = limit w.
Proof.
  intros Hkeep. revert w. induction rows as [|row rows IH]; intros w.
  - exists w, []. by repeat split.
  - cbn [filterRows List.filter].
    rewrite (bind_ok _ _ _ _ _ _ (keepRow_eq f row w)).
    destruct (IH (set_ext (f row (ext w)).2 w)) as (w' & d & Hrun & Hd & Hq & Hl).
    rewrite (bind_ok _ _ _ _ _ _ Hrun). cbn. rewrite <-Hkeep.
    eexists _, _. split; [done|]. split; [|done].
    rewrite (right_id_L [] (++)). apply Forall_app. split; [|done].
    destruct (f row (ext w)).1; by repeat constructor.
Qed.

Lemma filter_all (keep : Row → bool) rows :
  (∀ row, keep row = true) → List.filter keep rows = rows.
Proof.
  intros Hkeep. induction rows as [|row rows IH]; [done|].
  cbn. by rewrite Hkeep, IH.
Qed.

Lemma not_scan_views d : Forall (λ ev, ¬ isScan ev) d → views d = [] ∧ pages d = [].
Proof.
  intros Hd. split; apply omap_all_None; eapply List.Forall_impl; try exact Hd.
  all: intros [] Hev; cbn in *; tauto.
Qed.

Lemma pageEvent_not_scan ev : pageEvent ev → ¬ isScan ev.
Proof. destruct ev; cbn; tauto. Qed.

Lemma isFailure_subBatches d : Forall isFailure d → subBatches d = [].
Proof.
  intros Hd. apply omap_all_None. eapply List.Forall_impl; [|exact Hd]. by intros [].
Qed.

Lemma and_shift (A B C D : Prop) : D → A → B → C → A ∧ B ∧ C ∧ D.
Proof. tauto. Qed.

(** The batch handler on one page, with a budget of [l ≥ 1] rows left:
    when the filtered page has fewer than [l] rows, all of them enter the
    pipeline, the budget shrinks by their number and [nextBatch()] is
    called; otherwise the first [l] of them enter the pipeline and
    [complete()] is called. *)
Lemma batchHandler_budget keep rows w l :
  reliable → filter_is keep →
  limit w = Some (Z.of_nat l) → 1 ≤ l →
  let kept := List.filter keep rows in
  ∃ w' d,
    views d = [] ∧ pages d = [] ∧ query w' = query w ∧
    if decide (length kept < l)
    then batchHandler rows w = Some (inr Next, w', d) ∧
         limit w' = Some (Z.of_nat (l - length kept)) ∧
         concat (subBatches d) = kept
    else batchHandler rows w = Some (inr Halt, w', d) ∧
         concat (subBatches d) = take l kept ∧
         last d = Some (EvComplete None).
Proof.
  intros Hrel Hkeep Hlim Hl kept.
  set (w0 := set_batchno (batchno w + 1) w).
  assert (∃ w1 d1,
    match options_sourceFilter options with
    | Some f => filterRows f rows
    | None => ret rows
    end w0 = Some (inr kept, w1, d1) ∧
    Forall isFailure d1 ∧ query w1 = query w ∧ limit w1 = Some (Z.of_nat l))
    as (w1 & d1 & Hrun1 & Hd1 & Hq1 & Hl1).
  { unfold filter_is in Hkeep. destruct (options_sourceFilter options) as [f|].
    - destruct (filterRows_pure f keep rows w0 Hkeep) as (w1 & d1 & H1 & H2 & H3 & H4).
      exists w1, d1. repeat split; try done. by rewrite H4.
    - exists w0, []. unfold kept. rewrite (filter_all _ _ Hkeep). by repeat split. }
  pose proof (not_scan_views d1) as Hscan1.
  destruct Hscan1 as [Hv1 Hp1].
  { eapply List.Forall_impl; [|exact Hd1]. intros []; cbn; tauto. }
  pose proof (isFailure_subBatches d1 Hd1) as Hs1.
  case_decide as Hcmp.
  all: unfold batchHandler; unfold bind at 1; unfold update at 1; cbn iota beta.
  all: fold w0; rewrite (bind_ok _ _ _ _ _ _ Hrun1).
  all: unfold bind at 1; unfold applyLimit at 1; rewrite Hl1.
  - (* the page fits into the budget *)
    rewrite (proj2 (Z.ltb_ge _ _)) by lia. cbn.
    set (w2 := set_limit _ w1).
    case_bool_decide as Hempty.
    + exists w2, (d1 ++ []).
      split; [by rewrite (right_id_L [] (++))|].
      split; [by rewrite (right_id_L [] (++))|].
      split; [done|]. split; [done|]. split.
      * cbn. f_equal. lia.
      * rewrite (right_id_L [] (++)), Hs1. symmetry. by apply nil_length_inv.
    + destruct (whilst_reliable (length kept) kept 0 w2 Hrel ltac:(lia))
        as (w3 & d3 & Hrun3 & Hsub3 & Hev3 & Hq3 & Hl3).
      unfold bind at 1. unfold tick at 1. cbn. unfold finish. rewrite Hrun3.
      rewrite bool_decide_eq_false_2.
      2:{ cbn. intros [= Heq]. lia. }
      destruct (not_scan_views d3) as [Hv3 Hp3].
      { eapply List.Forall_impl; [|exact Hev3]. apply pageEvent_not_scan. }
      eexists _, _. apply and_shift.
      * split; [reflexivity|]. split.
        -- rewrite Hl3. cbn. f_equal. lia.
        -- rewrite subBatches_app, Hs1. cbn.
           change (omap _ d3) with (subBatches d3). by rewrite Hsub3, drop_0.
      * unfold views in *. rewrite omap_app, Hv1. cbn. exact Hv3.
      * unfold pages in *. rewrite omap_app, Hp1. cbn. exact Hp3.
      * by rewrite Hq3.
  - (* the page uses up the budget *)
    assert (slice0 kept (Z.of_nat (length kept) + (Z.of_nat l - Z.of_nat (length kept)))
            = take l kept) as Hslice.
    { unfold slice0. rewrite (proj2 (Z.ltb_ge _ _)) by lia. f_equal. lia. }
    assert (∃ w2 rows2,
      (if (Z.of_nat l - Z.of_nat (length kept) <? 0)%Z
       then ret (slice0 kept (Z.of_nat (length kept) +
                              (Z.of_nat l - Z.of_nat (length kept))))
                (set_limit (Some 0%Z) w1)
       else ret kept (set_limit (Some (Z.of_nat l - Z.of_nat (length kept))%Z) w1))
      = Some (inr rows2, w2, []) ∧ rows2 = take l kept ∧
      limit w2 = Some 0%Z ∧ query w2 = query w1) as (w2 & rows2 & -> & -> & Hl2 & Hq2).
    { destruct (Z.ltb_spec (Z.of_nat l - Z.of_nat (length kept)) 0).
      - eexists _, _. split; [done|]. by rewrite Hslice.
      - eexists _, _. split; [done|]. split; [by rewrite take_ge by lia|].
        split; [|done]. cbn. f_equal. lia. }
    rewrite bool_decide_eq_false_2.
    2:{ rewrite length_take. lia. }
    destruct (whilst_reliable (length (take l kept)) (take l kept) 0 w2 Hrel ltac:(lia))
      as (w3 & d3 & Hrun3 & Hsub3 & Hev3 & Hq3 & Hl3).
    unfold bind at 1. unfold tick at 1. cbn. unfold finish. rewrite Hrun3.
    rewrite bool_decide_eq_true_2 by done.
    destruct (not_scan_views d3) as [Hv3 Hp3].
    { eapply List.Forall_impl; [|exact Hev3]. apply pageEvent_not_scan. }
    eexists _, _. apply and_shift.
    + split; [reflexivity|]. split.
      * rewrite subBatches_app, Hs1. cbn.
        change (omap _ (d3 ++ ?x)) with (subBatches (d3 ++ x)).
        rewrite subBatches_app, concat_app, Hsub3. cbn.
        by rewrite (right_id_L [] (++)), drop_0.
      * rewrite app_comm_cons, (assoc_L (++)). apply last_snoc.
    + unfold views in *. rewrite omap_app, Hv1. cbn. by rewrite omap_app, Hv3.
    + unfold pages in *. rewrite omap_app, Hp1. cbn. by rewrite omap_app, Hp3.
    + by rewrite Hq3, Hq2.
Qed.

Lemma nextBatch_budget keep ddoc view p0 V size :
  0 < size → reliable → filter_is keep → serves db ddoc view p0 V size →
  ∀ fuel i w l,
    cursor p0 V size (query w) i →
    limit w = Some (Z.of_nat l) → 1 ≤ l →
    l < length (List.filter keep (drop i V)) →
    max 1 (ceil_div (length V - i) size) ≤ fuel →
    ∃ w' tr,
      nextBatch fuel db ddoc view size batchHandler w = Some (inr Halt, w', tr) ∧
      concat (subBatches tr) = take l (List.filter keep (drop i V)) ∧
      last tr = Some (EvComplete None) ∧
      length (views tr) = length (pages tr) ∧
      concat (pages tr) `prefix_of` drop i V ∧
      used_up_on_last keep l (pages tr).
Proof.
  intros Hsize Hrel Hkeep Hserves.
  pose proof (λ rows w l, batchHandler_budget keep rows w l Hrel Hkeep) as Hbudget.
  set (handler := batchHandler) in *. clearbody handler.
  induction fuel as [|fuel IH]; intros i w l Hcur Hlim Hl Hmore Hfuel; [lia|].
  set (page := take size (drop i V)).
  assert (drop i V = page ++ drop (i + size) V) as Hsplit.
  { unfold page. by rewrite <-drop_drop, take_drop. }
  assert (List.filter keep (drop i V)
          = List.filter keep page ++ List.filter keep (drop (i + size) V)) as Hfilter.
  { rewrite Hsplit at 1. apply List.filter_app. }
  cbn [nextBatch]. unfold bind at 1. unfold call at 1. cbn zeta.
  rewrite (Hserves _ _ (ext w) Hcur). cbn.
  set (w1 := set_ext _ w).
  rewrite take_take, Nat.min_l by lia. fold page.
  destruct (Hbudget page w1 l Hlim Hl) as (w2 & d2 & Hv & Hp & Hq & Hcase).
  unfold bind at 1. cbn. unfold bind at 1.
  rewrite lookup_take_lt, lookup_drop by lia.
  case_decide as Hcmp.
  - destruct Hcase as (Hrun & Hl2 & Hsub). rewrite Hrun.
    rewrite Hfilter, length_app in Hmore.
    assert (i + size < length V) as Hlt.
    { destruct (decide (i + size < length V)) as [|Hge]; [done|].
      rewrite (drop_ge V (i + size)) in Hmore by lia. cbn in Hmore. lia. }
    destruct (lookup_lt_is_Some_2 V (i + size) Hlt) as [next Hnext]. rewrite Hnext.
    unfold update. cbn. set (w3 := set_query _ w2).
    destruct (IH (i + size) w3 (l - length (List.filter keep page)))
      as (w' & tr & Hrun' & Hsub' & Hlast & Hlen & Hpre & before & pg & Hpg & Hb1 & Hb2).
    { subst w3. cbn. rewrite Hq. by apply cursor_next. }
    { exact Hl2. }
    { lia. }
    { lia. }
    { rewrite (ceil_div_step (length V - i)) in Hfuel by lia.
      replace (length V - (i + size)) with (length V - i - size) by lia.
      pose proof (ceil_div_pos (length V - i - size) size). lia. }
    rewrite Hrun'. eexists _, _. split; [done|].
    destruct (round_trace ddoc view (query w) None page d2 tr Hv Hp)
      as (-> & -> & ->).
    split; [|split; [|split; [|split]]].
    + rewrite concat_app, Hsub, Hsub', Hfilter.
      rewrite <-(take_app_add (List.filter keep page)). f_equal. lia.
    + rewrite !app_comm_cons, last_app, Hlast. done.
    + cbn. by rewrite Hlen.
    + cbn. rewrite Hsplit. by apply prefix_app.
    + exists (page :: before), pg. rewrite Hpg. split; [done|]. cbn.
      rewrite <-(assoc_L (++)), !List.filter_app, !length_app in *. lia.
  - destruct Hcase as (Hrun & Hsub & Hlast). rewrite Hrun. cbn.
    eexists _, _. split; [done|].
    destruct (round_trace ddoc view (query w) None page d2 [] Hv Hp)
      as (-> & -> & ->).
    split; [|split; [|split; [|split]]].
    + cbn. rewrite (right_id_L [] (++)), Hsub, Hfilter. by rewrite take_app_le by lia.
    + rewrite (right_id_L [] (++)), !last_cons, Hlast. done.
    + done.
    + cbn. rewrite (right_id_L [] (++)), Hsplit. by apply prefix_app_r.
    + exists [], page. split; [done|]. cbn. lia.
Qed.

(** X24: for a budget [L] with [1 ≤ L < N], [N] being the number of rows
    of the view that the filter accepts, and as long as no store call or
    callback fails: the rows that enter the pipeline are exactly the first
    [L] accepted rows, [complete()] ends the run, and the last page that
    was requested is the one that used the budget up (it is cut, not
    dropped, and no page is requested after it). *)
Lemma budget_limits_rows keep V L w fuel :
  reliable → filter_is keep →
  serves db (sourceDesignDoc options) (sourceView options) (query w) V 1000 →
  limit w = Some (Z.of_nat L) → 1 ≤ L → L < length (List.filter keep V) →
  max 1 (ceil_div (length V) 1000) ≤ fuel →
  ∃ w' tr,
    run fuel w = Some (w', tr) ∧
    concat (subBatches tr) = take L (List.filter keep V) ∧
    last tr = Some (EvComplete None) ∧
    length (views tr) = length (pages tr) ∧
    concat (pages tr) `prefix_of` V ∧
    used_up_on_last keep L (pages tr).
Proof.
  intros Hrel Hkeep Hserves Hlim HL HN Hfuel.
  unfold run, getViewInBatches. unfold bind, update. cbn.
  set (w0 := set_query _ w).
  destruct (nextBatch_budget keep _ _ (query w) V 1000 ltac:(lia) Hrel Hkeep Hserves
              fuel 0 w0 L) as (w' & tr & Hrun & Hrest).
  - subst w0. cbn. constructor.
  - exact Hlim.
  - done.
  - by rewrite drop_0.
  - by rewrite Nat.sub_0_r.
  - rewrite Hrun. exists w', tr. split; [done|]. by rewrite drop_0 in Hrest.
Qed.

(** ** The [retryConflicts] option *)

(** C10: [processErrors] compares the number of the attempt with a
    ceiling that is [2] when [retryConflicts] is the number [0], as it is
    when the option is absent: with either, conflicting rows are retried
    after the first and after the second attempt and given up (reported)
    after the third.  Only with the literal [false] are they given up
    after the first attempt; with any other value the first attempt is
    retried, so the number [0] does not disable the retries. *)
Theorem retryConflicts_zero_is_default (k : list Row → nat → M unit)
    batch retry results w :
  conflicting batch results ≠ [] →
  let newBatch := conflicting batch results in
  let n := successes batch newBatch in
  let reported := Some (inr tt, settle n w, tickOf n w :: conflictFailures newBatch) in
  let try_again := match k newBatch (S retry) (settle n w) with
                   | None => None
                   | Some (r, w2, d2) => Some (r, w2, tickOf n w :: d2)
                   end in
  (options_retryConflicts options = RcNum 0 ∨
   options_retryConflicts options = RcUndefined →
   processErrors k batch retry results w
   = if bool_decide (2 ≤ retry) then reported else try_again) ∧
  (options_retryConflicts options = RcFalse →
   processErrors k batch retry results w = reported) ∧
  (options_retryConflicts options ≠ RcFalse → retry = 0 →
   processErrors k batch retry results w = try_again).
Proof.
  intros Hne newBatch n reported try_again.
  rewrite processErrors_eq. cbn zeta. fold newBatch n.
  rewrite (bool_decide_eq_false_2 (newBatch = [])) by done.
  unfold retries. split; [|split].
  - intros [->| ->]; cbn [retries_of]; by repeat case_bool_decide.
  - intros ->. cbn [retries_of]. by rewrite bool_decide_eq_true_2 by lia.
  - intros Hrc ->. rewrite bool_decide_eq_false_2; [done|].
    destruct (options_retryConflicts options) as [| |[|m]]; cbn; try lia. done.
Qed.

(** * More of the engine *)

(** ** [unflatten] *)

Lemma length_unflatten_from {A} (array : list A) i counts :
  length (unflatten_from array i counts) = length counts.
Proof.
  revert i. induction counts as [|c cs IH]; intros i; cbn; [done|]. by rewrite IH.
Qed.

Lemma unflatten_from_groups {A} (pre : list A) (groups : list (list A)) :
  unflatten_from (pre ++ concat groups) (Some (length pre))
                 ((λ g, Some (length g)) <$> groups) = groups.
Proof.
  revert pre. induction groups as [|g gs IH]; intros pre; [done|].
  cbn. rewrite drop_app_length, take_app_length. f_equal.
  specialize (IH (pre ++ g)). by rewrite length_app, <-(assoc_L (++)) in IH.
Qed.

(** X1: [unflatten] undoes flattening: regrouping the concatenation of
    some groups by the lengths of those groups gives the groups back. *)
Theorem unflatten_regroups_concat {A} (groups : list (list A)) :
  unflatten (concat groups) ((λ g, Some (length g)) <$> groups) = groups.
Proof. apply (unflatten_from_groups []). Qed.

Lemma unflatten_from_concat {A} (array : list A) i (nums : list nat) :
  concat (unflatten_from array (Some i) (Some <$> nums))
  = take (sum_list nums) (drop i array).
Proof.
  revert i. induction nums as [|c cs IH]; intros i; cbn.
  - by rewrite take_0.
  - by rewrite IH, <-drop_drop, take_take_drop.
Qed.

Lemma unflatten_from_sizes {A} (array : list A) i (nums : list nat) :
  Forall2 (λ g n, length g ≤ n) (unflatten_from array (Some i) (Some <$> nums)) nums.
Proof.
  revert i. induction nums as [|c cs IH]; intros i; cbn; constructor.
  - rewrite length_take. lia.
  - apply IH.
Qed.

(** X2: for counts that are numbers, [unflatten] gives one group per
    count, no group has more elements than its count, and the groups, in
    order, are the first [sum counts] elements of the array: elements are
    taken in order, none twice, and an array that is too short gives
    shorter groups, not an error. *)
Theorem unflatten_takes_counts_in_order {A} (array : list A) (nums : list nat) :
  length (unflatten array (Some <$> nums)) = length nums ∧
  Forall2 (λ g n, length g ≤ n) (unflatten array (Some <$> nums)) nums ∧
  concat (unflatten array (Some <$> nums)) = take (sum_list nums) array.
Proof.
  unfold unflatten. split; [|split].
  - by rewrite length_unflatten_from, length_fmap.
  - apply unflatten_from_sizes.
  - by rewrite unflatten_from_concat, drop_0.
Qed.

Lemma unflatten_from_nan {A} (array : list A) counts :
  unflatten_from array None counts = replicate (length counts) [].
Proof. induction counts as [|c cs IH]; cbn; [done|]. by rewrite IH. Qed.

(** X3: a count that is not a number ([undefined], from an element
    without a [length]) empties its own group and every group after it,
    whatever the counts that follow; the groups before it are not
    affected. *)
Theorem unflatten_after_missing_count {A} (array : list A) before rest :
  unflatten array (before ++ None :: rest)
  = unflatten array before ++ replicate (S (length rest)) [].
Proof.
  unfold unflatten. generalize (Some 0).
  induction before as [|c cs IH]; intros i; cbn.
  - destruct i; cbn; by rewrite unflatten_from_nan.
  - by rewrite IH.
Qed.

(** ** [processErrors] *)

Lemma conflicting_noConflict batch results :
  noConflict results → conflicting batch results = [].
Proof.
  intros H. revert batch.
  induction H as [|r rs Hr _ IH]; intros [|row batch]; cbn; try done.
  assert (hasConflict r = false) as ->; [|apply IH].
  unfold hasConflict. induction Hr as [|x xs Hx _ IHx]; cbn; [done|].
  by rewrite IHx, bool_decide_eq_false_2.
Qed.

(** X4: only conflicts are looked at.  When no write of the bulk answer
    is a conflict -- whatever other errors the writes have, such as
    [forbidden] -- the attempt is the last one: every row of the batch is
    counted as migrated, nothing is reported and nothing is retried. *)
Theorem other_write_errors_count_as_success more batch retry w results w1 d1 :
  attempt batch w = Some (inr results, w1, d1) →
  noConflict results →
  let n := Z.of_nat (length batch) in
  processBatch more batch retry w = Some (inr tt, settle n w1, d1 ++ [tickOf n w1]).
Proof.
  intros Hatt Hno n.
  rewrite processBatch_eq, (bind_ok _ _ _ _ _ _ Hatt), processErrors_eq.
  cbn zeta. rewrite (conflicting_noConflict _ _ Hno).
  rewrite bool_decide_eq_true_2 by done. unfold successes. cbn [length].
  by replace (Z.of_nat (length batch) - Z.of_nat 0)%Z with n by lia.
Qed.

Lemma processBatch_counts more batch retry w r w' d :
  processBatch more batch retry w = Some (r, w', d) →
  failures d `sublist_of` batch ∧
  (realcurrent w' + Z.of_nat (length (failures d))
   ≤ realcurrent w + Z.of_nat (length batch))%Z ∧
  (r = inr tt →
   (realcurrent w' + Z.of_nat (length (failures d))
    = realcurrent w + Z.of_nat (length batch))%Z).
Proof.
  revert batch retry w d.
  induction more as [|more IH]; intros batch retry w d H.
  all: apply processBatch_cases in H
    as [(e & -> & Ha & _)|(res & w1 & d1 & Ha & Hcases)].
  all: pose proof (attempt_ticks _ _ _ _ _ Ha) as [_ Hf].
  all: pose proof (attempt_realcurrent _ _ _ _ _ Ha) as Hrc.
  all: try (rewrite Hf, Hrc; cbn; split; [apply sublist_nil_l|split; [lia|done]]).
  all: cbn zeta in Hcases.
  all: pose proof (conflicting_sublist batch res) as Hsub.
  all: pose proof (sublist_length _ _ Hsub) as Hlen.
  all: destruct Hcases as [(Hnil & -> & -> & -> & _)|[(_ & _ & -> & -> & -> & _)|
         (_ & _ & more' & d3 & Hm & Hrec & -> & _)]].
  all: rewrite failures_app, Hf; cbn [app]; try discriminate.
  - rewrite Hnil. cbn. unfold successes. cbn. split; [apply sublist_nil_l|]. lia.
  - change (failures (tickOf ?n ?w :: ?l)) with (failures l).
    rewrite failures_conflictFailures. unfold successes. cbn. split; [done|]. lia.
  - rewrite Hnil. cbn. unfold successes. cbn. split; [apply sublist_nil_l|]. lia.
  - change (failures (tickOf ?n ?w :: ?l)) with (failures l).
    rewrite failures_conflictFailures. unfold successes. cbn. split; [done|]. lia.
  - injection Hm as <-. apply IH in Hrec as (Hs3 & Hle3 & Heq3).
    change (failures (tickOf ?n ?w :: ?l)) with (failures l).
    unfold successes in *. cbn in Hle3, Heq3.
    split; [by etrans|]. split; [lia|]. intros Hr. specialize (Heq3 Hr). lia.
Qed.

(** X5: a sub-batch that ends without a fatal error has counted each of
    its rows exactly once: the rows added to [realcurrent] and the rows
    reported as failed add up to the size of the batch, and the reported
    rows are rows of the batch, in batch order.  After a fatal error the
    count has not gone beyond the size of the batch. *)
Theorem every_row_counted_once more batch retry w r w' d :
  processBatch more batch retry w = Some (r, w', d) →
  failures d `sublist_of` batch ∧
  (realcurrent w' + Z.of_nat (length (failures d))
   ≤ realcurrent w + Z.of_nat (length batch))%Z ∧
  (r = inr tt →
   (realcurrent w' + Z.of_nat (length (failures d))
    = realcurrent w + Z.of_nat (length batch))%Z).
Proof. apply processBatch_counts. Qed.

Lemma changesCalls_app d1 d2 : changesCalls (d1 ++ d2) = changesCalls d1 ++ changesCalls d2.
Proof. apply omap_app. Qed.

Lemma timesSeries_changes_calls extraDocs batch i w r w' d :
  timesSeries (λ j row, changesFn row (extraDocs !! j)) i batch w = Some (r, w', d) →
  changesCalls d `prefix_of` changesArgsFrom extraDocs i batch ∧
  bulks d = [] ∧
  ∀ cs, r = inr cs →
    changesCalls d = changesArgsFrom extraDocs i batch ∧ length cs = length batch.
Proof.
  revert i w r w' d.
  induction batch as [|row rest IH]; intros i w r w' d; cbn [timesSeries changesArgsFrom].
  - intros [= <- <- <-]. split; [done|]. split; [done|]. by intros cs [= <-].
  - intros [(e & -> & H)|(c & w1 & d1 & d2 & H1 & H2 & ->)]%bind_inv.
    + apply invoke_inv in H as (s & _ & _ & ->). cbn.
      split; [apply prefix_cons, prefix_nil|]. split; [done|]. by intros cs [=].
    + apply invoke_inv in H1 as (s & _ & _ & ->). rewrite changesCalls_app, bulks_app.
      match goal with |- context [changesCalls [?ev]] =>
        change (changesCalls [ev]) with [(row, extraDocs !! i)];
        change (bulks [ev]) with (@nil (list Doc))
      end.
      cbn [app].
      apply bind_inv in H2 as [(e & -> & H)|(bs & w2 & d3 & d4 & H3 & H4 & ->)].
      * apply IH in H as (Hp & Hb & _).
        split; [by apply prefix_cons|]. split; [done|]. by intros cs [=].
      * injection H4 as <- <- <-. apply IH in H3 as (_ & Hb & Heq).
        destruct (Heq bs eq_refl) as [Hcalls Hlen]. rewrite (right_id_L [] (++)).
        split; [by rewrite Hcalls|]. split; [done|].
        intros cs [= <-]. cbn. by rewrite Hcalls, Hlen.
Qed.

Lemma runChanges_calls batch extraDocs w r w' d :
  runChanges batch extraDocs w = Some (r, w', d) →
  changesCalls d `prefix_of` changesArgs extraDocs batch ∧
  length (bulks d) ≤ 1 ∧
  (bulks d ≠ [] → changesCalls d = changesArgs extraDocs batch) ∧
  (∀ results, r = inr results →
     length results = length batch ∧ length (bulks d) = 1).
Proof.
  unfold runChanges, changesArgs.
  intros [(e & -> & H)|(cs & w1 & d1 & d2 & H1 & H2 & ->)]%bind_inv.
  - apply timesSeries_changes_calls in H as (Hp & Hb & _). rewrite Hb.
    split; [done|]. split; [cbn; lia|]. split; [done|]. by intros results [=].
  - apply timesSeries_changes_calls in H1 as (_ & Hb & Heq).
    destruct (Heq cs eq_refl) as [Hcalls Hlen].
    rewrite changesCalls_app, bulks_app, Hb, Hcalls.
    apply bind_inv in H2 as [(e & -> & H)|(res & w2 & d3 & d4 & H3 & H4 & ->)].
    + injection H as _ _ <-. cbn. rewrite (right_id_L [] (++)).
      split; [done|]. split; [lia|]. split; [done|]. by intros results [=].
    + injection H3 as _ _ <-. injection H4 as <- _ <-. cbn.
      rewrite (right_id_L [] (++)).
      split; [done|]. split; [lia|]. split; [done|].
      intros results [= <-]. split; [|done].
      unfold unflatten. by rewrite length_unflatten_from, !length_fmap.
Qed.

(** ** [runChanges] *)

Lemma sound_runChanges batch extraDocs : sound (runChanges batch extraDocs).
Proof.
  unfold runChanges. apply sound_bind.
  - apply sound_timesSeries. intros j row. apply sound_invoke. calm_event.
  - intros changes. apply sound_bind; [apply sound_call; calm_event|].
    intros results. apply sound_ret.
Qed.

(** In a computation whose errors are those of its calls, a call that
    failed is the last event, and its error is the result. *)
Lemma failed_call_is_last {A} (m : M A) w r w' d pre ev post e :
  sound m → m w = Some (r, w', d) →
  d = pre ++ ev :: post → failed ev = Some e →
  post = [] ∧ r = inl e.
Proof.
  intros Hsound Hrun -> Hev. apply Hsound in Hrun. destruct r as [e0|a].
  - destruct Hrun as (d' & ev0 & Heq & Hq & Hf).
    apply (split_at_first (λ ev, is_Some (failed ev))) in Heq as (-> & -> & ->).
    + split; [done|]. congruence.
    + by rewrite Hev.
    + by apply quiet_not_failed.
    + constructor.
  - apply quiet_not_failed in Hrun. apply Forall_app in Hrun as [_ Hrun].
    apply Forall_cons_1 in Hrun as [Hrun _]. destruct Hrun. by rewrite Hev.
Qed.

(** X7: [changes] is called for the rows of the batch in batch order,
    each at most once per attempt, row [i] with [extraDocs[i]], and the
    calls stop at the first row whose callback fails: a failed call is
    the last event of the attempt (no call for a later row and no bulk
    write follows it) and its error is the result.  The bulk write is
    made at most once, and only after the callback has answered for
    every row.  An attempt that gets its bulk answer has made exactly one
    bulk write and regroups the answer into one group per row. *)
Theorem changes_called_in_row_order batch extraDocs w r w' d :
  runChanges batch extraDocs w = Some (r, w', d) →
  changesCalls d `prefix_of` changesArgs extraDocs batch ∧
  (∀ pre row docs e post,
     d = pre ++ EvChanges row docs (Some e) :: post →
     post = [] ∧ r = inl e ∧ bulks d = []) ∧
  length (bulks d) ≤ 1 ∧
  (bulks d ≠ [] → changesCalls d = changesArgs extraDocs batch) ∧
  (∀ results, r = inr results →
     length results = length batch ∧ length (bulks d) = 1).
Proof.
  intros Hrun. pose proof (runChanges_calls _ _ _ _ _ _ Hrun) as (H1 & H2 & H3 & H4).
  split; [done|]. split; [|done].
  intros pre row docs e post Heq.
  destruct (failed_call_is_last _ _ _ _ _ _ _ _ e (sound_runChanges batch extraDocs)
              Hrun Heq eq_refl) as [-> ->].
  split; [done|]. split; [done|].
  revert Hrun. unfold runChanges.
  intros [(e0 & _ & H)|(cs & w1 & d1 & d2 & _ & H & Hd)]%bind_inv.
  - by apply timesSeries_changes_calls in H as (_ & Hb & _).
  - exfalso. assert (∃ docs' f, d2 = [EvBulk docs' f]) as (docs' & f & ->).
    { apply bind_inv in H as [(e0 & _ & H)|(res & w2 & d3 & d4 & H' & H'' & ->)].
      - injection H as _ _ <-. by eexists _, _.
      - injection H' as _ _ <-. injection H'' as _ _ <-. by eexists _, _. }
    rewrite Heq in Hd. apply (f_equal last) in Hd. by rewrite !last_snoc in Hd.
Qed.

(** ** [processBatch] *)

Lemma attempt_bulks_le batch w r w1 d1 :
  attempt batch w = Some (r, w1, d1) → length (bulks d1) ≤ 1.
Proof.
  unfold attempt.
  intros [(e & -> & H)|(x & w2 & d2 & d3 & H1 & H2 & ->)]%bind_inv.
  - assert (bulks d1 = []) as ->; [|cbn; lia].
    apply omap_all_None. eapply list.Forall_impl.
    + eapply (emits_fetchExtraDocs (λ ev, bulks [ev] = [])); [done|apply H].
    + by intros [].
  - assert (bulks d2 = []) as Hd2.
    { apply omap_all_None. eapply list.Forall_impl.
      - eapply (emits_fetchExtraDocs (λ ev, bulks [ev] = [])); [done|apply H1].
      - by intros []. }
    rewrite bulks_app, Hd2. by apply runChanges_calls in H2 as (_ & Hle & _).
Qed.

(** X6: a sub-batch is written at most [retries + 1] times, the first
    attempt included, whatever the store answers; with [retry] attempts
    already made, at most [retries - retry + 1] bulk writes follow.  The
    progress bar is ticked at most once per bulk write. *)
Theorem at_most_retries_plus_one_writes more batch retry w r w' d :
  processBatch more batch retry w = Some (r, w', d) →
  retry ≤ retries →
  length (bulks d) ≤ S (retries - retry) ∧
  length (ticks d) ≤ length (bulks d).
Proof.
  revert batch retry w d.
  induction more as [|more IH]; intros batch retry w d H Hretry.
  all: apply processBatch_cases in H
    as [(e & -> & Ha & _)|(res & w1 & d1 & Ha & Hcases)].
  all: pose proof (attempt_ticks _ _ _ _ _ Ha) as [Ht _].
  all: pose proof (attempt_bulks_le _ _ _ _ _ Ha) as Hb.
  all: try (rewrite Ht; cbn; lia).
  all: pose proof (attempt_bulks _ _ _ _ _ Ha) as Hb1.
  all: cbn zeta in Hcases.
  all: destruct Hcases as [(_ & -> & -> & -> & _)|[(_ & _ & -> & -> & -> & _)|
         (_ & Hlt & more' & d3 & Hm & Hrec & -> & _)]].
  all: rewrite bulks_app, ticks_app, Ht, !length_app, Hb1; cbn [app].
  all: try discriminate.
  all: repeat match goal with
       | |- context [bulks (tickOf ?n ?w :: ?l)] =>
           change (bulks (tickOf n w :: l)) with (bulks l)
       | |- context [ticks (tickOf ?n ?w :: ?l)] =>
           change (ticks (tickOf n w :: l)) with (n :: ticks l)
       end.
  all: rewrite ?bulks_conflictFailures, ?ticks_conflictFailures; cbn [length].
  all: try (cbn; lia).
  injection Hm as <-. apply IH in Hrec as [Hb3 Ht3]; lia.
Qed.

(** ** [getExtraKeyInfo] *)

Lemma keyCalls_app d1 d2 : keyCalls (d1 ++ d2) = keyCalls d1 ++ keyCalls d2.
Proof. apply omap_app. Qed.

Lemma mapSeries_fetchKeys_calls f batch w r w' d :
  options_fetchKeys options = Some f →
  mapSeries fetchKeysFn batch w = Some (r, w', d) →
  Forall isFetchKeys d ∧ keyCalls d `prefix_of` batch ∧
  ∀ ks, r = inr ks → keyCalls d = batch.
Proof.
  intros Hf. unfold fetchKeysFn. rewrite Hf. revert w r w' d.
  induction batch as [|row rest IH]; intros w r w' d; cbn [mapSeries].
  - intros [= <- <- <-]. by repeat split.
  - intros [(e & -> & H)|(c & w1 & d1 & d2 & H1 & H2 & ->)]%bind_inv.
    + apply invoke_inv in H as (s & _ & _ & ->). split; [by repeat constructor|].
      split; [apply prefix_cons, prefix_nil|by intros ks [=]].
    + apply invoke_inv in H1 as (s & _ & _ & ->). rewrite keyCalls_app.
      match goal with |- context [keyCalls [?ev]] =>
        change (keyCalls [ev]) with [row]
      end.
      cbn [app].
      apply bind_inv in H2 as [(e & -> & H)|(bs & w2 & d3 & d4 & H3 & H4 & ->)].
      * apply IH in H as (Hall & Hp & _). split; [by constructor|].
        split; [by apply prefix_cons|by intros ks [=]].
      * injection H4 as <- <- <-. apply IH in H3 as (Hall & _ & Heq).
        rewrite (right_id_L [] (++)), (Heq bs eq_refl).
        split; [by constructor|]. split; [done|by intros ks _].
Qed.

(** X8: with a [fetchKeys] callback, a sub-batch starts with the calls
    of [fetchKeys], one per row in batch order, before anything else
    happens, and [fetchKeys] is not called again later.  When the calls
    stop before the last row, a call has failed: nothing follows it (no
    multi-get, no [changes], no bulk write, no tick) and the sub-batch
    ends with the error. *)
Theorem fetchKeys_runs_first_once_per_row f batch w r w' d :
  options_fetchKeys options = Some f →
  getExtraKeyInfo batch w = Some (r, w', d) →
  ∃ d1 d2, d = EvSubBatch batch :: d1 ++ d2 ∧
    Forall isFetchKeys d1 ∧ Forall (λ ev, ¬ isFetchKeys ev) d2 ∧
    keyCalls d1 `prefix_of` batch ∧
    (keyCalls d1 ≠ batch → d2 = [] ∧ ∃ e, r = inl e).
Proof.
  intros Hf. unfold getExtraKeyInfo.
  intros [(e & _ & [=])|([] & w1 & d0 & d' & H0 & H & ->)]%bind_inv.
  injection H0 as <- <-.
  apply bind_inv in H as [(e & -> & H)|(ks & w2 & d1 & d2 & H1 & H2 & ->)].
  - destruct (mapSeries_fetchKeys_calls f _ _ _ _ _ Hf H) as (Hall & Hp & _).
    exists d', []. rewrite (right_id_L [] (++)).
    split; [done|]. split; [done|]. split; [done|]. split; [done|]. eauto.
  - destruct (mapSeries_fetchKeys_calls f _ _ _ _ _ Hf H1) as (Hall & Hp & Heq).
    exists d1, d2. split; [done|]. split; [done|].
    split; [by eapply processBatch_no_fetchKeys|]. split; [done|].
    intros Hne. destruct Hne. by apply (Heq ks).
Qed.

(** ** The multi-get of [processBatch] *)

(** X9: when the multi-get answers one document (or a missing one) per
    key, in key order, regrouping hands every row the documents of its
    own keys, in the order of its keys. *)
Theorem rows_get_their_own_documents batch (groups : list (list (option Doc))) :
  Forall2 (λ row g, length g = length (extraKeys row)) batch groups →
  regroupDocs (concat groups) batch = groups.
Proof.
  intros H. unfold regroupDocs.
  replace ((λ ks, Some (length ks)) <$> (extraKeys <$> batch))
    with ((λ g : list (option Doc), Some (length g)) <$> groups).
  - apply (unflatten_from_groups []).
  - induction H as [|row g batch' groups' Hlen _ IH]; cbn; [done|].
    by rewrite Hlen, IH.
Qed.

Lemma unflatten_from_empty_group {A} (array : list A) (lens : list nat) i j :
  lens !! i = Some 0 → unflatten_from array (Some j) (Some <$> lens) !! i = Some [].
Proof.
  revert i j. induction lens as [|c cs IH]; intros [|i] j; cbn; try done.
  - intros [= ->]. by rewrite take_0.
  - apply IH.
Qed.

Lemma changesArgsFrom_lookup extraDocs j batch i :
  changesArgsFrom extraDocs j batch !! i
  = (λ row, (row, extraDocs !! (j + i))) <$> batch !! i.
Proof.
  revert i j. induction batch as [|row rest IH]; intros [|i] j; cbn; try done.
  - by rewrite Nat.add_0_r.
  - rewrite IH. by replace (S j + i) with (j + S i) by lia.
Qed.

(** X10: in a batch that goes through the multi-get, a row without
    extra keys is handed the empty array for its documents, whatever the
    multi-get answered (and not [undefined], which is what it is handed
    when no row of the batch has keys). *)
Theorem row_without_keys_gets_empty_list docs batch i row :
  batch !! i = Some row → extraKeys row = [] →
  changesArgs (regroupDocs docs batch) batch !! i = Some (row, Some []).
Proof.
  intros Hi Hkeys. unfold changesArgs. rewrite changesArgsFrom_lookup, Hi. cbn.
  do 2 f_equal. unfold regroupDocs, unflatten.
  replace ((λ ks, Some (length ks)) <$> (extraKeys <$> batch))
    with (Some <$> (length <$> (extraKeys <$> batch)))
    by (by rewrite <-!list_fmap_compose).
  apply unflatten_from_empty_group.
  by rewrite !list_lookup_fmap, Hi; cbn; rewrite Hkeys.
Qed.

(** ** The row filter *)

Lemma ext_only_filterRows f rows : ext_only (filterRows f rows).
Proof.
  induction rows as [|row rows IH]; [apply ext_only_ret|].
  cbn [filterRows]. apply ext_only_bind.
  - intros w r w' d. rewrite keepRow_eq. by intros [= <- <- <-].
  - intros keep. apply ext_only_bind; [done|]. intros kept. apply ext_only_ret.
Qed.

(** X11: the row filter never ends with an error, whatever the callback
    does: it keeps a sub-sequence of the page, reports a sub-sequence of
    the page as failed (the rows whose callback threw), keeps no row it
    reports, and touches the outside world only -- the budget, the
    cursor and the counters stay as they are. *)
Theorem filter_never_aborts f rows w :
  ∃ kept w' d, filterRows f rows w = Some (inr kept, w', d) ∧
    kept `sublist_of` rows ∧ failures d `sublist_of` rows ∧
    length kept + length (failures d) ≤ length rows ∧
    Forall isFailure d ∧ w' = set_ext (ext w') w.
Proof.
  assert (∃ kept w' d, filterRows f rows w = Some (inr kept, w', d) ∧
    kept `sublist_of` rows ∧ failures d `sublist_of` rows ∧
    length kept + length (failures d) ≤ length rows ∧
    Forall isFailure d) as (kept & w' & d & Hrun & Hrest).
  { revert w. induction rows as [|row rows IH]; intros w.
    - exists [], w, []. by repeat split.
    - cbn [filterRows]. rewrite (bind_ok _ _ _ _ _ _ (keepRow_eq f row w)).
      destruct (IH (set_ext (f row (ext w)).2 w))
        as (kept & w' & d & Hrun & Hk & Hf & Hlen & Hd).
      rewrite (bind_ok _ _ _ _ _ _ Hrun). cbn. rewrite (right_id_L [] (++)).
      eexists _, _, _. split; [reflexivity|]. rewrite failures_app.
      destruct (f row (ext w)).1 as [e|[|]]; cbn.
      + split; [by apply sublist_cons|]. split; [by apply sublist_skip|].
        split; [lia|]. by repeat constructor.
      + split; [by apply sublist_skip|]. split; [by apply sublist_cons|].
        split; [lia|done].
      + split; [by apply sublist_cons|]. split; [by apply sublist_cons|].
        split; [lia|done]. }
  exists kept, w', d. split; [done|]. repeat split; try apply Hrest.
  by eapply ext_only_filterRows.
Qed.

(** ** The row budget of the batch handler *)

(** X12: with a budget of [l ≥ 0] rows left, the rows that go on are the
    first [l] rows of the (filtered) page, and the budget that is left is
    [l] less the size of the page, but not less than [0]: the budget
    never becomes negative. *)
Theorem budget_never_negative rows w l :
  limit w = Some l → (0 ≤ l)%Z →
  applyLimit rows w
  = Some (inr (take (Z.to_nat l) rows),
          set_limit (Some (Z.max 0 (l - Z.of_nat (length rows)))) w, []).
Proof.
  intros Hl Hpos. unfold applyLimit. rewrite Hl.
  destruct (Z.ltb_spec (l - Z.of_nat (length rows)) 0) as [Hlt|Hge]; unfold ret.
  - unfold slice0. rewrite (proj2 (Z.ltb_ge _ _)) by lia.
    rewrite Z.max_l by lia.
    by replace (Z.of_nat (length rows) + (l - Z.of_nat (length rows)))%Z
      with l by lia.
  - rewrite Z.max_r by lia. by rewrite take_ge by lia.
Qed.

(** ** The sub-batches of a page *)

Lemma emits_no_subBatch batch :
  emits (λ ev, ¬ isSubBatch ev)
    (let* keysByRow := mapSeries fetchKeysFn batch in
     processBatch retries
       (zip_with (λ row keys, set_extraKeys row (flattenKeys keys)) batch keysByRow)
       0).
Proof.
  apply emits_bind.
  - apply emits_mapSeries. intros row. unfold fetchKeysFn.
    destruct (options_fetchKeys options) as [f|]; [|apply emits_ret].
    apply emits_invoke. by intros x [].
  - intros keysByRow.
    apply (emits_processBatch _ (λ _, True));
      [done| |by intros n x y []|by intros row []|done].
    intros b _. eapply emits_impl; [|apply emits_attempt_calls].
    intros []; cbn; tauto.
Qed.

Lemma getExtraKeyInfo_subBatches batch w r w' d :
  getExtraKeyInfo batch w = Some (r, w', d) → subBatches d = [batch].
Proof.
  unfold getExtraKeyInfo.
  intros [(e & _ & [=])|([] & w1 & d0 & d' & H0 & H & ->)]%bind_inv.
  injection H0 as <- <-. apply emits_no_subBatch in H.
  change (subBatches ([EvSubBatch batch] ++ d')) with (batch :: subBatches d').
  f_equal. apply omap_all_None. eapply List.Forall_impl; [|exact H].
  intros []; cbn; tauto.
Qed.

(** X13: the sub-batches of a page are cut from it in order: none is
    empty and none has more than [batchSize] rows; together, in order,
    they are a beginning of the page and, when the loop ends without an
    error, the whole page, in [⌈rows / batchSize⌉] sub-batches. *)
Theorem sub_batches_partition_page more rows count w r w' d :
  whilst more rows count w = Some (r, w', d) →
  Forall (λ b, 0 < length b ≤ batchSize) (subBatches d) ∧
  concat (subBatches d) `prefix_of` drop count rows ∧
  (r = inr tt →
   concat (subBatches d) = drop count rows ∧
   length (subBatches d) = ceil_div (length rows - count) batchSize).
Proof.
  pose proof batchSize_pos as Hbs.
  revert count w r w' d.
  induction more as [|more IH]; intros count w r w' d; cbn [whilst];
    case_bool_decide as Hc.
  - done.
  - intros [= <- <- <-]. rewrite drop_ge by lia. split; [done|]. split; [done|].
    intros _. split; [done|]. replace (length rows - count) with 0 by lia.
    by rewrite ceil_div_0.
  - set (batch := take batchSize (drop count rows)).
    assert (0 < length batch ≤ batchSize) as Hbatch.
    { unfold batch. rewrite length_take, length_drop. lia. }
    assert (drop count rows = batch ++ drop (count + batchSize) rows) as Hsplit.
    { unfold batch. by rewrite <-drop_drop, take_drop. }
    intros [(e & -> & H)|([] & w1 & d1 & d2 & H1 & H2 & ->)]%bind_inv.
    + apply getExtraKeyInfo_subBatches in H. rewrite H. cbn.
      rewrite (right_id_L [] (++)). split; [by constructor|].
      split; [|done]. rewrite Hsplit. by apply prefix_app_r.
    + apply getExtraKeyInfo_subBatches in H1. rewrite subBatches_app, H1.
      apply IH in H2 as (Hall & Hpre & Heq). cbn [app concat].
      split; [by constructor|]. split.
      * rewrite Hsplit. by apply prefix_app.
      * intros Hr. destruct (Heq Hr) as [Hcat Hlen]. rewrite Hcat.
        split; [done|]. cbn [length]. rewrite Hlen.
        destruct (decide (length rows - count ≤ batchSize)) as [Hle|Hgt].
        -- rewrite (ceil_div_small (length rows - count)) by lia.
           replace (length rows - (count + batchSize)) with 0 by lia.
           by rewrite ceil_div_0.
        -- rewrite (ceil_div_step (length rows - count)) by lia.
           by replace (length rows - (count + batchSize))
             with (length rows - count - batchSize) by lia.
  - intros [= <- <- <-]. rewrite drop_ge by lia. split; [done|]. split; [done|].
    intros _. split; [done|]. replace (length rows - count) with 0 by lia.
    by rewrite ceil_div_0.
Qed.

Lemma mapSeries_length {A B} (fn : A → M B) arr w bs w' d :
  mapSeries fn arr w = Some (inr bs, w', d) → length bs = length arr.
Proof.
  revert w bs w' d. induction arr as [|a rest IH]; intros w bs w' d; cbn [mapSeries].
  - by intros [= <- _ _].
  - intros [(e & [=] & _)|(b & w1 & d1 & d2 & H1 & H2 & ->)]%bind_inv.
    apply bind_inv in H2 as [(e & [=] & _)|(bs' & w2 & d3 & d4 & H3 & H4 & ->)].
    injection H4 as <- _ _. cbn. f_equal. by eapply IH.
Qed.

Lemma getExtraKeyInfo_counts batch w r w' d :
  getExtraKeyInfo batch w = Some (r, w', d) →
  (realcurrent w' + Z.of_nat (length (failures d))
   ≤ realcurrent w + Z.of_nat (length batch))%Z ∧
  (r = inr tt →
   (realcurrent w' + Z.of_nat (length (failures d))
    = realcurrent w + Z.of_nat (length batch))%Z).
Proof.
  unfold getExtraKeyInfo.
  intros [(e & _ & [=])|([] & w1 & d0 & d' & H0 & H & ->)]%bind_inv.
  injection H0 as <- <-.
  assert (ext_only (mapSeries fetchKeysFn batch)) as Hext.
  { apply ext_only_mapSeries. intros row. unfold fetchKeysFn.
    destruct (options_fetchKeys options); [apply ext_only_invoke|apply ext_only_ret]. }
  assert (emits (λ ev, failures [ev] = []) (mapSeries fetchKeysFn batch)) as Hem.
  { apply emits_mapSeries. intros row. unfold fetchKeysFn.
    destruct (options_fetchKeys options); [by apply emits_invoke|apply emits_ret]. }
  rewrite failures_app. change (failures [EvSubBatch batch]) with (@nil Row).
  cbn [app].
  assert (∀ d0, Forall (λ ev, failures [ev] = []) d0 → failures d0 = []) as Hnone.
  { intros d0 Hd0. apply omap_all_None. eapply List.Forall_impl; [|exact Hd0].
    by intros []. }
  apply bind_inv in H as [(e & -> & H)|(ks & w2 & d1 & d2 & H1 & H2 & ->)].
  - pose proof (Hext _ _ _ _ H) as Hw. apply Hem, Hnone in H. rewrite H, Hw. cbn.
    split; [lia|done].
  - pose proof (Hext _ _ _ _ H1) as Hw2. pose proof (Hem _ _ _ _ H1) as Hd1.
    apply Hnone in Hd1. apply mapSeries_length in H1.
    apply processBatch_counts in H2 as (_ & Hle & Heq).
    rewrite length_zip_with, H1, Nat.min_id in Hle, Heq.
    rewrite failures_app, Hd1. rewrite Hw2 in Hle, Heq. cbn in Hle, Heq.
    cbn [app]. done.
Qed.

(** X14: a page whose loop ends without a fatal error has counted each
    of its rows exactly once: what was added to [realcurrent] and the
    number of rows reported as failed add up to the number of rows the
    loop was given.  After a fatal error the two do not exceed it. *)
Theorem page_rows_counted_once more rows count w r w' d :
  whilst more rows count w = Some (r, w', d) →
  (realcurrent w' + Z.of_nat (length (failures d))
   ≤ realcurrent w + Z.of_nat (length rows - count))%Z ∧
  (r = inr tt →
   (realcurrent w' + Z.of_nat (length (failures d))
    = realcurrent w + Z.of_nat (length rows - count))%Z).
Proof.
  pose proof batchSize_pos as Hbs.
  revert count w r w' d.
  induction more as [|more IH]; intros count w r w' d; cbn [whilst];
    case_bool_decide as Hc.
  - done.
  - intros [= <- <- <-]. cbn. split; [lia|]. intros _. lia.
  - set (batch := take batchSize (drop count rows)).
    assert (length batch = Nat.min batchSize (length rows - count)) as Hbatch.
    { unfold batch. by rewrite length_take, length_drop. }
    intros [(e & -> & H)|([] & w1 & d1 & d2 & H1 & H2 & ->)]%bind_inv.
    + apply getExtraKeyInfo_counts in H as [Hle _]. split; [lia|done].
    + apply getExtraKeyInfo_counts in H1 as [_ Heq1]. specialize (Heq1 eq_refl).
      apply IH in H2 as [Hle2 Heq2]. rewrite failures_app, length_app.
      split; [lia|]. intros Hr. specialize (Heq2 Hr). lia.
  - intros [= <- <- <-]. cbn. split; [lia|]. intros _. lia.
Qed.

(** X15: a page of which the filter accepts no row (an empty page, when
    there is no filter) is counted as a batch and then skipped: the
    handler asks for the next page without a tick, without a sub-batch
    and without calling [complete], and leaves the budget, the cursor and
    [realcurrent] as they are -- also when the budget is [0]. *)
Theorem rejected_page_is_skipped keep rows w :
  filter_is keep →
  Forall (λ row, keep row = false) rows →
  (∀ l, limit w = Some l → (0 ≤ l)%Z) →
  ∃ w' d, batchHandler rows w = Some (inr Next, w', d) ∧
          Forall isFailure d ∧
          limit w' = limit w ∧ query w' = query w ∧
          realcurrent w' = realcurrent w ∧ batchno w' = (batchno w + 1)%Z.
Proof.
  intros Hkeep Hrej Hlim.
  assert (List.filter keep rows = []) as Hnil.
  { induction Hrej as [|row rows' Hrow _ IH]; cbn; [done|]. by rewrite Hrow. }
  set (w0 := set_batchno (batchno w + 1) w).
  assert (∃ w1 d1,
    match options_sourceFilter options with
    | Some f => filterRows f rows
    | None => ret rows
    end w0 = Some (inr [], w1, d1) ∧
    Forall isFailure d1 ∧ w1 = set_ext (ext w1) w0) as (w1 & d1 & Hrun1 & Hd1 & Hw1).
  { unfold filter_is in Hkeep. destruct (options_sourceFilter options) as [f|].
    - destruct (filterRows_pure f keep rows w0 Hkeep) as (w1 & d1 & H1 & H2 & _).
      rewrite Hnil in H1. exists w1, d1. split; [done|]. split; [done|].
      by eapply ext_only_filterRows.
    - exists w0, []. rewrite <-Hnil, (filter_all _ _ Hkeep). by repeat split. }
  unfold batchHandler. unfold bind at 1. unfold update at 1. cbn iota beta.
  fold w0. rewrite (bind_ok _ _ _ _ _ _ Hrun1).
  unfold bind at 1. unfold applyLimit at 1.
  assert (limit w1 = limit w) as Hl1 by (by rewrite Hw1).
  rewrite Hl1. destruct (limit w) as [l|] eqn:Hl.
  - specialize (Hlim l eq_refl). cbn [length].
    rewrite (proj2 (Z.ltb_ge _ _)) by lia. cbn.
    eexists _, _. split; [reflexivity|]. rewrite !(right_id_L [] (++)).
    split; [done|]. rewrite Hw1. cbn. split; [f_equal; lia|done].
  - cbn. eexists _, _. split; [reflexivity|]. rewrite !(right_id_L [] (++)).
    split; [done|]. rewrite Hw1. cbn. done.
Qed.

(** ** [complete] *)

(** X16: every migration that finishes calls [complete] exactly once,
    as the last thing it does. *)
Theorem complete_called_exactly_once fuel w w' d :
  run fuel w = Some (w', d) →
  ∃ d0 e, d = d0 ++ [EvComplete e] ∧ Forall (λ ev, ¬ isComplete ev) d0.
Proof.
  intros [(d0 & -> & Hq)|(d0 & e & -> & (d' & ev & -> & Hq & Hf))]%run_completed.
  - exists d0, None. split; [done|].
    eapply List.Forall_impl; [|exact Hq]. by intros ev [_ ?].
  - exists (d' ++ [ev]), (Some e). split; [done|]. apply Forall_app. split.
    + eapply List.Forall_impl; [|exact Hq]. by intros ev' [_ ?].
    + constructor; [|done]. destruct ev; cbn in *; first [tauto|discriminate].
Qed.

(** ** A [changes] callback that asks for no write *)

Lemma timesSeries_changes_nothing (extraDocs : list (list (option Doc)))
    batch i w r w' d :
  changes_nothing →
  timesSeries (λ j row, changesFn row (extraDocs !! j)) i batch w = Some (r, w', d) →
  ∃ cs, r = inr cs ∧ length cs = length batch ∧
        Forall (λ c, flattenChange c = [] ∧ isArrayOrNone c) cs.
Proof.
  intros Hnothing. revert i w r w' d.
  induction batch as [|row rest IH]; intros i w r w' d; cbn [timesSeries].
  - intros [= <- <- <-]. by exists [].
  - destruct (Hnothing row (extraDocs !! i) (ext w)) as (c & s' & Hc & Hflat & Harr).
    intros [(e & -> & H)|(c' & w1 & d1 & d2 & H1 & H2 & ->)]%bind_inv.
    + apply invoke_inv in H as (s & H & _). congruence.
    + apply invoke_inv in H1 as (s & H1 & _). rewrite Hc in H1. injection H1 as <- _.
      apply bind_inv in H2 as [(e & -> & H)|(bs & w2 & d3 & d4 & H3 & H4 & ->)].
      * apply IH in H as (cs & [=] & _).
      * injection H4 as <- _ _. apply IH in H3 as (cs & [= <-] & Hlen & Hall).
        exists (c :: bs). split; [done|]. split; [by cbn; rewrite Hlen|].
        by constructor.
Qed.

Lemma changes_nothing_counts (cs : list ChangesResult) :
  Forall (λ c, flattenChange c = [] ∧ isArrayOrNone c) cs →
  concat (flattenChange <$> (orEmpty <$> cs)) = [] ∧
  lengthOf <$> (orEmpty <$> cs) = replicate (length cs) (Some 0).
Proof.
  induction 1 as [|c cs' [Hc Harr] _ [IH1 IH2]]; cbn; [done|].
  rewrite IH1, IH2. destruct c as [|doc|ds]; cbn in *; [done|done|by rewrite Hc].
Qed.

Lemma unflatten_from_zero_counts {A} (array : list A) i n :
  unflatten_from array (Some i) (replicate n (Some 0)) = replicate n [].
Proof.
  induction n as [|n IH]; cbn; [done|].
  by rewrite take_0, Nat.add_0_r, IH.
Qed.

(** X17: when the [changes] callback asks for no write for any row (it
    answers nothing or an empty array), the bulk write is made all the
    same, with no documents, and whatever the store answers to it is
    regrouped into one empty group per row -- so no row is retried and
    every row counts as migrated. *)
Theorem empty_bulk_write_is_still_sent batch extraDocs w r w' d :
  changes_nothing →
  runChanges batch extraDocs w = Some (r, w', d) →
  bulks d = [[]] ∧
  ∀ results, r = inr results →
    results = replicate (length batch) [] ∧ conflicting batch results = [].
Proof.
  intros Hnothing. unfold runChanges.
  intros [(e & -> & H)|(cs & w1 & d1 & d2 & H1 & H2 & ->)]%bind_inv.
  { by apply (timesSeries_changes_nothing _ _ _ _ _ _ _ Hnothing)
      in H as (cs & [=] & _). }
  pose proof (timesSeries_changes_calls _ _ _ _ _ _ _ H1) as (_ & Hb & _).
  apply (timesSeries_changes_nothing _ _ _ _ _ _ _ Hnothing)
    in H1 as (cs' & [= <-] & Hlen & Hall).
  destruct (changes_nothing_counts cs Hall) as [Hflat Hcounts]. rewrite Hlen in Hcounts.
  rewrite Hflat, Hcounts in H2. rewrite bulks_app, Hb.
  apply bind_inv in H2 as [(e & -> & H)|(res & w2 & d3 & d4 & H3 & H4 & ->)].
  - injection H as _ _ <-. split; [done|]. by intros results [=].
  - injection H3 as _ _ <-. injection H4 as <- _ <-. split; [done|].
    intros results [= <-]. unfold unflatten. rewrite unflatten_from_zero_counts.
    split; [done|]. apply conflicting_noConflict.
    apply Forall_replicate. constructor.
Qed.

(** ** [getViewInBatches] over any store *)

Lemma nextBatch_requests d0 ddoc view size handler :
  keeps_query handler →
  ∀ fuel w r w' tr,
    nextBatch fuel d0 ddoc view size handler w = Some (r, w', tr) →
    head (views tr) = Some (query w) ∧
    last (views tr) = Some (query w') ∧
    Forall (λ p, p_limit p = p_limit (query w) ∧ p_rest p = p_rest (query w))
           (views tr) ∧
    Forall (λ page, length page ≤ size) (pages tr) ∧
    length (pages tr) ≤ length (views tr) ≤ S (length (pages tr)).
Proof.
  intros Hkeeps. induction fuel as [|fuel IH]; intros w r w' tr; [done|].
  cbn [nextBatch].
  intros [(e & -> & H)|(rows & w1 & d1 & d2 & H1 & H2 & ->)]%bind_inv.
  { injection H as _ <- <-. cbn. split; [done|]. split; [done|].
    split; [by repeat constructor|]. split; [done|lia]. }
  injection H1 as _ <- <-.
  apply bind_inv in H2 as [(e & _ & [=])|([] & w2 & d3 & d4 & H3 & H4 & ->)].
  injection H3 as <- <-.
  assert (length (take size rows) ≤ size) as Hpage by (rewrite length_take; lia).
  apply bind_inv in H4 as [(e & -> & H)|(signal & w3 & d5 & d6 & H5 & H6 & ->)].
  { apply Hkeeps in H as (Hq & Hv & Hp).
    destruct (round_trace ddoc view (query w) (failure_of (db_view d0 ddoc view (query w) (ext w)).1)
                (take size rows) d4 [] Hv Hp) as (_ & Hvs & Hps).
    rewrite (right_id_L [] (++)) in Hvs, Hps. cbn [app].
    rewrite Hvs, Hps, Hq. cbn. split; [done|]. split; [done|].
    split; [by repeat constructor|]. split; [by repeat constructor|lia]. }
  apply Hkeeps in H5 as (Hq & Hv & Hp).
  destruct (round_trace ddoc view (query w) (failure_of (db_view d0 ddoc view (query w) (ext w)).1)
              (take size rows) d5 d6 Hv Hp) as (_ & Hvs & Hps).
  cbn [app]. rewrite Hvs, Hps.
  assert (d6 = [] ∧ query w' = query w ∨
          ∃ next w4, nextBatch fuel d0 ddoc view size handler w4 = Some (r, w', d6) ∧
                     query w4 = advance next (query w)) as [[-> Hq']|(next & w4 & Hrec & Hq4)].
  { destruct signal; [|injection H6 as _ <- <-; by left].
    destruct (rows !! size) as [next|]; [|injection H6 as _ <- <-; by left].
    apply bind_inv in H6 as [(e & _ & [=])|([] & w4 & d7 & d8 & H7 & H8 & ->)].
    injection H7 as <- <-. right. exists next, (set_query (advance next (query w3)) w3).
    split; [done|]. cbn. by rewrite Hq. }
  - cbn. rewrite Hq'. split; [done|]. split; [done|].
    split; [by repeat constructor|]. split; [by repeat constructor|lia].
  - apply IH in Hrec as (Hhead & Hlast & Hall & Hpages & Hlen).
    rewrite Hq4 in Hhead, Hall. cbn in Hall.
    split; [done|]. split.
    + destruct (views d6) as [|p ps]; [done|]. by rewrite last_cons, Hlast.
    + split; [by constructor|]. split; [by constructor|]. cbn. lia.
Qed.

Lemma getViewInBatches_requests fuel d0 ddoc view size handler w r w' tr :
  keeps_query handler →
  getViewInBatches fuel d0 ddoc view size handler w = Some (r, w', tr) →
  head (views tr) = Some (with_limit (size + 1) (query w)) ∧
  last (views tr) = Some (query w') ∧
  Forall (λ p, p_limit p = Some (size + 1) ∧ p_rest p = p_rest (query w)) (views tr) ∧
  Forall (λ page, length page ≤ size) (pages tr) ∧
  length (pages tr) ≤ length (views tr) ≤ S (length (pages tr)).
Proof.
  intros Hkeeps. unfold getViewInBatches.
  intros [(e & _ & [=])|([] & w1 & d1 & d2 & H1 & H2 & ->)]%bind_inv.
  injection H1 as <- <-. cbn [app].
  by apply (nextBatch_requests _ _ _ _ _ Hkeeps) in H2.
Qed.

Lemma scanEvents_app d1 d2 : scanEvents (d1 ++ d2) = scanEvents d1 ++ scanEvents d2.
Proof. apply omap_app. Qed.

Lemma scanEvents_none d : views d = [] → pages d = [] → scanEvents d = [].
Proof.
  induction d as [|ev d IH]; [done|].
  destruct ev; cbn; try done; apply IH.
Qed.

(** The requests and the pages of a scan alternate: every request that
    is answered is followed by its page, and a request that fails ends
    the scan with its error. *)
Lemma nextBatch_alternates d0 ddoc view size handler :
  keeps_query handler →
  ∀ fuel w r w' tr,
    nextBatch fuel d0 ddoc view size handler w = Some (r, w', tr) →
    ∃ pps failed,
      scanEvents tr = served ddoc view pps ++ failed ∧
      (failed = [] ∨ ∃ p e, failed = [EvView ddoc view p (Some e)] ∧ r = inl e).
Proof.
  intros Hkeeps. induction fuel as [|fuel IH]; intros w r w' tr; [done|].
  cbn [nextBatch].
  intros [(e & -> & H)|(rows & w1 & d1 & d2 & H1 & H2 & ->)]%bind_inv.
  { injection H as Hr _ <-. rewrite Hr. exists [], [EvView ddoc view (query w) (Some e)].
    split; [done|]. right. by eexists _, _. }
  injection H1 as Hr <- <-. rewrite Hr.
  apply bind_inv in H2 as [(e & _ & [=])|([] & w2 & d3 & d4 & H3 & H4 & ->)].
  injection H3 as <- <-.
  apply bind_inv in H4 as [(e & -> & H)|(signal & w3 & d5 & d6 & H5 & H6 & ->)].
  { apply Hkeeps in H as (_ & Hv & Hp).
    exists [(query w, take size rows)], []. split; [|by left].
    rewrite !scanEvents_app, (scanEvents_none d4 Hv Hp). done. }
  apply Hkeeps in H5 as (_ & Hv & Hp).
  assert (scanEvents d6 = [] ∨
          ∃ w4, nextBatch fuel d0 ddoc view size handler w4 = Some (r, w', d6))
    as [Hd6|(w4 & Hrec)].
  { destruct signal; [|injection H6 as _ _ <-; by left].
    destruct (rows !! size) as [next|]; [|injection H6 as _ _ <-; by left].
    apply bind_inv in H6 as [(e & _ & [=])|([] & w4 & d7 & d8 & H7 & H8 & ->)].
    injection H7 as <- <-. right. by eexists. }
  - exists [(query w, take size rows)], []. split; [|by left].
    rewrite !scanEvents_app, (scanEvents_none d5 Hv Hp), Hd6. done.
  - apply IH in Hrec as (pps & failed & Hscan & Hfailed).
    exists ((query w, take size rows) :: pps), failed. split; [|done].
    rewrite !scanEvents_app, (scanEvents_none d5 Hv Hp), Hscan. done.
Qed.

(** The batch handler of [module.exports] is such a handler: it never
    touches [sourceParams] and does not scan. *)
Lemma emits_batchHandler_not_scan rows :
  emits (λ ev, ¬ isScan ev) (batchHandler rows).
Proof.
  assert (∀ more rows count, emits (λ ev, ¬ isScan ev) (whilst more rows count))
    as Hwhilst.
  { induction more as [|more IH]; intros rows' count; cbn [whilst];
      case_bool_decide; try apply emits_ret.
    { by intros w r w' d. }
    apply emits_bind; [|by intros _].
    unfold getExtraKeyInfo. apply emits_bind; [by apply emits_log; intros []|].
    intros _. apply emits_bind.
    - apply emits_mapSeries. intros row. unfold fetchKeysFn.
      destruct (options_fetchKeys options) as [f|]; [|apply emits_ret].
      apply emits_invoke. by intros x [].
    - intros keysByRow.
      apply (emits_processBatch _ (λ _, True));
        [done| |by intros n x y []|by intros row []|done].
      intros b _. eapply emits_impl; [|apply emits_attempt_calls].
      intros []; cbn; tauto. }
  unfold batchHandler. apply emits_bind; [apply emits_update|]. intros _.
  apply emits_bind.
  { destruct (options_sourceFilter options) as [f|]; [|apply emits_ret].
    intros w r w' d H.
    destruct (filterRows_ok f rows w) as (kept & w2 & d2 & Hk & _ & Hd).
    rewrite Hk in H. injection H as _ _ <-.
    eapply List.Forall_impl; [|exact Hd]. intros []; cbn; tauto. }
  intros rows1. apply emits_bind.
  { intros w r w' d. unfold applyLimit.
    destruct (limit w) as [l|]; [destruct (_ <? 0)%Z|]; by intros [= _ _ <-]. }
  intros rows2. case_bool_decide; [apply emits_ret|].
  apply emits_bind; [by apply emits_tick; intros a b []|]. intros _.
  intros w r w' d. unfold finish.
  destruct (whilst _ _ _ w) as [[[r1 w1] d1]|] eqn:Hrun; [|done].
  apply Hwhilst in Hrun. case_bool_decide.
  - intros [= _ _ <-]. apply Forall_app. split; [done|].
    constructor; [by intros []|done].
  - destruct r1 as [e|[]]; by intros [= _ _ <-].
Qed.

Lemma batchHandler_query rows w r w' d :
  batchHandler rows w = Some (r, w', d) → query w' = query w.
Proof.
  assert (∀ more rows count w r w' d,
    whilst more rows count w = Some (r, w', d) → query w' = query w) as Hwhilst.
  { induction more as [|more IH]; intros rows' count w0 r0 w0' d0; cbn [whilst];
      case_bool_decide; try (by intros [= _ <- _]).
    intros [(e & -> & Hg)|([] & w1 & d1 & d2 & H1 & H2 & ->)]%bind_inv.
    - by apply keeps_scan_getExtraKeyInfo in Hg as [? _].
    - apply keeps_scan_getExtraKeyInfo in H1 as [<- _]. by eapply IH. }
  unfold batchHandler.
  intros [(e & _ & [=])|([] & w1 & d1 & d2 & H1 & H2 & ->)]%bind_inv.
  injection H1 as <- _.
  assert (∀ rows1 w2 d3,
    match options_sourceFilter options with
    | Some f => filterRows f rows
    | None => ret rows
    end (set_batchno (batchno w + 1) w) = Some (rows1, w2, d3) →
    query w2 = query w) as Hfilter.
  { intros rows1 w2 d3. destruct (options_sourceFilter options) as [f|].
    - intros H%ext_only_filterRows. by rewrite H.
    - by intros [= _ <- _]. }
  apply bind_inv in H2 as [(e & -> & H)|(rows1 & w2 & d3 & d4 & H3 & H4 & ->)].
  { by apply Hfilter in H. }
  apply Hfilter in H3 as <-.
  assert (∀ rows2 w3 d5, applyLimit rows1 w2 = Some (rows2, w3, d5) →
                         query w3 = query w2) as Hlimit.
  { intros rows2 w3 d5. unfold applyLimit.
    destruct (limit w2) as [l|]; [destruct (_ <? 0)%Z|]; by intros [= _ <- _]. }
  apply bind_inv in H4 as [(e & -> & H)|(rows2 & w3 & d5 & d6 & H5 & H6 & ->)].
  { by apply Hlimit in H. }
  apply Hlimit in H5 as <-.
  revert H6. case_bool_decide; [by intros [= _ <- _]|].
  intros [(e & _ & [=])|([] & w4 & d7 & d8 & H7 & H8 & ->)]%bind_inv.
  injection H7 as <- _. revert H8. unfold finish.
  destruct (whilst _ _ _ w3) as [[[r1 w5] d9]|] eqn:Hrun; [|done].
  apply Hwhilst in Hrun. case_bool_decide.
  - by intros [= _ <- _].
  - destruct r1 as [e|[]]; by intros [= _ <- _].
Qed.

Lemma batchHandler_keeps_query : keeps_query batchHandler.
Proof.
  intros rows w r w' d H. split; [by eapply batchHandler_query|].
  apply not_scan_views. by eapply emits_batchHandler_not_scan.
Qed.

(** X18: over any store, and for any batch handler that leaves the
    params object alone: the first request is the caller's query with
    only [limit] overwritten, every request asks for [batchSize + 1] rows
    and carries the caller's other parameters unchanged, a page handed to
    the handler never has more than [batchSize] rows (even when the store
    answers more rows than were asked for), and a page is handed over
    after every request but a failed one: the requests and the pages of
    the trace, in order, are requests that were answered, each followed
    at once by its page, and then at most one request that failed, which
    ends the scan with its error. *)
Theorem scan_overwrites_limit_only fuel d0 ddoc view size handler w r w' tr :
  keeps_query handler →
  getViewInBatches fuel d0 ddoc view size handler w = Some (r, w', tr) →
  head (views tr) = Some (with_limit (size + 1) (query w)) ∧
  Forall (λ p, p_limit p = Some (size + 1) ∧ p_rest p = p_rest (query w)) (views tr) ∧
  Forall (λ page, length page ≤ size) (pages tr) ∧
  length (pages tr) ≤ length (views tr) ≤ S (length (pages tr)) ∧
  ∃ pps failed,
    scanEvents tr = served ddoc view pps ++ failed ∧
    (failed = [] ∨ ∃ p e, failed = [EvView ddoc view p (Some e)] ∧ r = inl e).
Proof.
  intros Hkeeps H.
  pose proof (getViewInBatches_requests _ _ _ _ _ _ _ _ _ _ Hkeeps H)
    as (Hhead & _ & Hviews & Hpages & Hcount).
  repeat (split; [done|]).
  revert H. unfold getViewInBatches.
  intros [(e & _ & [=])|([] & w1 & d1 & d2 & H1 & H2 & ->)]%bind_inv.
  injection H1 as <- <-. cbn [app].
  by apply (nextBatch_alternates _ _ _ _ _ Hkeeps) in H2.
Qed.

(** X19: however a scan ends -- at the end of the view, because the
    handler stopped it, or with an error of the store or of the handler
    -- the shared params object is left holding the last query that was
    sent: the cursor is not moved past a page that was not processed to
    its end. *)
Theorem params_hold_last_request fuel d0 ddoc view size handler w r w' tr :
  keeps_query handler →
  getViewInBatches fuel d0 ddoc view size handler w = Some (r, w', tr) →
  last (views tr) = Some (query w').
Proof.
  intros Hkeeps H.
  by apply (getViewInBatches_requests _ _ _ _ _ _ _ _ _ _ Hkeeps) in H as (_ & ? & _).
Qed.

(** ** A migration without a row budget *)

Lemma batchHandler_unlimited keep rows w :
  reliable → filter_is keep → limit w = None →
  ∃ w' d,
    batchHandler rows w = Some (inr Next, w', d) ∧
    concat (subBatches d) = List.filter keep rows ∧
    views d = [] ∧ pages d = [] ∧ query w' = query w ∧ limit w' = None.
Proof.
  intros Hrel Hkeep Hlim. set (kept := List.filter keep rows).
  set (w0 := set_batchno (batchno w + 1) w).
  assert (∃ w1 d1,
    match options_sourceFilter options with
    | Some f => filterRows f rows
    | None => ret rows
    end w0 = Some (inr kept, w1, d1) ∧
    Forall isFailure d1 ∧ query w1 = query w ∧ limit w1 = None)
    as (w1 & d1 & Hrun1 & Hd1 & Hq1 & Hl1).
  { unfold filter_is in Hkeep. destruct (options_sourceFilter options) as [f|].
    - destruct (filterRows_pure f keep rows w0 Hkeep) as (w1 & d1 & H1 & H2 & H3 & H4).
      exists w1, d1. repeat split; try done. by rewrite H4.
    - exists w0, []. unfold kept. rewrite (filter_all _ _ Hkeep). by repeat split. }
  destruct (not_scan_views d1) as [Hv1 Hp1].
  { eapply List.Forall_impl; [|exact Hd1]. intros []; cbn; tauto. }
  pose proof (isFailure_subBatches d1 Hd1) as Hs1.
  unfold batchHandler. unfold bind at 1. unfold update at 1. cbn iota beta.
  fold w0. rewrite (bind_ok _ _ _ _ _ _ Hrun1).
  unfold bind at 1. unfold applyLimit at 1. rewrite Hl1. cbn.
  case_bool_decide as Hempty.
  - exists w1, d1. cbn. rewrite !(right_id_L [] (++)), Hs1.
    split; [done|]. split; [|done]. symmetry. by apply nil_length_inv.
  - destruct (whilst_reliable (length kept) kept 0 w1 Hrel ltac:(lia))
      as (w3 & d3 & Hrun3 & Hsub3 & Hev3 & Hq3 & Hl3).
    unfold bind at 1. unfold tick at 1. cbn. unfold finish. rewrite Hrun3.
    rewrite bool_decide_eq_false_2 by (rewrite Hl1; discriminate).
    destruct (not_scan_views d3) as [Hv3 Hp3].
    { eapply List.Forall_impl; [|exact Hev3]. apply pageEvent_not_scan. }
    eexists _, _. split; [reflexivity|].
    split.
    { rewrite subBatches_app, Hs1. cbn.
      change (omap _ d3) with (subBatches d3). by rewrite Hsub3, drop_0. }
    split.
    { unfold views in *. rewrite omap_app, Hv1. cbn. exact Hv3. }
    split.
    { unfold pages in *. rewrite omap_app, Hp1. cbn. exact Hp3. }
    split; congruence.
Qed.

Lemma nextBatch_unlimited keep ddoc view p0 V size :
  0 < size → reliable → filter_is keep → serves db ddoc view p0 V size →
  ∀ fuel i w,
    cursor p0 V size (query w) i →
    limit w = None →
    i = 0 ∨ i < length V →
    max 1 (ceil_div (length V - i) size) ≤ fuel →
    ∃ w' tr,
      nextBatch fuel db ddoc view size batchHandler w = Some (inr Next, w', tr) ∧
      concat (subBatches tr) = List.filter keep (drop i V) ∧
      concat (pages tr) = drop i V ∧
      length (views tr) = max 1 (ceil_div (length V - i) size).
Proof.
  intros Hsize Hrel Hkeep Hserves.
  pose proof (λ rows w, batchHandler_unlimited keep rows w Hrel Hkeep) as Hhandler.
  set (handler := batchHandler) in *. clearbody handler.
  induction fuel as [|fuel IH]; intros i w Hcur Hlim Hi Hfuel; [lia|].
  set (page := take size (drop i V)).
  assert (drop i V = page ++ drop (i + size) V) as Hsplit.
  { unfold page. by rewrite <-drop_drop, take_drop. }
  assert (List.filter keep (drop i V)
          = List.filter keep page ++ List.filter keep (drop (i + size) V)) as Hfilter.
  { rewrite Hsplit at 1. apply List.filter_app. }
  cbn [nextBatch]. unfold bind at 1. unfold call at 1. cbn zeta.
  rewrite (Hserves _ _ (ext w) Hcur). cbn.
  set (w1 := set_ext _ w).
  rewrite take_take, Nat.min_l by lia. fold page.
  destruct (Hhandler page w1 Hlim) as (w2 & d2 & Hrun & Hsub & Hv & Hp & Hq & Hl2).
  unfold bind at 1. cbn. unfold bind at 1. rewrite Hrun.
  rewrite lookup_take_lt, lookup_drop by lia.
  destruct (V !! (i + size)) as [next|] eqn:Hnext.
  - pose proof (lookup_lt_Some _ _ _ Hnext) as Hlt.
    unfold update. cbn. set (w3 := set_query _ w2).
    destruct (IH (i + size) w3) as (w' & tr & Hrun' & Hsub' & Hpages & Hlen).
    { subst w3. cbn. rewrite Hq. by apply cursor_next. }
    { exact Hl2. }
    { lia. }
    { rewrite (ceil_div_step (length V - i)) in Hfuel by lia.
      replace (length V - (i + size)) with (length V - i - size) by lia.
      pose proof (ceil_div_pos (length V - i - size) size). lia. }
    rewrite Hrun'. eexists _, _. split; [done|].
    destruct (round_trace ddoc view (query w) None page d2 tr Hv Hp)
      as (-> & -> & ->).
    split; [|split].
    + by rewrite concat_app, Hsub, Hsub', Hfilter.
    + cbn. by rewrite Hpages, Hsplit.
    + cbn. rewrite Hlen, (ceil_div_step (length V - i)) by lia.
      replace (length V - (i + size)) with (length V - i - size) by lia.
      pose proof (ceil_div_pos (length V - i - size) size). lia.
  - apply lookup_ge_None_1 in Hnext.
    eexists _, _. split; [done|].
    destruct (round_trace ddoc view (query w) None page d2 [] Hv Hp)
      as (-> & -> & ->).
    rewrite (drop_ge V (i + size)) in Hsplit, Hfilter by lia.
    cbn in Hfilter. rewrite (right_id_L [] (++)) in Hsplit, Hfilter.
    split; [|split].
    + cbn. by rewrite (right_id_L [] (++)), Hsub, Hfilter.
    + cbn. by rewrite (right_id_L [] (++)), Hsplit.
    + cbn. destruct (decide (length V - i = 0)) as [->|Hne].
      * by rewrite ceil_div_0.
      * rewrite ceil_div_small; lia.
Qed.

(** X20: without a row budget, and as long as no store call or callback
    fails, a migration over a view of rows [V] visits the whole view:
    the pages, in order, make up [V], the rows that enter the pipeline
    are exactly the rows the filter accepts, each once and in view order,
    the view is read with [max 1 ⌈N/1000⌉] requests, and the run ends
    with [complete()] without an error. *)
Theorem unlimited_run_visits_every_accepted_row keep V w fuel :
  reliable → filter_is keep →
  serves db (sourceDesignDoc options) (sourceView options) (query w) V 1000 →
  limit w = None →
  max 1 (ceil_div (length V) 1000) ≤ fuel →
  ∃ w' tr,
    run fuel w = Some (w', tr ++ [EvComplete None]) ∧
    concat (subBatches tr) = List.filter keep V ∧
    concat (pages tr) = V ∧
    length (views tr) = max 1 (ceil_div (length V) 1000).
Proof.
  intros Hrel Hkeep Hserves Hlim Hfuel.
  unfold run, getViewInBatches. unfold bind, update. cbn.
  set (w0 := set_query _ w).
  destruct (nextBatch_unlimited keep _ _ (query w) V 1000 ltac:(lia) Hrel Hkeep Hserves
              fuel 0 w0) as (w' & tr & Hrun & Hrest).
  - subst w0. cbn. constructor.
  - exact Hlim.
  - by left.
  - by rewrite Nat.sub_0_r.
  - rewrite Hrun. exists w', tr. split; [done|].
    by rewrite drop_0, Nat.sub_0_r in Hrest.
Qed.

(** ** A row budget that the view does not use up *)

Lemma nextBatch_generous keep ddoc view p0 V size :
  0 < size → reliable → filter_is keep → serves db ddoc view p0 V size →
  ∀ fuel i w l,
    cursor p0 V size (query w) i →
    limit w = Some (Z.of_nat l) → 1 ≤ l →
    length (List.filter keep (drop i V)) ≤ l →
    i = 0 ∨ i < length V →
    max 1 (ceil_div (length V - i) size) ≤ fuel →
    ∃ r w' tr,
      nextBatch fuel db ddoc view size batchHandler w = Some (inr r, w', tr) ∧
      concat (subBatches tr) = List.filter keep (drop i V) ∧
      (r = Halt → last tr = Some (EvComplete None)).
Proof.
  intros Hsize Hrel Hkeep Hserves.
  pose proof (λ rows w l, batchHandler_budget keep rows w l Hrel Hkeep) as Hbudget.
  set (handler := batchHandler) in *. clearbody handler.
  induction fuel as [|fuel IH]; intros i w l Hcur Hlim Hl Hmore Hi Hfuel; [lia|].
  set (page := take size (drop i V)).
  assert (drop i V = page ++ drop (i + size) V) as Hsplit.
  { unfold page. by rewrite <-drop_drop, take_drop. }
  assert (List.filter keep (drop i V)
          = List.filter keep page ++ List.filter keep (drop (i + size) V)) as Hfilter.
  { rewrite Hsplit at 1. apply List.filter_app. }
  cbn [nextBatch]. unfold bind at 1. unfold call at 1. cbn zeta.
  rewrite (Hserves _ _ (ext w) Hcur). cbn.
  set (w1 := set_ext _ w).
  rewrite take_take, Nat.min_l by lia. fold page.
  destruct (Hbudget page w1 l Hlim Hl) as (w2 & d2 & Hv & Hp & Hq & Hcase).
  unfold bind at 1. cbn. unfold bind at 1.
  rewrite lookup_take_lt, lookup_drop by lia.
  rewrite Hfilter, length_app in Hmore.
  case_decide as Hcmp.
  - destruct Hcase as (Hrun & Hl2 & Hsub). rewrite Hrun.
    destruct (V !! (i + size)) as [next|] eqn:Hnext.
    + pose proof (lookup_lt_Some _ _ _ Hnext) as Hlt.
      unfold update. cbn. set (w3 := set_query _ w2).
      destruct (IH (i + size) w3 (l - length (List.filter keep page)))
        as (r & w' & tr & Hrun' & Hsub' & Hlast).
      { subst w3. cbn. rewrite Hq. by apply cursor_next. }
      { exact Hl2. }
      { lia. }
      { lia. }
      { lia. }
      { rewrite (ceil_div_step (length V - i)) in Hfuel by lia.
        replace (length V - (i + size)) with (length V - i - size) by lia.
        pose proof (ceil_div_pos (length V - i - size) size). lia. }
      rewrite Hrun'. eexists _, _, _. split; [done|].
      destruct (round_trace ddoc view (query w) None page d2 tr Hv Hp)
        as (-> & _ & _).
      split; [by rewrite concat_app, Hsub, Hsub', Hfilter|].
      intros Hr. rewrite !app_comm_cons, last_app, (Hlast Hr). done.
    + apply lookup_ge_None_1 in Hnext.
      eexists _, _, _. split; [done|].
      destruct (round_trace ddoc view (query w) None page d2 [] Hv Hp)
        as (-> & _ & _).
      rewrite (drop_ge V (i + size)) in Hfilter by lia. cbn in Hfilter.
      rewrite (right_id_L [] (++)) in Hfilter.
      split; [|done]. cbn. by rewrite (right_id_L [] (++)), Hsub, Hfilter.
  - destruct Hcase as (Hrun & Hsub & Hlast). rewrite Hrun. cbn.
    eexists _, _, _. split; [done|].
    destruct (round_trace ddoc view (query w) None page d2 [] Hv Hp)
      as (-> & _ & _).
    assert (List.filter keep (drop (i + size) V) = []) as Hrest.
    { apply nil_length_inv. lia. }
    rewrite Hrest, (right_id_L [] (++)) in Hfilter.
    split.
    + cbn. rewrite (right_id_L [] (++)), Hsub, Hfilter. apply take_ge. lia.
    + intros _. by rewrite (right_id_L [] (++)), !last_cons, Hlast.
Qed.

(** X23: a budget of [L ≥ 1] rows that is not smaller than the number
    of rows the filter accepts does not cut the migration short: as long
    as no store call or callback fails, every accepted row of the view
    enters the pipeline, once and in view order, and the run ends with
    [complete()] without an error. *)
Theorem generous_budget_visits_every_accepted_row keep V L w fuel :
  reliable → filter_is keep →
  serves db (sourceDesignDoc options) (sourceView options) (query w) V 1000 →
  limit w = Some (Z.of_nat L) → 1 ≤ L → length (List.filter keep V) ≤ L →
  max 1 (ceil_div (length V) 1000) ≤ fuel →
  ∃ w' tr,
    run fuel w = Some (w', tr) ∧
    concat (subBatches tr) = List.filter keep V ∧
    last tr = Some (EvComplete None).
Proof.
  intros Hrel Hkeep Hserves Hlim HL HN Hfuel.
  unfold run, getViewInBatches. unfold bind, update. cbn.
  set (w0 := set_query _ w).
  destruct (nextBatch_generous keep _ _ (query w) V 1000 ltac:(lia) Hrel Hkeep Hserves
              fuel 0 w0 L) as (r & w' & tr & Hrun & Hsub & Hlast).
  - subst w0. cbn. constructor.
  - exact Hlim.
  - done.
  - by rewrite drop_0.
  - by left.
  - by rewrite Nat.sub_0_r.
  - rewrite Hrun, drop_0 in *. destruct r.
    + eexists _, _. split; [done|]. rewrite subBatches_app, concat_app, Hsub. cbn.
      split; [by rewrite (right_id_L [] (++))|apply last_snoc].
    + eexists _, _. split; [done|]. split; [done|]. by apply Hlast.
Qed.

(** ** [wrapAsync] *)

(** X21: a synchronous function that does not declare a parameter in the
    callback's seat is wrapped into a function that never throws and
    calls the callback exactly once: with the error the function threw,
    or else with the value it returned. *)
Theorem wrapAsync_calls_back_once {Args A} (f : JsFn Args A) (cbArg : nat) :
  synchronous f → fn_length f ≤ cbArg →
  ∃ g, wrapAsync (Some f) cbArg = Some g ∧
       ∀ args, called_back (fn_call g args) = [ended (fn_call f args)] ∧
               ended (fn_call g args) = inr None.
Proof.
  intros Hsync Hlen. unfold wrapAsync.
  rewrite bool_decide_eq_false_2 by lia. eexists. split; [reflexivity|].
  intros args. cbn. rewrite (Hsync args). by destruct (ended (fn_call f args)).
Qed.

(** X22: wrapping is not idempotent.  The wrapper declares no parameter,
    so wrapping a wrapped function wraps it again, and the callback is
    then called twice: once with the outcome of the function and once
    more without an error and without a result. *)
Theorem wrapAsync_twice_calls_back_twice {Args A} (f : JsFn Args A) (cbArg : nat) :
  synchronous f → fn_length f ≤ cbArg →
  ∃ g, wrapAsync (wrapAsync (Some f) cbArg) cbArg = Some g ∧
       ∀ args, called_back (fn_call g args) = [ended (fn_call f args); inr None].
Proof.
  intros Hsync Hlen. unfold wrapAsync.
  rewrite bool_decide_eq_false_2 by lia. cbn.
  eexists. split; [reflexivity|].
  intros args. cbn. rewrite (Hsync args). by destruct (ended (fn_call f args)).
Qed.

(** * The filter and the conflicts, seen from the batch handler *)

(** ** A row that [sourceFilter] throws for *)

Lemma applyLimit_within rows w :
  (∀ l, limit w = Some l → (0 ≤ l)%Z) →
  ∃ w', applyLimit rows w = Some (inr (within (limit w) rows), w', []) ∧
        w' = set_limit (limit w') w.
Proof.
  intros Hpos. unfold applyLimit, within. destruct (limit w) as [l|] eqn:Hl.
  2:{ exists w. split; [done|]. destruct w. cbn in *. by rewrite Hl. }
  specialize (Hpos l eq_refl).
  destruct (Z.ltb_spec (l - Z.of_nat (length rows)) 0) as [Hlt|Hge]; unfold ret.
  - exists (set_limit (Some 0%Z) w). split; [|done]. unfold slice0.
    rewrite (proj2 (Z.ltb_ge _ _)) by lia.
    by replace (Z.of_nat (length rows) + (l - Z.of_nat (length rows)))%Z
      with l by lia.
  - eexists. rewrite take_ge by lia. by split.
Qed.

(** As long as nothing fails, the rows that the budget lets through
    enter the pipeline, in order. *)
Lemma afterFilter_reliable rows w :
  reliable →
  (∀ l, limit w = Some l → (0 ≤ l)%Z) →
  ∃ r w' d, afterFilter rows w = Some (inr r, w', d) ∧
            concat (subBatches d) = within (limit w) rows.
Proof.
  intros Hrel Hpos. destruct (applyLimit_within rows w Hpos) as (w1 & Hlim & _).
  unfold afterFilter. rewrite (bind_ok _ _ _ _ _ _ Hlim).
  set (rows2 := within (limit w) rows). case_bool_decide as Hempty.
  - exists Next, w1, []. split; [done|]. symmetry. by apply nil_length_inv.
  - destruct (whilst_reliable (length rows2) rows2 0 w1 Hrel ltac:(lia))
      as (w3 & d3 & Hrun3 & Hsub3 & _).
    rewrite drop_0 in Hsub3.
    unfold bind at 1. unfold tick at 1. unfold bind, update, log. cbn.
    unfold finish. rewrite Hrun3.
    case_bool_decide.
    + eexists _, _, _. split; [reflexivity|]. cbn.
      change (omap _ (d3 ++ ?x)) with (subBatches (d3 ++ x)).
      rewrite subBatches_app, concat_app, Hsub3. cbn.
      by rewrite (right_id_L [] (++)).
    + eexists _, _, _. split; [reflexivity|]. exact Hsub3.
Qed.

(** C8: an error that [sourceFilter] throws for a row of a page is
    caught.  The failure is reported for that row, with the error; the
    filter goes on with the rows after it; and the batch handler goes on
    with the rows that the filter kept of the rows before and of the rows
    after it, so without that row: its outcome is the outcome of the
    budget and of the sub-batch loop on those rows, not the error.  When
    the store and the callbacks answer without errors, the handler ends
    without an error and the kept rows that the budget lets through are
    exactly the rows of the sub-batches that enter the pipeline. *)
Theorem sourceFilter_error_excludes_row f pre row post e w kept1 w1 d1 :
  options_sourceFilter options = Some f →
  filterRows f pre (set_batchno (batchno w + 1) w) = Some (inr kept1, w1, d1) →
  (f row (ext w1)).1 = inl e →
  ∃ kept2 w2 d2,
    filterRows f post (set_ext (f row (ext w1)).2 w1) = Some (inr kept2, w2, d2) ∧
    kept1 `sublist_of` pre ∧ kept2 `sublist_of` post ∧
    filterRows f (pre ++ row :: post) (set_batchno (batchno w + 1) w)
    = Some (inr (kept1 ++ kept2), w2, d1 ++ EvFailure row e :: d2) ∧
    batchHandler (pre ++ row :: post) w
    = match afterFilter (kept1 ++ kept2) w2 with
      | None => None
      | Some (r, w3, d3) => Some (r, w3, d1 ++ EvFailure row e :: d2 ++ d3)
      end ∧
    (callbacks_answer → is_Some (batchHandler (pre ++ row :: post) w)) ∧
    (reliable → (∀ l, limit w = Some l → (0 ≤ l)%Z) →
     ∃ signal w3 d3,
       batchHandler (pre ++ row :: post) w
       = Some (inr signal, w3, d1 ++ EvFailure row e :: d2 ++ d3) ∧
       concat (subBatches d3) = within (limit w) (kept1 ++ kept2)).
Proof.
  intros Hf Hpre Herr.
  destruct (filterRows_ok f pre (set_batchno (batchno w + 1) w))
    as (kept1' & w1' & d1' & Hpre' & Hsub1 & _).
  rewrite Hpre in Hpre'. injection Hpre' as <- <- <-.
  destruct (filterRows_ok f post (set_ext (f row (ext w1)).2 w1))
    as (kept2 & w2 & d2 & Hpost & Hsub2 & _).
  exists kept2, w2, d2.
  assert (filterRows f (pre ++ row :: post) (set_batchno (batchno w + 1) w)
          = Some (inr (kept1 ++ kept2), w2, d1 ++ EvFailure row e :: d2)) as Hall.
  { rewrite (filterRows_app _ _ _ _ _ _ _ Hpre). cbn [filterRows].
    rewrite (bind_ok _ _ _ _ _ _ (keepRow_eq f row w1)), Herr.
    rewrite (bind_ok _ _ _ _ _ _ Hpost). cbn. by rewrite (right_id_L [] (++)). }
  assert (batchHandler (pre ++ row :: post) w
          = match afterFilter (kept1 ++ kept2) w2 with
            | None => None
            | Some (r, w3, d3) => Some (r, w3, d1 ++ EvFailure row e :: d2 ++ d3)
            end) as Hhandler.
  { unfold batchHandler. rewrite Hf. unfold bind at 1. unfold update at 1.
    cbn -[bind filterRows applyLimit].
    rewrite (bind_ok _ _ _ _ _ _ Hall). fold (afterFilter (kept1 ++ kept2)).
    destruct (afterFilter (kept1 ++ kept2) w2) as [[[r w3] d3]|]; [|done].
    by rewrite <-(assoc_L (++)). }
  assert (limit w2 = limit w) as Hlimit.
  { pose proof (ext_only_filterRows f _ _ _ _ _ Hall) as ->. done. }
  do 5 (split; [done|]). split.
  - intros Hanswer. apply (batchHandler_total _ Hanswer).
  - intros Hrel Hpos. rewrite <-Hlimit in Hpos |- *.
    destruct (afterFilter_reliable (kept1 ++ kept2) w2 Hrel Hpos)
      as (signal & w3 & d3 & Hrun & Hsub).
    exists signal, w3, d3. by rewrite Hhandler, Hrun.
Qed.

(** ** A row that conflicts on every attempt *)

Lemma emits_processBatch_reliable more batch retry :
  reliable → emits pipelineEvent (processBatch more batch retry).
Proof.
  intros (Hfetch & Hbulk & Hchanges & Hkeys).
  apply (emits_processBatch _ (λ _, True)); [done| |done|done|done].
  intros b _. apply emits_bind.
  - unfold fetchExtraDocs. case_bool_decide; [apply emits_ret|].
    apply emits_bind; [by apply emits_call_ok|]. intros docs. apply emits_ret.
  - intros extraDocs. unfold runChanges. apply emits_bind.
    + apply emits_timesSeries. intros j row. by apply emits_invoke_ok.
    + intros changes. apply emits_bind; [by apply emits_call_ok|].
      intros results. apply emits_ret.
Qed.

Lemma timesSeries_replies (extraDocs : list (list (option Doc))) batch i w cs w' d :
  timesSeries (λ j row, changesFn row (extraDocs !! j)) i batch w
  = Some (inr cs, w', d) →
  Forall2 (λ row c, ∃ docs s s', changesReply row docs s = Some (inr c, s')) batch cs.
Proof.
  revert i w cs w' d. induction batch as [|row rest IH]; intros i w cs w' d;
    cbn [timesSeries].
  - intros [= <- _ _]. constructor.
  - intros [(e & [=] & _)|(c & w1 & d1 & d2 & H1 & H2 & ->)]%bind_inv.
    apply invoke_inv in H1 as (s & H1 & _).
    apply bind_inv in H2 as [(e & [=] & _)|(bs & w2 & d3 & d4 & H3 & H4 & _)].
    injection H4 as <- _ _. constructor; [by eauto|]. by eapply IH.
Qed.

Lemma Forall2_concat_inv {A B} (P : A → B → Prop) (groups : list (list A)) l :
  Forall2 P (concat groups) l →
  ∃ groups', l = concat groups' ∧ Forall2 (Forall2 P) groups groups'.
Proof.
  revert l. induction groups as [|g groups IH]; intros l; cbn.
  - intros ->%Forall2_nil_inv_l. by exists [].
  - intros (l1 & l2 & H1 & H2 & ->)%Forall2_app_inv_l.
    destruct (IH _ H2) as (groups' & -> & Hall).
    exists (l1 :: groups'). split; [done|]. by constructor.
Qed.

Lemma conflicting_doomed (doomed : Doc → Prop) row batch
    (groups : list (list Doc)) (results : list (list WriteResult)) :
  Forall2 (λ row' g, row' = row → ∃ doc, doc ∈ g ∧ doomed doc) batch groups →
  Forall2 (Forall2 (λ doc r, doomed doc → wr_error r = Some "conflict"))
          groups results →
  row ∈ batch → row ∈ conflicting batch results.
Proof.
  intros Hb. revert results.
  induction Hb as [|row' g batch groups Hrow _ IH]; intros results Hres Hin.
  { by apply elem_of_nil in Hin. }
  apply Forall2_cons_inv_l in Hres as (r & results' & Hr & Hres & ->).
  cbn [conflicting].
  apply elem_of_cons in Hin as [->|Hin].
  - destruct (Hrow eq_refl) as (doc & Hdoc & Hdoomed).
    assert (hasConflict r = true) as Hconflict.
    { clear -Hr Hdoc Hdoomed. unfold hasConflict.
      induction Hr as [|d x ds rs Hx _ IH]; cbn.
      { by apply elem_of_nil in Hdoc. }
      apply elem_of_cons in Hdoc as [<-|Hdoc].
      + by rewrite (bool_decide_eq_true_2 _ (Hx Hdoomed)).
      + rewrite (IH Hdoc). apply orb_true_r. }
    rewrite Hconflict. left.
  - destruct (hasConflict r); [right|]; by apply IH.
Qed.

(** An attempt finds the row among the conflicting rows of its batch. *)
Lemma attempt_doomed doomed row batch w results w1 d :
  changes_are_lists → always_conflict doomed → always_writes doomed row →
  attempt batch w = Some (inr results, w1, d) →
  row ∈ batch → row ∈ conflicting batch results.
Proof.
  intros Hlists Hstore Hrow. unfold attempt.
  intros [(e & [=] & _)|(extraDocs & w2 & d2 & d3 & _ & H2 & _)]%bind_inv.
  unfold runChanges in H2.
  apply bind_inv in H2 as [(e & [=] & _)|(cs & w3 & d4 & d5 & H3 & H4 & _)].
  apply bind_inv in H4 as [(e & [=] & _)|(res & w4 & d6 & d7 & H5 & H6 & _)].
  injection H6 as <- _ _. apply timesSeries_replies in H3.
  set (groups := flattenChange <$> (orEmpty <$> cs)) in *.
  assert (lengthOf <$> (orEmpty <$> cs) = (λ g, Some (length g)) <$> groups) as ->.
  { unfold groups. clear -H3 Hlists.
    induction H3 as [|row' c batch cs (docs & s & s' & Hc) _ IH]; [done|].
    cbn. rewrite IH. apply Hlists in Hc. by destruct c. }
  assert (Forall2 (λ doc r, doomed doc → wr_error r = Some "conflict")
                  (concat groups) res) as Hres.
  { unfold call in H5. injection H5 as Hr _ _.
    destruct (db_bulk db (concat groups) (ext w3)) as [r s'] eqn:Hbulk.
    cbn in Hr. subst r. by eapply Hstore. }
  apply Forall2_concat_inv in Hres as (results & -> & Hres).
  assert ((λ g : list Doc, Some (length g)) <$> groups
          = (λ g : list WriteResult, Some (length g)) <$> results) as ->.
  { clear -Hres. induction Hres as [|g r groups results Hg _ IH]; [done|].
    cbn. by rewrite IH, (Forall2_length _ _ _ Hg). }
  unfold unflatten.
  change (unflatten_from (concat results) (Some 0))
    with (unflatten_from ([] ++ concat results) (Some (length (@nil WriteResult)))).
  rewrite (unflatten_from_groups [] results).
  apply (conflicting_doomed doomed row batch groups); [|done].
  unfold groups. clear -H3 Hrow.
  induction H3 as [|row' c batch cs (docs & s & s' & Hc) _ IH]; [constructor|].
  cbn. constructor; [|done]. intros ->. apply Hrow in Hc. by destruct c.
Qed.

Lemma attempts_doomed row more batch retry w :
  (∀ b w results w1 d, attempt b w = Some (inr results, w1, d) →
                       row ∈ b → row ∈ conflicting b results) →
  row ∈ batch →
  Forall (λ bn, row ∈ bn.1 ∧ row ∈ bn.2) (attempts more batch retry w).
Proof.
  intros Hatt. revert batch retry w.
  induction more as [|more IH]; intros batch retry w Hrow; cbn [attempts].
  all: destruct (attempt batch w) as [[[[e|res] w1] d1]|] eqn:Ha; try constructor.
  all: try (split; [done|by eapply Hatt]).
  all: repeat case_bool_decide; try constructor.
  apply IH. by eapply Hatt.
Qed.

Lemma attemptsAllowed_retries :
  attemptsAllowed (options_retryConflicts options) = retries + 1.
Proof. unfold retries. by destruct (options_retryConflicts options) as [| |[|n]]. Qed.

(** C3 (as amended): the store and the callbacks answer without errors,
    the [changes] callback answers lists (or nothing), and the store
    answers one result per document; every write that [changes] asks for
    a row of the sub-batch holds a document that the store answers with
    a conflict.  Then the retry loop of the sub-batch ends, without an
    error, after exactly [R + 1] attempts, each with its bulk write, each
    made for the row and each finding it in conflict: [R] is the
    [retryConflicts] option when that is a positive number, [0] for the
    literal [false], and [2] when the option is absent or the number
    [0].  The trace ends with the report of the
    permanent failures, the row among them, and nothing is retried after
    that; the row is not counted in [realcurrent], which grows by the
    number of the other rows only. *)
Theorem permanent_conflict_reported_after_retries (doomed : Doc → Prop) row batch w :
  reliable → changes_are_lists →
  always_conflict doomed → always_writes doomed row →
  row ∈ batch →
  ∃ w' d,
    processBatch retries batch 0 w = Some (inr tt, w', d) ∧
    length (bulks d) = attemptsAllowed (options_retryConflicts options) ∧
    length (attempts retries batch 0 w)
    = attemptsAllowed (options_retryConflicts options) ∧
    Forall (λ bn, row ∈ bn.1 ∧ row ∈ bn.2) (attempts retries batch 0 w) ∧
    ∃ d0 last, d = d0 ++ conflictFailures last ∧ row ∈ last ∧
               failures d0 = [] ∧ last `sublist_of` batch ∧
               realcurrent w' = (realcurrent w + successes batch last)%Z.
Proof.
  intros Hrel Hlists Hstore Hwrites Hrow.
  destruct (processBatch_total retries batch 0 (reliable_callbacks_answer Hrel)
              ltac:(lia) w) as [[[r w'] d] Hrun].
  pose proof (emits_processBatch_reliable retries batch 0 Hrel _ _ _ _ Hrun) as Hev.
  assert (Forall (λ ev, failed ev = None) d) as Hok.
  { eapply List.Forall_impl; [|exact Hev]. by intros ev [? _]%pipelineEvent_calm. }
  pose proof (attempts_doomed row retries batch 0 w
                (λ b w0 res w1 d1, attempt_doomed doomed row b w0 res w1 d1
                                     Hlists Hstore Hwrites) Hrow) as Hall.
  destruct (conflict_exhaustion_gen row _ _ _ _ _ _ _ Hrun ltac:(lia) Hrow Hok)
    as (-> & Hlen & Hbulks & Hlast).
  { intros b n Hin _. eapply list.Forall_forall in Hall; [|exact Hin]. apply Hall. }
  exists w', d. rewrite attemptsAllowed_retries.
  split; [done|]. split; [lia|]. split; [lia|]. by split.
Qed.

End Engine.

Arguments mkCallback {Ext Args A} _ _.
Arguments cb_fn {Ext Args A} _.
Arguments cb_effect {Ext Args A} _ _ _.

(** * A concrete store and concrete callbacks

    The store keeps a clock, the number of bulk writes it has answered.
    Its view serves a fixed list of rows by their keys; a multi-get answers,
    for each key, the document of that key stamped with the clock; a bulk
    write answers one result per document, a conflict where [conflict]
    says so, or fails as a whole with [bulk_error]. *)
Module Demo.

Definition D : Type := string * nat.
Definition R : Type := @Row string unit.
Definition W : Type := @World string unit nat.

Definition row (k : string) (keys : list DocKey) : R := mkRow k (Some k) tt keys.

Fixpoint from_key (k : string) (rows : list R) : list R :=
  match rows with
  | [] => []
  | r :: rest => if bool_decide (row_key r = k) then rows else from_key k rest
  end.

Definition view_of (rows : list R) (p : @Params string unit) : list R :=
  let rest := match startkey p with
              | None => rows
              | Some k => from_key k rows
              end in
  match p_limit p with
  | None => rest
  | Some n => take n rest
  end.

Definition store (rows : list R) (conflict : nat → D → bool)
    (bulk_error : option Err) : @Db string unit D nat :=
  mkDb (λ _ _ p s, (inr (view_of rows p), s))
       (λ keys s, (inr ((λ k, Some (k, s)) <$> keys), s))
       (λ docs s,
          (match bulk_error with
           | Some e => inl e
           | None =>
               inr ((λ d, mkWriteResult d.1
                            (if conflict s d then Some "conflict" else None))
                      <$> docs)
           end, S s)).

(** The [changes] callback: write back the documents that were fetched
    for the row, or a document named after the row. *)
Definition touch (r : R) (docs : @DocGroup D) : @Answer nat (@ChangesResult D) :=
  λ s, (inr (ChMany match docs with
                    | Some ds => omap id ds
                    | None => [(row_key r, 0)]
                    end), s).

(** A callback written in the synchronous style that declares [n]
    parameters: [f] gives what a call returns or throws, and what it
    leaves of the outside world. *)
Definition syncFn {Args A} (n : nat) (f : Args → @Answer nat A)
  : @Callback nat Args A :=
  mkCallback (mkJsFn n (λ x, mkOutcome [] match (f x.1 x.2).1 with
                                           | inl e => inl e
                                           | inr a => inr (Some a)
                                           end))
             (λ args s, (f args s).2).

Definition opts db lim fk flt rc : @Options string unit D nat :=
  mkOptions db "ddoc" "view" None (Some 2) lim
            (syncFn 1 <$> fk) (syncFn 2 (λ x, touch x.1 x.2)) flt rc.

Definition world0 : W := mkWorld 0 emptyParams None 0 0.

Definition never : nat → D → bool := λ _ _, false.

(** A conflict on the first bulk write only. *)
Definition firstWrite : nat → D → bool := λ s _, bool_decide (s = 0).

(** Document [b] conflicts on the first bulk write only, or always. *)
Definition bOnce : nat → D → bool := λ s d, bool_decide (s = 0 ∧ d.1 = "b").
Definition bAlways : nat → D → bool := λ _ d, bool_decide (d.1 = "b").

Definition abc : list R := [row "a" []; row "b" []; row "c" []].

(** [fetchKeys]: every row asks for the document [x]. *)
Definition wantsX : R → @Answer nat KeysResult := λ _ s, (inr (KeysOne "x"), s).

(** [sourceFilter]: throws on row [b]. *)
Definition notB : R → @Answer nat bool :=
  λ r s, (if bool_decide (row_key r = "b") then inl "bad row" else inr true, s).

Definition enriching : @Options string unit D nat :=
  opts (store [] firstWrite None) None (Some wantsX) None RcUndefined.

Definition a_x : R := row "a" ["x"].

Definition plain (conflict : nat → D → bool) (rc : RetryConflicts)
  : @Options string unit D nat :=
  opts (store abc conflict None) None None None rc.

Definition failing : @Options string unit D nat :=
  opts (store abc never (Some "boom")) None None None RcUndefined.

Definition ab : list R := [row "a" []; row "b" []].

(** A view of 1001 rows: one full page of 1000 rows and one more row. *)
Definition thousandAndOne : list R := (λ n, row (pretty n) []) <$> seq 0 1001.

Definition budget (l : nat) : @Options string unit D nat :=
  opts (store thousandAndOne never None) (Some l) None None RcUndefined.

(** What a trace says about the scan: the number of requests, the sizes
    of the pages, the sizes of the sub-batches that entered the pipeline,
    and the last event. *)
Definition summary (d : list (@Event string unit D))
  : nat * list nat * list nat * option (@Event string unit D) :=
  (length (views d), length <$> pages d, length <$> subBatches d, last d).

(** A store that refuses every write: each document of a bulk write
    comes back with the error [forbidden]. *)
Definition forbidding : @Db string unit D nat :=
  mkDb (λ _ _ p s, (inr (view_of abc p), s))
       (λ keys s, (inr ((λ k, Some (k, s)) <$> keys), s))
       (λ docs s,
          (inr ((λ d : D, mkWriteResult d.1 (Some "forbidden")) <$> docs), S s)).

Definition forbidden : @Options string unit D nat :=
  opts forbidding None None None RcUndefined.

(** A [changes] callback that asks for no write. *)
Definition silent : @Options string unit D nat :=
  mkOptions (store abc never None) "ddoc" "view" None (Some 2) None None
            (syncFn 2 (λ _ s, (inr ChNone, s))) None RcUndefined.

(** Rows that carry their extra keys. *)
Definition keyed : list R := [row "a" ["x"; "y"]; row "b" []; row "c" ["z"]].

(** The verdict of [notB], and a migration that filters with it under a
    budget of no rows. *)
Definition isNotB (r : R) : bool := negb (bool_decide (row_key r = "b")).

Definition strict : @Options string unit D nat :=
  opts (store abc never None) (Some 0) None (Some notB) RcUndefined.

(** A migration over the three rows with a budget of [lim] rows, no
    filter and no conflicts. *)
Definition steady (lim : option nat) : @Options string unit D nat :=
  opts (store abc never None) lim None None RcUndefined.

(** A migration over the three rows whose filter throws on row [b]. *)
Definition filtering : @Options string unit D nat :=
  opts (store abc never None) None None (Some notB) RcUndefined.

(** The answer of a bulk write of [a] and [b] in which [b] conflicts,
    regrouped by row. *)
Definition bConflicts : list (list WriteResult) :=
  [[mkWriteResult "a" None]; [mkWriteResult "b" (Some "conflict")]].

(** The [changes] callback [stamp] writes a document named after the
    row, whatever documents it is given; [bare] does the same but hands
    the document of row [b] as it is, not in a list. *)
Definition stamp (r : R) : @Answer nat (@ChangesResult D) :=
  λ s, (inr (ChMany [(row_key r, 0)]), s).
Definition bare (r : R) : @Answer nat (@ChangesResult D) :=
  λ s, (inr (if bool_decide (row_key r = "b") then ChOne (row_key r, 0)
             else ChMany [(row_key r, 0)]), s).

Definition stamping (rc : RetryConflicts) : @Options string unit D nat :=
  mkOptions (store abc bAlways None) "ddoc" "view" None (Some 2) None None
            (syncFn 2 (λ x : R * @DocGroup D, stamp x.1)) None rc.
Definition baring : @Options string unit D nat :=
  mkOptions (store abc bAlways None) "ddoc" "view" None (Some 2) None None
            (syncFn 2 (λ x : R * @DocGroup D, bare x.1)) None RcUndefined.

(** The documents that the store [store _ bAlways _] never accepts. *)
Definition isB (d : D) : Prop := d.1 = "b".

(** A synchronous function of one parameter that throws on [0]. *)
Definition halve : JsFn nat nat :=
  mkJsFn 1 (λ n, mkOutcome [] (if bool_decide (n = 0) then inl "zero"
                               else inr (Some (n / 2)))).

(** A [changes] callback that throws, declared with [n] parameters:
    [function(row, docs) {...}] for [n = 2], and in the callback style,
    [function(row, docs, cb) {...}], for [n = 3]. *)
Definition thrower (n : nat) : @Callback nat (R * @DocGroup D) (@ChangesResult D) :=
  mkCallback (mkJsFn n (λ _, mkOutcome [] (inl "boom"))) (λ _ s, s).

Definition throwing (n : nat) : @Options string unit D nat :=
  mkOptions (store abc never None) "ddoc" "view" None (Some 2) None None
            (thrower n) None RcUndefined.

(** ** Runs of the concrete migration *)

Lemma syncFn_reply {Args A} n cbArg (f : Args → @Answer nat A) undef args s :
  n ≤ cbArg →
  reply (wrapAsync (Some (cb_fn (syncFn n f))) cbArg) (cb_effect (syncFn n f))
        undef args s
  = Some (f args s).
Proof.
  intros Hn. unfold reply, wrapAsync.
  rewrite bool_decide_eq_false_2 by (cbn; lia). cbn.
  by destruct (f args s) as [[e|a] s'].
Qed.

(** A store that never answers an error, with the callback [touch] and
    no [fetchKeys]: nothing fails. *)
Lemma store_reliable rows conflict lim flt rc :
  reliable (opts (store rows conflict None) lim None flt rc).
Proof.
  split; [|split; [|split]].
  - intros keys s. by eexists.
  - intros docs s. by eexists.
  - intros r docs s. unfold changesReply. cbn [options_changes opts].
    rewrite syncFn_reply by lia. by eexists _, _.
  - intros f r [=].
Qed.

(** The callbacks of these migrations are synchronous and declare no
    completion argument: they always answer. *)
Lemma opts_answer db lim fk flt rc : callbacks_answer (opts db lim fk flt rc).
Proof.
  split.
  - intros r docs s. unfold changesReply. cbn [options_changes opts].
    by rewrite syncFn_reply by lia.
  - intros f r s Hf. destruct fk as [g|]; [|done]. injection Hf as <-.
    unfold fetchKeysReply. by rewrite syncFn_reply by lia.
Qed.

(** *** Conflict retries and the multi-get *)

(** C1, counterexample: one row that asks for document [x]; its write
    conflicts on the first attempt and succeeds on the second.
    [fetchKeys] is called once, but the multi-get is made twice, once
    more in the retry, and the [changes] callback of the retry receives
    the document of the second multi-get ([("x", 1)]), not the one that
    was fetched in the original attempt ([("x", 0)]). *)
Lemma retry_fetches_documents_again :
  snd <$> getExtraKeyInfo enriching [row "a" []] world0
  = Some [EvSubBatch [row "a" []];
          EvFetchKeys (row "a" []) None;
          EvFetch ["x"] None;
          EvChanges a_x (Some [Some ("x", 0)]) None;
          EvBulk [("x", 0)] None;
          EvTick 0 0 0;
          EvFetch ["x"] None;
          EvChanges a_x (Some [Some ("x", 1)]) None;
          EvBulk [("x", 1)] None;
          EvTick 1 1 0].
Proof. vm_compute. reflexivity. Qed.

Lemma retry_reenters_processBatch_witness :
  attempt enriching [a_x] world0
  = Some (inr [[mkWriteResult "x" (Some "conflict")]], set_ext 1 world0,
          [EvFetch ["x"] None; EvChanges a_x (Some [Some ("x", 0)]) None;
           EvBulk [("x", 0)] None]) ∧
  emits (λ ev, ¬ isFetchKeys ev) (processBatch enriching 1 [a_x] 1) ∧
  processBatch enriching 1 [a_x] 1 (set_ext 1 world0)
  = match bind (runChanges enriching [a_x] (regroupDocs [Some ("x", 1)] [a_x]))
               (processErrors enriching (again enriching 1) [a_x] 1)
               (set_ext 1 world0) with
    | None => None
    | Some (r, w3, d3) => Some (r, w3, EvFetch ["x"] None :: d3)
    end.
Proof.
  assert (attempt enriching [a_x] world0
          = Some (inr [[mkWriteResult "x" (Some "conflict")]], set_ext 1 world0,
                  [EvFetch ["x"] None; EvChanges a_x (Some [Some ("x", 0)]) None;
                   EvBulk [("x", 0)] None])) as Hatt by reflexivity.
  split; [exact Hatt|].
  destruct (retry_reenters_processBatch enriching 1 [a_x] 0 world0 _ _ _ Hatt)
    as (_ & _ & Hemits & Hfetch).
  - vm_compute. discriminate.
  - vm_compute. lia.
  - split; [exact Hemits|]. apply Hfetch. vm_compute. discriminate.
Defined.

(** *** No [fetchKeys] *)

(** C9, at the failing input (no [fetchKeys], one row [a]): no multi-get
    is made, but the [changes] callback of the row is called with
    [undefined] ([None]) for its documents, which is not the empty array
    ([Some []]) that a row without keys receives when the multi-get is
    made. *)
Lemma changes_receive_undefined_not_empty :
  snd <$> getExtraKeyInfo (plain never RcUndefined) [row "a" []] world0
  = Some [EvSubBatch [row "a" []];
          EvChanges (row "a" []) None None;
          EvBulk [("a", 0)] None;
          EvTick 1 1 0] ∧
  (None : @DocGroup D) ≠ Some [].
Proof. split; [vm_compute; reflexivity|discriminate]. Qed.

Lemma no_fetchKeys_changes_receive_undefined_witness :
  options_fetchKeys (plain bOnce RcUndefined) = None ∧
  ∃ r w' d, getExtraKeyInfo (plain bOnce RcUndefined) abc world0 = Some (r, w', d) ∧
            Forall unenriched d.
Proof.
  split; [reflexivity|].
  apply (no_fetchKeys_changes_receive_undefined (plain bOnce RcUndefined) abc world0).
  - apply opts_answer.
  - reflexivity.
Defined.

(** *** The row filter *)

Lemma sourceFilter_error_excludes_row_witness :
  ∃ signal w3 d3,
    batchHandler filtering ([row "a" []] ++ row "b" [] :: [row "c" []]) world0
    = Some (inr signal, w3, [] ++ EvFailure (row "b" []) "bad row" :: [] ++ d3) ∧
    concat (subBatches d3) = [row "a" []; row "c" []].
Proof.
  destruct (sourceFilter_error_excludes_row filtering notB [row "a" []] (row "b" [])
              [row "c" []] "bad row" world0 [row "a" []] (set_batchno 1 world0) []
              eq_refl eq_refl eq_refl)
    as (kept2 & w2 & d2 & Hpost & _ & _ & _ & _ & _ & Hrun).
  vm_compute in Hpost. injection Hpost as <- <- <-.
  destruct (Hrun (store_reliable _ _ _ _ _)) as (signal & w3 & d3 & H & Hsub); [done|].
  exists signal, w3, d3. split; [exact H|exact Hsub].
Defined.

(** The whole run over the three rows: the failure of row [b] is
    reported, rows [a] and [c] are migrated, and the run ends without an
    error. *)
Lemma filter_error_does_not_abort_run :
  snd <$> migrate filtering 1 0
  = Some [EvView "ddoc" "view" (with_limit 1001 emptyParams) None; EvPage abc;
          EvFailure (row "b" []) "bad row"; EvTick 0 0 1;
          EvSubBatch [row "a" []; row "c" []];
          EvChanges (row "a" []) None None; EvChanges (row "c" []) None None;
          EvBulk [("a", 0); ("c", 0)] None; EvTick 2 2 1; EvComplete None].
Proof. by vm_compute. Qed.

(** *** The retry ceiling *)

Lemma retryConflicts_zero_is_default_witness :
  processErrors (plain bAlways (RcNum 0)) (λ _ _, ret tt) ab 1 bConflicts world0
  = Some (inr tt, settle 1 world0, [tickOf 1 world0]) ∧
  processErrors (plain bAlways (RcNum 0)) (λ _ _, ret tt) ab 2 bConflicts world0
  = Some (inr tt, settle 1 world0,
          [tickOf 1 world0; EvFailure (row "b" []) "Conflict"]) ∧
  processErrors (plain bAlways RcFalse) (λ _ _, ret tt) ab 0 bConflicts world0
  = Some (inr tt, settle 1 world0,
          [tickOf 1 world0; EvFailure (row "b" []) "Conflict"]).
Proof.
  pose proof (retryConflicts_zero_is_default (plain bAlways (RcNum 0))
                (λ _ _, ret tt) ab 1 bConflicts world0 ltac:(done)) as H1.
  pose proof (retryConflicts_zero_is_default (plain bAlways (RcNum 0))
                (λ _ _, ret tt) ab 2 bConflicts world0 ltac:(done)) as H2.
  pose proof (retryConflicts_zero_is_default (plain bAlways RcFalse)
                (λ _ _, ret tt) ab 0 bConflicts world0 ltac:(done)) as H3.
  cbv zeta in H1, H2, H3.
  destruct H1 as (H1 & _ & _), H2 as (H2 & _ & _), H3 as (_ & H3 & _).
  split; [exact (H1 (or_introl eq_refl))|].
  split; [exact (H2 (or_introl eq_refl))|exact (H3 eq_refl)].
Defined.

(** The bulk writes of whole runs in which document [b] conflicts every
    time: with [retryConflicts: 0], as without the option, the sub-batch
    of [a] and [b] is written three times; with [retryConflicts: false]
    once. *)
Lemma bulk_writes_by_retryConflicts :
  bulks ∘ snd <$> migrate (plain bAlways (RcNum 0)) 1 0
  = Some [[("a", 0); ("b", 0)]; [("b", 0)]; [("b", 0)]; [("c", 0)]] ∧
  bulks ∘ snd <$> migrate (plain bAlways RcUndefined) 1 0
  = Some [[("a", 0); ("b", 0)]; [("b", 0)]; [("b", 0)]; [("c", 0)]] ∧
  bulks ∘ snd <$> migrate (plain bAlways RcFalse) 1 0
  = Some [[("a", 0); ("b", 0)]; [("c", 0)]].
Proof. by vm_compute. Qed.

(** *** Fatal errors *)

(** C6, counterexample: the [changes] callback throws.  Declared as
    [function(row, docs)] it is wrapped, the error is handed on and the
    run ends with [complete(error)].  Declared in the callback style, as
    [function(row, docs, cb)], it is called as it is and nothing catches
    what it throws: the run does not finish, whatever the fuel, and
    [complete] is never called. *)
Lemma thrown_error_of_callback_style_escapes :
  snd <$> migrate (throwing 2) 1 0
  = Some [EvView "ddoc" "view" (with_limit 1001 emptyParams) None;
          EvPage abc;
          EvTick 0 0 1;
          EvSubBatch [row "a" []; row "b" []];
          EvChanges (row "a" []) None (Some "boom");
          EvComplete (Some "boom")] ∧
  ∀ fuel, migrate (throwing 3) fuel 0 = None.
Proof.
  split; [vm_compute; reflexivity|]. intros [|fuel]; [reflexivity|].
  vm_compute. reflexivity.
Qed.

Lemma fatal_error_aborts_migration_witness :
  ∃ w',
    migrate failing 1 0
    = Some (w', [EvView "ddoc" "view" (with_limit 1001 emptyParams) None;
                 EvPage abc;
                 EvTick 0 0 1;
                 EvSubBatch [row "a" []; row "b" []];
                 EvChanges (row "a" []) None None;
                 EvChanges (row "b" []) None None]
                ++ EvBulk [("a", 0); ("b", 0)] (Some "boom")
                :: [EvComplete (Some "boom")]).
Proof.
  assert (∃ w' post,
    migrate failing 1 0
    = Some (w', [EvView "ddoc" "view" (with_limit 1001 emptyParams) None;
                 EvPage abc;
                 EvTick 0 0 1;
                 EvSubBatch [row "a" []; row "b" []];
                 EvChanges (row "a" []) None None;
                 EvChanges (row "b" []) None None]
                ++ EvBulk [("a", 0); ("b", 0)] (Some "boom") :: post))
    as (w' & post & Hrun).
  { eexists _, _. vm_compute. reflexivity. }
  destruct (fatal_error_aborts_migration failing 1 (initial failing 0)
              (opts_answer _ _ _ _ _)) as [Hfinished _].
  destruct (Hfinished w' _ _ _ post "boom" Hrun eq_refl eq_refl) as [-> _].
  exists w'. exact Hrun.
Defined.

(** *** Conflicts and retries *)

Lemma stamping_reliable rc : reliable (stamping rc).
Proof.
  split; [|split; [|split]].
  - intros keys s. by eexists.
  - intros docs s. by eexists.
  - intros r docs s. unfold changesReply. cbn [options_changes stamping].
    rewrite syncFn_reply by lia. by eexists _, _.
  - intros f r [=].
Qed.

Lemma stamping_lists rc : changes_are_lists (stamping rc).
Proof.
  intros r docs s c s'. unfold changesReply. cbn [options_changes stamping].
  rewrite syncFn_reply by lia. by intros [= <- _].
Qed.

Lemma bAlways_always_conflict rc : always_conflict (stamping rc) isB.
Proof.
  intros docs s results s' [= <- _]. apply Forall2_fmap_r, Forall_Forall2_diag.
  apply Forall_true. intros doc Hb. cbn. unfold bAlways.
  by rewrite (bool_decide_eq_true_2 _ Hb).
Qed.

Lemma stamping_always_writes rc : always_writes (stamping rc) isB (row "b" []).
Proof.
  intros docs s c s'. unfold changesReply. cbn [options_changes stamping].
  rewrite syncFn_reply by lia. intros [= <- _]. exists ("b", 0). split; [left|done].
Qed.

(** C3, counterexample: [retryConflicts] is the number [0] and every
    write for row [b] conflicts.  The sub-batch of [a] and [b] is
    attempted three times before the failure of [b] is reported, not
    [0 + 1] times. *)
Lemma retryConflicts_zero_makes_three_attempts :
  let o := stamping (RcNum 0) in
  options_retryConflicts o = RcNum 0 ∧
  always_conflict o isB ∧ always_writes o isB (row "b" []) ∧
  ∃ w' d,
    processBatch o (retries o) ab 0 world0 = Some (inr tt, w', d) ∧
    d = [EvChanges (row "a" []) None None; EvChanges (row "b" []) None None;
         EvBulk [("a", 0); ("b", 0)] None; EvTick 1 1 0;
         EvChanges (row "b" []) None None; EvBulk [("b", 0)] None; EvTick 0 1 0;
         EvChanges (row "b" []) None None; EvBulk [("b", 0)] None; EvTick 0 1 0;
         EvFailure (row "b" []) "Conflict"] ∧
    length (bulks d) = 3 ∧ length (bulks d) ≠ 0 + 1.
Proof.
  split; [done|]. split; [apply bAlways_always_conflict|].
  split; [apply stamping_always_writes|].
  eexists _, _. split; [by vm_compute|]. split; [reflexivity|]. by split.
Qed.

(** The same store and a [changes] callback that hands the document of
    row [b] as it is, not in a list (the input of C2): the document is
    written once, its conflict goes unnoticed, both rows are counted as
    migrated and no failure is reported. *)
Lemma bare_document_conflict_goes_unnoticed :
  snd <$> processBatch baring (retries baring) ab 0 world0
  = Some [EvChanges (row "a" []) None None; EvChanges (row "b" []) None None;
          EvBulk [("a", 0); ("b", 0)] None; EvTick 2 2 0].
Proof. by vm_compute. Qed.

Lemma permanent_conflict_reported_after_retries_witness :
  let o := stamping RcUndefined in
  ∃ w' d,
    processBatch o (retries o) ab 0 world0 = Some (inr tt, w', d) ∧
    length (bulks d) = 3 ∧
    length (attempts o (retries o) ab 0 world0) = 3 ∧
    Forall (λ bn, row "b" [] ∈ bn.1 ∧ row "b" [] ∈ bn.2)
           (attempts o (retries o) ab 0 world0) ∧
    ∃ d0 last, d = d0 ++ conflictFailures last ∧ row "b" [] ∈ last ∧
               failures d0 = [] ∧ last `sublist_of` ab ∧
               realcurrent w' = (realcurrent world0 + successes ab last)%Z.
Proof.
  apply (permanent_conflict_reported_after_retries (stamping RcUndefined) isB
           (row "b" []) ab world0).
  - apply stamping_reliable.
  - apply stamping_lists.
  - apply bAlways_always_conflict.
  - apply stamping_always_writes.
  - right. left.
Defined.

Lemma conflict_then_success_counted_once_witness :
  let o := plain bOnce RcUndefined in
  ∃ r w' d,
    processBatch o 2 ab 0 world0 = Some (r, w', d) ∧
    attempts o 2 ab 0 world0 = [(ab, [row "b" []]); ([row "b" []], [])] ∧
    1 ≤ retries o ∧
    (∀ j bj nj, attempts o 2 ab 0 world0 !! j = Some (bj, nj) →
                row "b" [] ∈ bj → row "b" [] ∉ nj → j = 1) ∧
    (row "b" [] ∉ failures d) ∧
    ticks d = (λ bn, successes bn.1 bn.2) <$> attempts o 2 ab 0 world0 ∧
    realcurrent w' = (realcurrent world0 + total_ticks d)%Z.
Proof.
  intros o.
  assert (∃ r w' d, processBatch o 2 ab 0 world0 = Some (r, w', d))
    as (r & w' & d & Hrun).
  { eexists _, _, _. vm_compute. reflexivity. }
  assert (attempts o 2 ab 0 world0 = [(ab, [row "b" []]); ([row "b" []], [])])
    as Hh by (vm_compute; reflexivity).
  exists r, w', d. split; [exact Hrun|]. split; [exact Hh|].
  apply (conflict_then_success_counted_once o (row "b" []) 2 ab world0 r w' d 1
           [row "b" []] [] Hrun).
  - intros [|j] bj nj Hj Heq; [|lia]. rewrite Hh in Heq.
    injection Heq as <- <-. left.
  - by rewrite Hh.
  - left.
  - apply not_elem_of_nil.
Defined.

(** *** Scanning *)

Lemma from_key_drop (rows : list R) i next :
  NoDup (row_key <$> rows) →
  rows !! i = Some next →
  from_key (row_key next) rows = drop i rows.
Proof.
  revert i. induction rows as [|r rows IH]; intros [|i] Hnd Hi; cbn in *; try done.
  - injection Hi as ->. by rewrite bool_decide_eq_true_2.
  - apply NoDup_cons in Hnd as [Hnotin Hnd].
    rewrite bool_decide_eq_false_2; [by apply IH|].
    intros Heq. apply Hnotin. rewrite Heq.
    apply list_elem_of_fmap_2. by eapply list_elem_of_lookup_2.
Qed.

(** The store serves its rows by keyset pagination when their keys are
    distinct. *)
Lemma store_serves rows size conflict err :
  NoDup (row_key <$> rows) →
  serves (store rows conflict err) "ddoc" "view" emptyParams rows size.
Proof.
  intros Hnd p i s Hc.
  assert (p_limit p = Some (size + 1) ∧
          match startkey p with
          | None => i = 0
          | Some k => ∃ next, rows !! i = Some next ∧ k = row_key next
          end) as [Hl Hk].
  { induction Hc as [|p i next Hc [IHl IHk] Hnext]; cbn; [done|]. eauto. }
  cbn. unfold view_of. rewrite Hl.
  destruct (startkey p) as [k|].
  - destruct Hk as (next & Hnext & ->). by rewrite (from_key_drop _ i).
  - by rewrite Hk.
Qed.

Lemma scan_pages_cover_view_witness :
  ∃ (w' : W) (tr : list (@Event string unit D)),
    getViewInBatches 2 (store abc never None) "ddoc" "view" 2 (λ _, ret Next) world0
    = Some (inr Next, w', tr) ∧
    length (views tr) = max 1 (ceil_div (length abc) 2) ∧
    Forall (λ p, p_limit p = Some (2 + 1)) (views tr) ∧
    concat (pages tr) = abc ∧
    Forall (λ page, length page ≤ 2) (pages tr) ∧
    length (pages tr) = length (views tr).
Proof.
  apply (scan_pages_cover_view (store abc never None) "ddoc" "view" 2
           (λ _, ret Next) abc world0 2).
  - lia.
  - apply store_serves.
    apply (bool_decide_unpack (NoDup (row_key <$> abc))). vm_compute. exact I.
  - intros rows w. by exists w, [].
  - vm_compute. lia.
Defined.

(** C5, counterexample: an empty view ([N = 0]) is scanned with one
    request, not with [⌈0/1000⌉ = 0] requests. *)
Lemma empty_view_takes_one_request :
  snd <$> migrate (opts (store [] never None) None None None RcUndefined) 1 0
  = Some [EvView "ddoc" "view" (with_limit 1001 emptyParams) None;
          EvPage [];
          EvComplete None] ∧
  ceil_div (length ([] : list R)) 1000 = 0.
Proof. split; vm_compute; reflexivity. Qed.

(** *** The row budget *)

(** C4, at the failing input [limit = 0] over a view of 1001 rows: the
    first page makes the budget negative and is cut down to no row at
    all; the handler then leaves through the [rows.length === 0] exit,
    which calls [nextBatch()] whatever [limit] is, and the scan goes on
    to request the second page.  With [limit = 1] the same page is cut
    down to one row and the scan stops after it, by [complete]. *)
Theorem zero_limit_keeps_scanning :
  (summary ∘ snd) <$> migrate (budget 0) 2 0
  = Some (2, [1000; 1], [], Some (EvComplete None)) ∧
  (summary ∘ snd) <$> migrate (budget 1) 2 0
  = Some (1, [1000], [1], Some (EvComplete None)).
Proof. split; vm_compute; reflexivity. Qed.

(** The same store with a budget of two rows over the three rows of
[abc]: the first two rows enter the pipeline and the run is completed. *)
Lemma budget_limits_rows_example :
  ∃ w' tr,
    migrate (opts (store abc never None) (Some 2) None None RcUndefined) 1 0
    = Some (w', tr) ∧
    concat (subBatches tr) = take 2 abc ∧
    last tr = Some (EvComplete None).
Proof.
  set (o := opts (store abc never None) (Some 2) None None RcUndefined).
  destruct (budget_limits_rows o (λ _, true) abc 2 (initial o 0) 1)
    as (w' & tr & Hrun & Hsub & Hlast & _).
  - apply store_reliable.
  - done.
  - apply store_serves.
    apply (bool_decide_unpack (NoDup (row_key <$> abc))). vm_compute. exact I.
  - done.
  - lia.
  - cbn. lia.
  - vm_compute. lia.
  - by exists w', tr.
Defined.

(** *** Write errors other than conflicts *)

Lemma other_write_errors_count_as_success_witness :
  processBatch forbidden 2 ab 0 world0
  = Some (inr tt, settle 2 (set_ext 1 world0),
          [EvChanges (row "a" []) None None; EvChanges (row "b" []) None None;
           EvBulk [("a", 0); ("b", 0)] None] ++ [tickOf 2 (set_ext 1 world0)]).
Proof.
  apply (other_write_errors_count_as_success forbidden 2 ab 0 world0
           [[mkWriteResult "a" (Some "forbidden")];
            [mkWriteResult "b" (Some "forbidden")]]).
  - reflexivity.
  - repeat (constructor; [repeat (constructor; [discriminate|])|]); constructor.
Defined.

(** *** Counting the rows of a sub-batch *)

Lemma every_row_counted_once_witness :
  ∃ w' d,
    processBatch (plain bAlways RcUndefined) 2 ab 0 world0 = Some (inr tt, w', d) ∧
    failures d `sublist_of` ab ∧
    (realcurrent w' + Z.of_nat (length (failures d))
     = realcurrent world0 + Z.of_nat (length ab))%Z.
Proof.
  assert (∃ w' d, processBatch (plain bAlways RcUndefined) 2 ab 0 world0
                  = Some (inr tt, w', d)) as (w' & d & Hrun).
  { eexists _, _. vm_compute. reflexivity. }
  destruct (every_row_counted_once (plain bAlways RcUndefined) 2 ab 0 world0
              (inr tt) w' d Hrun) as (Hsub & _ & Heq).
  exists w', d. split; [exact Hrun|]. split; [exact Hsub|]. by apply Heq.
Defined.

Lemma at_most_retries_plus_one_writes_witness :
  ∃ r w' d,
    processBatch (plain bAlways RcUndefined) 2 ab 0 world0 = Some (r, w', d) ∧
    length (bulks d) ≤ 3 ∧ length (ticks d) ≤ length (bulks d).
Proof.
  assert (∃ r w' d, processBatch (plain bAlways RcUndefined) 2 ab 0 world0
                    = Some (r, w', d)) as (r & w' & d & Hrun).
  { eexists _, _, _. vm_compute. reflexivity. }
  exists r, w', d. split; [exact Hrun|].
  apply (at_most_retries_plus_one_writes (plain bAlways RcUndefined) 2 ab 0 world0
           r w' d Hrun).
  vm_compute. lia.
Defined.

(** *** The calls of the callbacks *)

Lemma changes_called_in_row_order_witness :
  ∃ r w' d,
    runChanges (throwing 2) ab [] world0 = Some (r, w', d) ∧
    changesCalls d `prefix_of` changesArgs [] ab ∧
    (∀ pre row docs e post,
       d = pre ++ EvChanges row docs (Some e) :: post →
       post = [] ∧ r = inl e ∧ bulks d = []) ∧
    length (bulks d) ≤ 1 ∧
    (bulks d ≠ [] → changesCalls d = changesArgs [] ab) ∧
    (∀ results, r = inr results →
       length results = length ab ∧ length (bulks d) = 1).
Proof.
  assert (∃ r w' d, runChanges (throwing 2) ab [] world0 = Some (r, w', d))
    as (r & w' & d & Hrun).
  { eexists _, _, _. vm_compute. reflexivity. }
  exists r, w', d. split; [exact Hrun|].
  exact (changes_called_in_row_order (throwing 2) ab [] world0 r w' d Hrun).
Defined.

Lemma fetchKeys_runs_first_once_per_row_witness :
  ∃ r w' d1 d2,
    getExtraKeyInfo enriching ab world0
    = Some (r, w', EvSubBatch ab :: d1 ++ d2) ∧
    Forall isFetchKeys d1 ∧ Forall (λ ev, ¬ isFetchKeys ev) d2 ∧
    keyCalls d1 `prefix_of` ab.
Proof.
  assert (∃ r w' d, getExtraKeyInfo enriching ab world0 = Some (r, w', d))
    as (r & w' & d & Hrun).
  { eexists _, _, _. vm_compute. reflexivity. }
  destruct (fetchKeys_runs_first_once_per_row enriching (syncFn 1 wantsX) ab world0 r w' d
              eq_refl Hrun) as (d1 & d2 & -> & Hd1 & Hd2 & Hpre & _).
  by exists r, w', d1, d2.
Defined.

(** *** Regrouping the documents of the multi-get *)

Lemma rows_get_their_own_documents_witness :
  let groups : list (list (option D)) :=
    [[Some ("x", 0); None]; []; [Some ("z", 0)]] in
  regroupDocs (concat groups) keyed = groups.
Proof.
  intros groups. apply rows_get_their_own_documents. repeat constructor.
Defined.

Lemma row_without_keys_gets_empty_list_witness :
  changesArgs (regroupDocs [Some ("x", 0); None; Some ("z", 0)] keyed) keyed !! 1
  = Some (row "b" [], Some ([] : list (option D))).
Proof.
  apply (row_without_keys_gets_empty_list (Doc:=D)); reflexivity.
Defined.

(** *** The budget on one page *)

Lemma budget_never_negative_witness :
  applyLimit (Doc:=D) abc (set_limit (Some 2%Z) world0)
  = Some (inr (take 2 abc), set_limit (Some 0%Z) world0, []).
Proof.
  apply (budget_never_negative (Doc:=D) abc (set_limit (Some 2%Z) world0) 2);
    [reflexivity|lia].
Defined.

Lemma rejected_page_is_skipped_witness :
  ∃ w' d,
    batchHandler strict [row "b" []] (initial strict 0) = Some (inr Next, w', d) ∧
    Forall isFailure d ∧
    limit w' = limit (initial strict 0) ∧ query w' = query (initial strict 0) ∧
    realcurrent w' = realcurrent (initial strict 0) ∧
    batchno w' = (batchno (initial strict 0%nat) + 1)%Z.
Proof.
  apply (rejected_page_is_skipped strict isNotB [row "b" []] (initial strict 0)).
  - intros r s. unfold isNotB. cbn. by case_bool_decide.
  - constructor; [reflexivity|constructor].
  - intros l [= <-]. lia.
Defined.

(** *** The sub-batches of a page *)

Lemma sub_batches_partition_page_witness :
  ∃ w' d,
    whilst (plain bAlways RcUndefined) 3 abc 0 world0 = Some (inr tt, w', d) ∧
    Forall (λ b, 0 < length b ≤ 2) (subBatches d) ∧
    concat (subBatches d) = abc ∧
    length (subBatches d) = 2.
Proof.
  assert (∃ w' d, whilst (plain bAlways RcUndefined) 3 abc 0 world0
                  = Some (inr tt, w', d)) as (w' & d & Hrun).
  { eexists _, _. vm_compute. reflexivity. }
  destruct (sub_batches_partition_page (plain bAlways RcUndefined) 3 abc 0 world0
              (inr tt) w' d Hrun) as (Hall & _ & Heq).
  destruct (Heq eq_refl) as [Hcat Hlen].
  exists w', d. split; [exact Hrun|]. split; [exact Hall|]. split; [exact Hcat|].
  exact Hlen.
Defined.

Lemma page_rows_counted_once_witness :
  ∃ w' d,
    whilst (plain bAlways RcUndefined) 3 abc 0 world0 = Some (inr tt, w', d) ∧
    (realcurrent w' + Z.of_nat (length (failures d)) = realcurrent world0 + 3)%Z.
Proof.
  assert (∃ w' d, whilst (plain bAlways RcUndefined) 3 abc 0 world0
                  = Some (inr tt, w', d)) as (w' & d & Hrun).
  { eexists _, _. vm_compute. reflexivity. }
  destruct (page_rows_counted_once (plain bAlways RcUndefined) 3 abc 0 world0
              (inr tt) w' d Hrun) as (_ & Heq).
  exists w', d. split; [exact Hrun|]. by apply Heq.
Defined.

(** *** [complete] *)

Lemma complete_called_exactly_once_witness :
  ∃ w' d0 e,
    migrate failing 1 0 = Some (w', d0 ++ [EvComplete e]) ∧
    Forall (λ ev, ¬ isComplete ev) d0.
Proof.
  assert (∃ w' d, migrate failing 1 0 = Some (w', d)) as (w' & d & Hrun).
  { eexists _, _. vm_compute. reflexivity. }
  destruct (complete_called_exactly_once failing 1 (initial failing 0) w' d Hrun)
    as (d0 & e & -> & Hd0).
  by exists w', d0, e.
Defined.

(** *** A [changes] callback that asks for no write *)

Lemma empty_bulk_write_is_still_sent_witness :
  ∃ r w' d,
    runChanges silent ab [] world0 = Some (r, w', d) ∧
    bulks d = [[]] ∧
    (∀ results, r = inr results →
       results = replicate (length ab) [] ∧ conflicting ab results = []).
Proof.
  assert (∃ r w' d, runChanges silent ab [] world0 = Some (r, w', d))
    as (r & w' & d & Hrun).
  { eexists _, _, _. vm_compute. reflexivity. }
  exists r, w', d. split; [exact Hrun|].
  apply (empty_bulk_write_is_still_sent silent ab [] world0 r w' d); [|exact Hrun].
  intros r0 docs s. exists ChNone, s. unfold changesReply, silent.
  cbn [options_changes]. rewrite syncFn_reply by lia. by repeat split.
Defined.

(** *** The requests of a scan *)

Lemma scan_overwrites_limit_only_witness :
  let o := steady None in
  ∃ r w' tr,
    getViewInBatches 1 (db o) "ddoc" "view" 1000 (batchHandler o) (initial o 0)
    = Some (r, w', tr) ∧
    head (views tr) = Some (with_limit (1000 + 1) (query (initial o 0))) ∧
    Forall (λ p, p_limit p = Some (1000 + 1) ∧
                 p_rest p = p_rest (query (initial o 0))) (views tr) ∧
    Forall (λ page, length page ≤ 1000) (pages tr) ∧
    length (pages tr) ≤ length (views tr) ≤ S (length (pages tr)) ∧
    ∃ pps failed,
      scanEvents tr = served "ddoc" "view" pps ++ failed ∧
      (failed = [] ∨ ∃ p e, failed = [EvView "ddoc" "view" p (Some e)] ∧ r = inl e).
Proof.
  intros o.
  assert (∃ r w' tr,
    getViewInBatches 1 (db o) "ddoc" "view" 1000 (batchHandler o) (initial o 0)
    = Some (r, w', tr)) as (r & w' & tr & Hrun).
  { eexists _, _, _. vm_compute. reflexivity. }
  exists r, w', tr. split; [exact Hrun|].
  apply (scan_overwrites_limit_only 1 (db o) "ddoc" "view" 1000 (batchHandler o)
           (initial o 0) r w' tr); [|exact Hrun].
  apply batchHandler_keeps_query.
Defined.

(** The migration whose bulk write fails: the params object is left at
    the request of the page that failed. *)
Lemma params_hold_last_request_witness :
  ∃ r w' tr,
    getViewInBatches 1 (db failing) "ddoc" "view" 1000 (batchHandler failing)
                     (initial failing 0)
    = Some (r, w', tr) ∧
    last (views tr) = Some (query w').
Proof.
  assert (∃ r w' tr,
    getViewInBatches 1 (db failing) "ddoc" "view" 1000 (batchHandler failing)
                     (initial failing 0)
    = Some (r, w', tr)) as (r & w' & tr & Hrun).
  { eexists _, _, _. vm_compute. reflexivity. }
  exists r, w', tr. split; [exact Hrun|].
  apply (params_hold_last_request 1 (db failing) "ddoc" "view" 1000
           (batchHandler failing) (initial failing 0) r w' tr); [|exact Hrun].
  apply batchHandler_keeps_query.
Defined.

(** *** Migrations that run to the end of the view *)

Lemma steady_reliable lim : reliable (steady lim).
Proof. apply store_reliable. Qed.

Lemma unlimited_run_visits_every_accepted_row_witness :
  ∃ w' tr,
    migrate (steady None) 1 0 = Some (w', tr ++ [EvComplete None]) ∧
    concat (subBatches tr) = List.filter (λ _, true) abc ∧
    concat (pages tr) = abc ∧
    length (views tr) = max 1 (ceil_div (length abc) 1000).
Proof.
  apply (unlimited_run_visits_every_accepted_row (steady None) (λ _, true) abc
           (initial (steady None) 0) 1).
  - apply steady_reliable.
  - done.
  - apply store_serves.
    apply (bool_decide_unpack (NoDup (row_key <$> abc))). vm_compute. exact I.
  - reflexivity.
  - vm_compute. lia.
Defined.

Lemma generous_budget_visits_every_accepted_row_witness :
  ∃ w' tr,
    migrate (steady (Some 5)) 1 0 = Some (w', tr) ∧
    concat (subBatches tr) = List.filter (λ _, true) abc ∧
    last tr = Some (EvComplete None).
Proof.
  apply (generous_budget_visits_every_accepted_row (steady (Some 5)) (λ _, true) abc 5
           (initial (steady (Some 5)) 0) 1).
  - apply steady_reliable.
  - done.
  - apply store_serves.
    apply (bool_decide_unpack (NoDup (row_key <$> abc))). vm_compute. exact I.
  - reflexivity.
  - lia.
  - vm_compute. lia.
  - vm_compute. lia.
Defined.

(** *** [wrapAsync] *)

Lemma wrapAsync_calls_back_once_witness :
  ∃ g, wrapAsync (Some halve) 1 = Some g ∧
       ∀ n, called_back (fn_call g n) = [ended (fn_call halve n)] ∧
            ended (fn_call g n) = inr None.
Proof.
  apply (wrapAsync_calls_back_once halve 1).
  - intros n. reflexivity.
  - vm_compute. lia.
Defined.

Lemma wrapAsync_twice_calls_back_twice_witness :
  ∃ g, wrapAsync (wrapAsync (Some halve) 1) 1 = Some g ∧
       ∀ n, called_back (fn_call g n) = [ended (fn_call halve n); inr None].
Proof.
  apply (wrapAsync_twice_calls_back_twice halve 1).
  - intros n. reflexivity.
  - vm_compute. lia.
Defined.

End Demo.
